(** * A growable array over raw storage: [Vector<T>] and [RawMemory<T>]

    Shallow embedding of [src/advanced-vector/vector.h].

    The free store is a list of blocks, one per [operator new]; a block is a
    list of slots, each either raw (no object) or holding a live [T].  A
    [T*] is a block number with an element offset.  [Vector] objects live at
    addresses in an object store, so that [this != &rhs] can be decided and
    so that member updates made before an exception stay visible after it.

    A call either returns, leaves by a C++ exception, or has no defined
    behaviour (a failed [assert], a read of a raw slot, a destructor run on
    a raw slot, an access outside a block, an invalid iterator range).

    Assumptions, stated once:
    - [size_t] is modelled by [nat]: the sizes and capacities of the
      vectors that exist stay below 2^64, since every element occupies at
      least one byte of a 64-bit address space.  A count that the caller
      chooses ([Vector(n)], [Reserve(n)], [Resize(n)], [RawMemory(n)]) has
      no such bound: [Allocate] computes its byte count in [size_t], where
      it may wrap ([Allocate_size_t]), and the properties that acquire
      storage for such a count are stated for a [representable] one;
    - [operator new] does not fail ([std::bad_alloc] is not modelled);
    - the algorithms of <memory> and <algorithm> follow the C++ standard's
      description of them: the [uninitialized_*] family destroys what it
      has constructed before it lets an exception out;
    - the only sources of exceptions are the operations of the element
      type, and whether the n-th such operation throws is fixed by the
      element type ([throws]); destructors do not throw, and move
      assignment throws only where move construction may;
    - the arguments a caller hands to [PushBack], [EmplaceBack], [Insert]
      and [Emplace] are objects outside the modelled store, so they do not
      alias the elements of the vector.

    The file has three parts: the model (the source, function by function),
    the definitions used to state the properties, and the proofs: the
    element operations and algorithms step by step, the member functions on
    a well-formed vector, the properties of the specification, and runs on
    concrete inputs. *)

From Stdlib Require Import ZArith Lia.
From stdpp Require Import base option list gmap.

(** ** The element type *)

(** What the container needs to know about [T]. *)
Class Element (T : Type) := {
  (** the value of [T()] *)
  value_init : T;
  (** what a moved-from object is left holding *)
  moved_from : T → T;
  (** [std::is_nothrow_move_constructible_v<T>] (move assignment alike) *)
  is_nothrow_move_constructible_v : bool;
  (** [std::is_copy_constructible_v<T>] *)
  is_copy_constructible_v : bool;
  (** [sizeof(T)], at least one byte *)
  sizeof_T : positive;
  (** [throws n]: the n-th element operation that is allowed to throw
      (counted from 0 over the whole run) does throw *)
  throws : nat → bool;
}.

(** ** Memory *)

Inductive slot (T : Type) :=
  | Raw
  | Obj (v : T).
Arguments Raw {T}.
Arguments Obj {T} v.

Inductive pointer :=
  | nullptr
  | Ptr (b : nat) (o : Z).

Record RawMemory := mkRawMemory {
  buffer_ : pointer;
  capacity_ : nat;
}.

Record Vector := mkVector {
  data_ : RawMemory;
  size_ : nat;
}.

Record state (T : Type) := mkState {
  heap : list (option (list (slot T)));
  vecs : gmap nat Vector;
  calls : nat;
  constructed : nat;
  destroyed : nat;
}.
Arguments mkState {T}.
Arguments heap {T}.
Arguments vecs {T}.
Arguments calls {T}.
Arguments constructed {T}.
Arguments destroyed {T}.

Inductive outcome (S A : Type) :=
  | Ok (a : A) (s : S)
  | Throw (s : S)
  | Undefined.
Arguments Ok {S A}.
Arguments Throw {S A}.
Arguments Undefined {S A}.

Definition M (T A : Type) : Type := state T → outcome (state T) A.

Global Instance M_ret {T} : MRet (M T) := λ A a s, Ok a s.

Global Instance M_bind {T} : MBind (M T) := λ A B k m s,
  match m s with
  | Ok a s' => k a s'
  | Throw s' => Throw s'
  | Undefined => Undefined
  end.

Definition undefined {T A} : M T A := λ _, Undefined.

Definition assert {T} (b : bool) : M T unit :=
  if b then mret () else undefined.

(** Stack unwinding through the scope of a local: when [body] leaves by an
    exception, [cleanup] (the local's destructor) runs and the exception
    goes on.  A destructor that throws meanwhile ends the program. *)
Definition unwinding {T A} (cleanup : M T unit) (body : M T A) : M T A := λ s,
  match body s with
  | Ok a s' => Ok a s'
  | Throw s' =>
      match cleanup s' with
      | Ok _ s'' => Throw s''
      | _ => Undefined
      end
  | Undefined => Undefined
  end.

(** [try { body } catch (...) { handler; throw; }] *)
Definition try_catch_rethrow {T A} (body : M T A) (handler : M T unit) : M T A :=
  unwinding handler body.

(** *** Pointers *)

Definition ptr_add (p : pointer) (k : Z) : pointer :=
  match p with
  | nullptr => nullptr
  | Ptr b o => Ptr b (o + k)
  end.

Notation "p +ₚ n" := (ptr_add p (Z.of_nat n)) (at level 50, left associativity).
Notation "p -ₚ n" := (ptr_add p (- Z.of_nat n)) (at level 50, left associativity).

(** [p <= q] and [p < q] on pointers into one block (or both null). *)
Definition ptr_leb (p q : pointer) : bool :=
  match p, q with
  | nullptr, nullptr => true
  | Ptr b o, Ptr b' o' => bool_decide (b = b') && bool_decide (o ≤ o')%Z
  | _, _ => false
  end.

Definition ptr_ltb (p q : pointer) : bool :=
  match p, q with
  | Ptr b o, Ptr b' o' => bool_decide (b = b') && bool_decide (o < o')%Z
  | _, _ => false
  end.

(** [p - q]; only meaningful inside one block. *)
Definition ptr_diff (p q : pointer) : Z :=
  match p, q with
  | Ptr b o, Ptr b' o' => o - o'
  | _, _ => 0
  end.

(** *** The free store *)

Definition block_of {T} (h : list (option (list (slot T)))) (b : nat)
  : option (list (slot T)) :=
  match h !! b with
  | Some (Some blk) => Some blk
  | _ => None
  end.

Definition slot_at {T} (h : list (option (list (slot T)))) (p : pointer)
  : option (slot T) :=
  match p with
  | nullptr => None
  | Ptr b o =>
      if bool_decide (0 ≤ o)%Z then
        match block_of h b with
        | Some blk => blk !! Z.to_nat o
        | None => None
        end
      else None
  end.

Definition poke {T} (h : list (option (list (slot T)))) (p : pointer)
    (x : slot T) : option (list (option (list (slot T)))) :=
  match p with
  | nullptr => None
  | Ptr b o =>
      if bool_decide (0 ≤ o)%Z then
        match block_of h b with
        | Some blk =>
            if bool_decide (Z.to_nat o < length blk)
            then Some (<[b := Some (<[Z.to_nat o := x]> blk)]> h)
            else None
        | None => None
        end
      else None
  end.

(** ** [size_t] *)

(** The largest [size_t], for a [size_t] of 64 bits. *)
Definition SIZE_MAX : Z := 18446744073709551615.

(** Multiplication in [size_t] wraps. *)
Definition size_t_mul (a b : Z) : Z := ((a * b) mod (SIZE_MAX + 1))%Z.

Section Model.
Context {T : Type} {elt : Element T}.

Local Abbreviation M := (M T).
Local Abbreviation state := (state T).

(** [operator new(n * sizeof(T))]: a fresh block of [n] raw slots. *)
Definition operator_new (n : nat) : M pointer := λ s,
  Ok (Ptr (length (heap s)) 0)
     (mkState (heap s ++ [Some (replicate n Raw)])
              (vecs s) (calls s) (constructed s) (destroyed s)).

(** [operator delete(p)]: nothing for a null pointer; otherwise [p] must be
    the start of a block that is still allocated.  Objects still alive in
    the block are not destroyed: their storage simply goes away. *)
Definition operator_delete (p : pointer) : M unit := λ s,
  match p with
  | nullptr => Ok () s
  | Ptr b o =>
      if bool_decide (o = 0%Z) then
        match block_of (heap s) b with
        | Some _ =>
            Ok () (mkState (<[b := None]> (heap s))
                           (vecs s) (calls s) (constructed s) (destroyed s))
        | None => Undefined
        end
      else Undefined
  end.

(** *** Operations of the element type *)

(** One element operation that may throw is invoked. *)
Definition tick : M unit := λ s,
  let s' := mkState (heap s) (vecs s) (S (calls s)) (constructed s) (destroyed s) in
  if throws (calls s) then Throw s' else Ok () s'.

(** A move constructor or move assignment is invoked. *)
Definition tick_move : M unit :=
  if is_nothrow_move_constructible_v then mret () else tick.

(** Reading through [p], which has to point to a live object. *)
Definition deref (p : pointer) : M T := λ s,
  match slot_at (heap s) p with
  | Some (Obj v) => Ok v s
  | _ => Undefined
  end.

(** A constructor has completed at [p]: an object holding [v] begins its
    life there.  Whatever the slot held before is gone without a
    destructor call. *)
Definition begin_lifetime (p : pointer) (v : T) : M unit := λ s,
  match poke (heap s) p (Obj v) with
  | Some h' => Ok () (mkState h' (vecs s) (calls s) (S (constructed s)) (destroyed s))
  | None => Undefined
  end.

(** The live object at [p] takes the value [v]. *)
Definition overwrite (p : pointer) (v : T) : M unit := λ s,
  match slot_at (heap s) p with
  | Some (Obj _) =>
      match poke (heap s) p (Obj v) with
      | Some h' => Ok () (mkState h' (vecs s) (calls s) (constructed s) (destroyed s))
      | None => Undefined
      end
  | _ => Undefined
  end.

(** The arguments handed to a constructor of [T] by a caller: an lvalue
    (copied) or an rvalue (moved) that lives outside the modelled store. *)
Inductive ctor_args :=
  | copy_arg (v : T)
  | move_arg (v : T).

(** [new (p) T(std::forward<Args>(args)...)] *)
Definition construct (p : pointer) (args : ctor_args) : M unit :=
  match args with
  | copy_arg v => tick;; begin_lifetime p v
  | move_arg v => tick_move;; begin_lifetime p v
  end.

(** [new (p) T()] *)
Definition value_construct (p : pointer) : M unit :=
  tick;; begin_lifetime p value_init.

(** [new (dst) T(x)] for [x = *src] *)
Definition copy_construct (dst src : pointer) : M unit :=
  v ← deref src; construct dst (copy_arg v).

(** [new (dst) T(std::move(x))] for [x = *src] *)
Definition move_construct (dst src : pointer) : M unit :=
  v ← deref src; construct dst (move_arg v);; overwrite src (moved_from v).

(** copy assignment of the object at [src] to the object at [dst] *)
Definition T_copy_assign (dst src : pointer) : M unit :=
  v ← deref src; tick;; overwrite dst v.

(** move assignment of the object at [src] to the object at [dst] *)
Definition T_move_assign (dst src : pointer) : M unit :=
  v ← deref src; tick_move;; overwrite dst v;; overwrite src (moved_from v).

(** [std::destroy_at(p)], [p->~T()] *)
Definition destroy_at (p : pointer) : M unit := λ s,
  match slot_at (heap s) p with
  | Some (Obj _) =>
      match poke (heap s) p Raw with
      | Some h' => Ok () (mkState h' (vecs s) (calls s) (constructed s) (S (destroyed s)))
      | None => Undefined
      end
  | _ => Undefined
  end.

(** [Vector::Destroy] *)
Definition Destroy (buf : pointer) : M unit := destroy_at buf.

(** *** Algorithms of <memory> and <algorithm> *)

Fixpoint destroy_n (first : pointer) (n : nat) : M unit :=
  match n with
  | 0 => mret ()
  | S n' => destroy_at first;; destroy_n (first +ₚ 1) n'
  end.

Fixpoint uninitialized_value_construct_n (first : pointer) (n : nat) : M unit :=
  match n with
  | 0 => mret ()
  | S n' =>
      value_construct first;;
      unwinding (destroy_at first)
                (uninitialized_value_construct_n (first +ₚ 1) n')
  end.

Fixpoint uninitialized_copy_n (first : pointer) (count : nat) (d_first : pointer)
  : M unit :=
  match count with
  | 0 => mret ()
  | S count' =>
      copy_construct d_first first;;
      unwinding (destroy_at d_first)
                (uninitialized_copy_n (first +ₚ 1) count' (d_first +ₚ 1))
  end.

Fixpoint uninitialized_move_n (first : pointer) (count : nat) (d_first : pointer)
  : M unit :=
  match count with
  | 0 => mret ()
  | S count' =>
      move_construct d_first first;;
      unwinding (destroy_at d_first)
                (uninitialized_move_n (first +ₚ 1) count' (d_first +ₚ 1))
  end.

Fixpoint copy_n (first : pointer) (count : nat) (result : pointer) : M unit :=
  match count with
  | 0 => mret ()
  | S count' =>
      T_copy_assign result first;;
      copy_n (first +ₚ 1) count' (result +ₚ 1)
  end.

(** The loop of [std::move(first, last, d_first)], [n = last - first]. *)
Fixpoint move_loop (first : pointer) (n : nat) (d_first : pointer) : M unit :=
  match n with
  | 0 => mret ()
  | S n' =>
      T_move_assign d_first first;;
      move_loop (first +ₚ 1) n' (d_first +ₚ 1)
  end.

(** The loop of [std::move_backward(first, last, d_last)]. *)
Fixpoint move_backward_loop (last : pointer) (n : nat) (d_last : pointer) : M unit :=
  match n with
  | 0 => mret ()
  | S n' =>
      T_move_assign (d_last -ₚ 1) (last -ₚ 1);;
      move_backward_loop (last -ₚ 1) n' (d_last -ₚ 1)
  end.

(** [[first, last)] has to be a range: both ends in one block, [first] not
    after [last]. *)
Definition range_length (first last : pointer) : option nat :=
  if ptr_leb first last then Some (Z.to_nat (ptr_diff last first)) else None.

(** [std::move(first, last, d_first)] *)
Definition move_range (first last d_first : pointer) : M unit :=
  match range_length first last with
  | Some n => move_loop first n d_first
  | None => undefined
  end.

(** [std::move_backward(first, last, d_last)] *)
Definition move_backward (first last d_last : pointer) : M unit :=
  match range_length first last with
  | Some n => move_backward_loop last n d_last
  | None => undefined
  end.

(** ** [RawMemory<T>] *)

Definition RawMemory_default : RawMemory := mkRawMemory nullptr 0.

(** [Allocate(n)] is [operator new(n * sizeof(T))] with the product taken
    in [size_t], where it wraps: the block has room for as many elements
    as the wrapped byte count holds. *)
Definition Allocate_size_t (n : nat) : M pointer :=
  if negb (n =? 0)
  then operator_new
         (Z.to_nat (size_t_mul (Z.of_nat n) (Z.pos sizeof_T) / Z.pos sizeof_T))
  else mret nullptr.

(** The byte count of [n] elements is a [size_t]: the product in
    [Allocate] does not wrap. *)
Definition representable (n : nat) : Prop :=
  (Z.of_nat n * Z.pos sizeof_T ≤ SIZE_MAX)%Z.

Global Instance representable_dec n : Decision (representable n).
Proof. unfold representable. apply _. Defined.

(** [Allocate(n)] for a count whose byte size does not wrap, which is what
    [Allocate_size_t] does for a [representable] count
    ([Allocate_size_t_representable]); the member functions are modelled
    with it. *)
Definition Allocate (n : nat) : M pointer :=
  if negb (n =? 0) then operator_new n else mret nullptr.

Definition Deallocate (buf : pointer) : M unit := operator_delete buf.

(** [explicit RawMemory(size_t capacity)] *)
Definition RawMemory_ctor (capacity : nat) : M RawMemory :=
  buf ← Allocate capacity;
  mret (mkRawMemory buf capacity).

(** [~RawMemory()] *)
Definition RawMemory_dtor (this : RawMemory) : M unit :=
  Deallocate (buffer_ this).

(** [Swap]: the new [*this] and the new [other]. *)
Definition RawMemory_Swap (this other : RawMemory) : RawMemory * RawMemory :=
  (mkRawMemory (buffer_ other) (capacity_ other),
   mkRawMemory (buffer_ this) (capacity_ this)).

(** [RawMemory(RawMemory&& other)]: the new object and what is left of
    [other]. *)
Definition RawMemory_move_ctor (other : RawMemory) : RawMemory * RawMemory :=
  RawMemory_Swap RawMemory_default other.

(** [operator=(RawMemory&& rhs)]; [distinct] is [&rhs != this].  The new
    [*this] and the new [rhs].  The block [*this] held is neither released
    nor handed to [rhs]. *)
Definition RawMemory_move_assign (distinct : bool) (this rhs : RawMemory)
  : RawMemory * RawMemory :=
  if distinct then
    (mkRawMemory (buffer_ rhs) (capacity_ rhs), mkRawMemory nullptr 0)
  else (this, rhs).

(** [operator+(size_t offset)] *)
Definition RawMemory_plus (this : RawMemory) (offset : nat) : M pointer :=
  assert (offset <=? capacity_ this);;
  mret (buffer_ this +ₚ offset).

(** [operator[](size_t index)]: the address of the element. *)
Definition RawMemory_index (this : RawMemory) (index : nat) : M pointer :=
  assert (index <? capacity_ this);;
  mret (buffer_ this +ₚ index).

Definition GetAddress (this : RawMemory) : pointer := buffer_ this.

(** ** [Vector<T>] *)

(** The object at address [this]. *)
Definition load (this : nat) : M Vector := λ s,
  match vecs s !! this with
  | Some v => Ok v s
  | None => Undefined
  end.

Definition store (this : nat) (v : Vector) : M unit := λ s,
  Ok () (mkState (heap s) (<[this := v]> (vecs s))
                 (calls s) (constructed s) (destroyed s)).

Definition Size (v : Vector) : nat := size_ v.
Definition Capacity (v : Vector) : nat := capacity_ (data_ v).
Definition begin (v : Vector) : pointer := GetAddress (data_ v).
Definition end_ (v : Vector) : pointer := GetAddress (data_ v) +ₚ size_ v.
Definition cbegin (v : Vector) : pointer := GetAddress (data_ v).
Definition cend (v : Vector) : pointer := GetAddress (data_ v) +ₚ size_ v.

(** [Vector() = default] *)
Definition Vector_default : Vector := mkVector RawMemory_default 0.

Definition Vector_ctor (this : nat) : M unit := store this Vector_default.

(** [explicit Vector(size_t size)]: the members of the new object.  When
    the body throws, the member [data_], already constructed, is
    destroyed. *)
Definition Vector_sized (size : nat) : M Vector :=
  data ← RawMemory_ctor size;
  unwinding (RawMemory_dtor data)
    (uninitialized_value_construct_n (GetAddress data) size);;
  mret (mkVector data size).

Definition Vector_ctor_size (this size : nat) : M unit :=
  v ← Vector_sized size; store this v.

(** [Vector(const Vector& other)] *)
Definition Vector_copy (other : Vector) : M Vector :=
  data ← RawMemory_ctor (size_ other);
  unwinding (RawMemory_dtor data)
    (uninitialized_copy_n (GetAddress (data_ other)) (size_ other) (GetAddress data));;
  mret (mkVector data (size_ other)).

Definition Vector_ctor_copy (this other : nat) : M unit :=
  o ← load other; v ← Vector_copy o; store this v.

(** [Vector(Vector&& other) noexcept] *)
Definition Vector_ctor_move (this other : nat) : M unit :=
  o ← load other;
  let '(data, odata) := RawMemory_move_ctor (data_ o) in
  store other (mkVector odata 0);;
  store this (mkVector data (size_ o)).

(** [Swap] on the members: the new [*this] and the new [other]. *)
Definition Vector_Swap (this other : Vector) : Vector * Vector :=
  let '(d, od) := RawMemory_Swap (data_ this) (data_ other) in
  (mkVector d (size_ other), mkVector od (size_ this)).

(** [void Swap(Vector& other) noexcept] *)
Definition Swap (this other : nat) : M unit :=
  a ← load this; b ← load other;
  let '(a', b') := Vector_Swap a b in
  store this a';; store other b'.

(** [~Vector()], followed by the destructor of the member [data_]. *)
Definition Vector_dtor (v : Vector) : M unit :=
  destroy_n (GetAddress (data_ v)) (size_ v);;
  RawMemory_dtor (data_ v).

(** [Vector& operator=(const Vector& rhs)] *)
Definition Vector_copy_assign (this rhs : nat) : M unit :=
  if bool_decide (this ≠ rhs) then
    self ← load this; r ← load rhs;
    if Capacity self <? size_ r then
      tmp ← Vector_copy r;
      let '(self', tmp') := Vector_Swap self tmp in
      store this self';;
      Vector_dtor tmp'
    else
      (if Size r <? size_ self then
         copy_n (GetAddress (data_ r)) (Size r) (GetAddress (data_ self));;
         destroy_n (GetAddress (data_ self) +ₚ Size r) (size_ self - Size r)
       else
         copy_n (GetAddress (data_ r)) (size_ self) (GetAddress (data_ self));;
         uninitialized_copy_n (GetAddress (data_ r)) (Size r - size_ self)
                              (GetAddress (data_ self)));;
      store this (mkVector (data_ self) (Size r))
  else mret ().

(** [Vector& operator=(Vector&& rhs) noexcept] *)
Definition Vector_move_assign (this rhs : nat) : M unit :=
  if bool_decide (this ≠ rhs) then
    self ← load this; r ← load rhs;
    let '(data, rdata) := RawMemory_move_assign true (data_ self) (data_ r) in
    store rhs (mkVector rdata 0);;
    store this (mkVector data (size_ r))
  else mret ().

(** [T& operator[](size_t index) noexcept]: the address of the element. *)
Definition Vector_index (this index : nat) : M pointer :=
  self ← load this;
  assert (index <? size_ self);;
  RawMemory_index (data_ self) index.

(** The value read through [operator[]]. *)
Definition Vector_at (this index : nat) : M T :=
  p ← Vector_index this index; deref p.

(** The test of [if constexpr]: migrate by move rather than by copy. *)
Definition migrate_by_move : bool :=
  is_nothrow_move_constructible_v || negb is_copy_constructible_v.

(** [void Reserve(size_t new_capacity)] *)
Definition Reserve (this new_capacity : nat) : M unit :=
  self ← load this;
  if new_capacity <=? Capacity self then mret ()
  else
    new_data ← RawMemory_ctor new_capacity;
    unwinding (RawMemory_dtor new_data)
      (if migrate_by_move
       then uninitialized_move_n (begin self) (size_ self) (GetAddress new_data)
       else uninitialized_copy_n (begin self) (size_ self) (GetAddress new_data));;
    destroy_n (begin self) (size_ self);;
    let '(new_data', data') := RawMemory_Swap new_data (data_ self) in
    store this (mkVector data' (size_ self));;
    RawMemory_dtor new_data'.

(** [void Resize(size_t new_size)] *)
Definition Resize (this new_size : nat) : M unit :=
  self ← load this;
  (if new_size <? size_ self then
     destroy_n (begin self +ₚ new_size) (size_ self - new_size)
   else
     Reserve this new_size;;
     self' ← load this;
     uninitialized_value_construct_n (end_ self') (new_size - size_ self'));;
  self' ← load this;
  store this (mkVector (data_ self') new_size).

(** [void PopBack() noexcept].  On an empty vector [end() - 1] is not the
    address of an object and the call stops there, before [--size_]. *)
Definition PopBack (this : nat) : M unit :=
  self ← load this;
  destroy_at (end_ self -ₚ 1);;
  store this (mkVector (data_ self) (size_ self - 1)).

(** [T& EmplaceBack(Args&&... args)]: the address of the new element. *)
Definition EmplaceBack (this : nat) (args : ctor_args) : M pointer :=
  self ← load this;
  ptr ← (if size_ self =? Capacity self then
           let new_size := if negb (size_ self =? 0) then size_ self * 2 else 1 in
           new_data ← RawMemory_ctor new_size;
           ptr ← unwinding (RawMemory_dtor new_data)
                  (ptr ← RawMemory_plus new_data (size_ self);
                   construct ptr args;;
                   (if migrate_by_move
                    then uninitialized_move_n (begin self) (size_ self) (GetAddress new_data)
                    else uninitialized_copy_n (begin self) (size_ self) (GetAddress new_data));;
                   destroy_n (begin self) (size_ self);;
                   mret ptr);
           let '(data', new_data') := RawMemory_Swap (data_ self) new_data in
           store this (mkVector data' (size_ self));;
           RawMemory_dtor new_data';;
           mret ptr
         else
           ptr ← RawMemory_plus (data_ self) (size_ self);
           construct ptr args;;
           mret ptr);
  self' ← load this;
  store this (mkVector (data_ self') (S (size_ self')));;
  mret ptr.

(** [void PushBack(const T& value)] *)
Definition PushBack (this : nat) (value : T) : M unit :=
  EmplaceBack this (copy_arg value);; mret ().

(** [void PushBack(T&& value)] *)
Definition PushBack_rvalue (this : nat) (value : T) : M unit :=
  EmplaceBack this (move_arg value);; mret ().

(** [iterator Emplace(const_iterator pos, Args&&... args)] *)
Definition Emplace (this : nat) (pos : pointer) (args : ctor_args) : M pointer :=
  self ← load this;
  assert (ptr_leb (begin self) pos && ptr_leb pos (end_ self));;
  let idx := Z.to_nat (ptr_diff pos (begin self)) in
  (if size_ self <? Capacity self then
     buf ← operator_new 1;
     let tmp := buf in
     construct tmp args;;
     move_construct (end_ self) (end_ self -ₚ 1);;
     move_backward (begin self +ₚ idx) (end_ self -ₚ 1) (end_ self);;
     p ← RawMemory_index (data_ self) idx;
     T_move_assign p tmp;;
     destroy_at tmp;;
     operator_delete buf
   else if size_ self =? Capacity self then
     let new_size := if negb (size_ self =? 0) then size_ self * 2 else 1 in
     new_data ← RawMemory_ctor new_size;
     unwinding (RawMemory_dtor new_data)
       (p ← RawMemory_plus new_data idx;
        construct p args;;
        (if migrate_by_move then
           uninitialized_move_n (begin self) idx (GetAddress new_data);;
           uninitialized_move_n (begin self +ₚ idx) (size_ self - idx)
                                (GetAddress new_data +ₚ idx +ₚ 1)
         else
           try_catch_rethrow
             (uninitialized_copy_n (begin self) idx (GetAddress new_data);;
              uninitialized_copy_n (begin self +ₚ idx) (size_ self - idx)
                                   (GetAddress new_data +ₚ idx +ₚ 1))
             (destroy_n (GetAddress new_data +ₚ idx) 1));;
        destroy_n (begin self) (size_ self));;
     let '(data', new_data') := RawMemory_Swap (data_ self) new_data in
     store this (mkVector data' (size_ self));;
     RawMemory_dtor new_data'
   else mret ());;
  self' ← load this;
  store this (mkVector (data_ self') (S (size_ self')));;
  self'' ← load this;
  mret (begin self'' +ₚ idx).

(** [iterator Erase(const_iterator pos)] *)
Definition Erase (this : nat) (pos : pointer) : M pointer :=
  self ← load this;
  assert (ptr_leb (begin self) pos && ptr_ltb pos (end_ self));;
  let idx := Z.to_nat (ptr_diff pos (begin self)) in
  move_range (begin self +ₚ idx +ₚ 1) (end_ self) (begin self +ₚ idx);;
  PopBack this;;
  self' ← load this;
  mret (begin self' +ₚ idx).

(** [iterator Insert(const_iterator pos, const T& value)] *)
Definition Insert (this : nat) (pos : pointer) (value : T) : M pointer :=
  Emplace this pos (copy_arg value).

(** [iterator Insert(const_iterator pos, T&& value)] *)
Definition Insert_rvalue (this : nat) (pos : pointer) (value : T) : M pointer :=
  Emplace this pos (move_arg value).

End Model.

(** * Definitions used to state and prove the properties *)

Section Auxiliary.
Context {T : Type} {elt : Element T}.

(** The first of the next [n] throwing-capable element operations that
    throws, counted from the [c]-th of the run. *)
Fixpoint first_throw (c n : nat) : option nat :=
  match n with
  | 0 => None
  | S n' => if throws c then Some 0 else S <$> first_throw (S c) n'
  end.

(** Copy ([mv = false]) or move ([mv = true]) construction, with what it
    costs and what it leaves behind: the two [uninitialized_*_n]
    algorithms differ in nothing else. *)
Definition transfer (mv : bool) (dst src : pointer) : M T unit :=
  if mv then move_construct dst src else copy_construct dst src.

Definition ticking (mv : bool) : bool :=
  if mv then negb is_nothrow_move_constructible_v else true.

Definition residue (mv : bool) (v : T) : T := if mv then moved_from v else v.

Fixpoint transfer_n (mv : bool) (first : pointer) (count : nat) (d_first : pointer) : M T unit :=
  match count with
  | 0 => mret ()
  | S count' =>
      transfer mv d_first first;;
      unwinding (destroy_at d_first) (transfer_n mv (first +ₚ 1) count' (d_first +ₚ 1))
  end.

(** The value the constructed object takes. *)
Definition arg_value (args : ctor_args) : T :=
  match args with copy_arg v => v | move_arg v => v end.

(** [buf] is the storage of a [RawMemory] whose slots are [blk]: null when
    there are none, the start of an allocated block otherwise. *)
Definition owns (h : list (option (list (slot T)))) (buf : pointer)
    (blk : list (slot T)) : Prop :=
  match buf with
  | nullptr => blk = []
  | Ptr b o => o = 0%Z ∧ blk ≠ [] ∧ block_of h b = Some blk
  end.

(** The vector at [this] holds exactly the elements [l], in order, in
    storage [buf] of capacity [cap]: the first [length l] slots are live,
    the others raw. *)
Definition rep_at (s : state T) (this : nat) (buf : pointer) (l : list T)
    (cap : nat) : Prop :=
  vecs s !! this = Some (mkVector (mkRawMemory buf cap) (length l)) ∧
  length l ≤ cap ∧
  owns (heap s) buf ((Obj <$> l) ++ replicate (cap - length l) Raw).

Definition rep (s : state T) (this : nat) (l : list T) (cap : nat) : Prop :=
  ∃ buf, rep_at s this buf l cap.

(** The capacity after a reallocating append. *)
Definition grown (cap : nat) : nat := if negb (cap =? 0) then cap * 2 else 1.

(** Nothing has changed for an observer between [s] and [s']: the same
    [Vector] objects, the same allocated blocks with the same contents, and
    as many destructor calls as completed constructor calls in between. *)
Definition rolled_back (s s' : state T) : Prop :=
  vecs s' = vecs s ∧
  (∀ b, block_of (heap s') b = block_of (heap s) b) ∧
  constructed s' + destroyed s = constructed s + destroyed s'.

(** What a caller sees of the vector at [this] through [Size()] and
    [operator[]]: the elements [l], in order. *)
Definition observed (s : state T) (this : nat) (l : list T) : Prop :=
  (∃ v, load this s = Ok v s ∧ Size v = length l) ∧
  ∀ i x, l !! i = Some x → Vector_at this i s = Ok x s.

(** The element type never throws. *)
Definition quiet : Prop := ∀ n, throws n = false.

(** Sequences of appends and removals at the back. *)
Inductive op :=
  | push (v : T)
  | push_rvalue (v : T)
  | pop.

Definition exec (this : nat) (o : op) : M T unit :=
  match o with
  | push v => PushBack this v
  | push_rvalue v => PushBack_rvalue this v
  | pop => PopBack this
  end.

Fixpoint run (this : nat) (ops : list op) : M T unit :=
  match ops with
  | [] => mret ()
  | o :: ops' => exec this o;; run this ops'
  end.

(** The elements that survive [ops], oldest first, when the vector held
    [l]; [None] when a [pop] meets an empty vector. *)
Fixpoint survivors (l : list T) (ops : list op) : option (list T) :=
  match ops with
  | [] => Some l
  | push v :: ops' => survivors (l ++ [v]) ops'
  | push_rvalue v :: ops' => survivors (l ++ [v]) ops'
  | pop :: ops' =>
      match l with
      | [] => None
      | _ :: _ => survivors (removelast l) ops'
      end
  end.

Fixpoint pushes (ops : list op) : nat :=
  match ops with
  | [] => 0
  | pop :: ops' => pushes ops'
  | _ :: ops' => S (pushes ops')
  end.

Fixpoint pops (ops : list op) : nat :=
  match ops with
  | [] => 0
  | pop :: ops' => S (pops ops')
  | _ :: ops' => pops ops'
  end.

(** Whether the constructor call made from [args] may throw. *)
Definition arg_ticks (args : @ctor_args T) : bool :=
  match args with
  | copy_arg _ => true
  | move_arg _ => negb is_nothrow_move_constructible_v
  end.

(** Between [s] and [s'] the vector at [this] went from storage [buf] to
    storage [buf'] and nothing else was touched: the other [Vector]
    objects are the same, no block has disappeared from the store, the
    blocks other than these two are the same, the old block has been
    released when the storage moved, and storage that is new is a block
    acquired in between. *)
Definition elsewhere_kept (this : nat) (buf buf' : pointer) (s s' : state T) : Prop :=
  (∀ that, that ≠ this → vecs s' !! that = vecs s !! that) ∧
  length (heap s) ≤ length (heap s') ∧
  (∀ b, buf ≠ Ptr b 0 → buf' ≠ Ptr b 0 → block_of (heap s') b = block_of (heap s) b) ∧
  (∀ b, buf = Ptr b 0 → buf' ≠ buf → block_of (heap s') b = None) ∧
  (buf' = buf ∨ ∃ b', buf' = Ptr b' 0 ∧ length (heap s) ≤ b').

End Auxiliary.

(** The two pointers do not point into one block. *)
Definition apart (p q : pointer) : Prop :=
  match p, q with
  | Ptr b _, Ptr b' _ => b ≠ b'
  | _, _ => True
  end.

Global Instance pointer_eq_dec : EqDecision pointer.
Proof. solve_decision. Defined.

(** ** Element types and programs used as concrete inputs *)

(** An element type like [int]: nothing throws, a move is a copy. *)
Definition int_like : Element nat := {|
  value_init := 0;
  moved_from := λ v, v;
  is_nothrow_move_constructible_v := true;
  is_copy_constructible_v := true;
  sizeof_T := 4;
  throws := λ _, false;
|}.

(** A copyable element type whose move constructor may throw, so that
    migration copies; its sixth element operation throws. *)
Definition throwing_copy : Element nat := {|
  value_init := 0;
  moved_from := λ v, v;
  is_nothrow_move_constructible_v := false;
  is_copy_constructible_v := true;
  sizeof_T := 4;
  throws := λ n, n =? 5;
|}.

(** A move-only element type, like a [unique_ptr] that counts its moves:
    a moved-from object holds 0, and its eighth element operation throws. *)
Definition move_only : Element nat := {|
  value_init := 0;
  moved_from := λ _, 0;
  is_nothrow_move_constructible_v := false;
  is_copy_constructible_v := false;
  sizeof_T := 8;
  throws := λ n, n =? 7;
|}.

(** The state of a program that has not created anything yet. *)
Definition fresh : state nat := mkState [] ∅ 0 0 0.

(** [Vector<T> a; a.Reserve(4); a.PushBack(1);
     Vector<T> b; b.PushBack(7); b.PushBack(8); b.PushBack(9);]
    with [a] at address 0 and [b] at address 1. *)
Definition two_vectors {elt : Element nat} : M nat unit :=
  Vector_ctor 0;; Reserve 0 4;; PushBack 0 1;;
  Vector_ctor 1;; PushBack 1 7;; PushBack 1 8;; PushBack 1 9.

(** [Vector<T> v; v.PushBack(1); v.PushBack(2);] with [v] at address 0:
    size 2, capacity 2. *)
Definition full_vector {elt : Element nat} : M nat unit :=
  Vector_ctor 0;; PushBack 0 1;; PushBack 0 2.

(** [Vector<T> v; v.Reserve(4); v.PushBack(1); v.PushBack(2);]: size 2,
    capacity 4. *)
Definition roomy_vector {elt : Element nat} : M nat unit :=
  Vector_ctor 0;; Reserve 0 4;; PushBack 0 1;; PushBack 0 2.

(** [Vector<T> v; v.PushBack(T(1)); v.PushBack(T(2)); v.PushBack(T(3));]:
    size 3, capacity 4, filled from rvalues. *)
Definition moved_in_vector {elt : Element nat} : M nat unit :=
  Vector_ctor 0;; PushBack_rvalue 0 1;; PushBack_rvalue 0 2;; PushBack_rvalue 0 3.

(** [Vector<T> v; v.PushBack(1); v.PushBack(2); Vector<T> w;] with [v] at
    address 0 and [w], empty and without storage, at address 5. *)
Definition beside_empty_vector {elt : Element nat} : M nat unit :=
  full_vector;; Vector_ctor 5.

(** [Vector<T> v; v.Reserve(8);] and five times [PushBack]: size 5,
    capacity 8, after five element operations that may throw. *)
Definition five_in_eight {elt : Element nat} : M nat unit :=
  Vector_ctor 0;; Reserve 0 8;;
  PushBack 0 1;; PushBack 0 2;; PushBack 0 3;; PushBack 0 4;; PushBack 0 5.

(** [Vector<T> v; v.Reserve(8);] and four times [PushBack]: size 4,
    capacity 8, after four element operations that may throw. *)
Definition four_in_eight {elt : Element nat} : M nat unit :=
  Vector_ctor 0;; Reserve 0 8;;
  PushBack 0 1;; PushBack 0 2;; PushBack 0 3;; PushBack 0 4.

(** The state a call leaves behind, on return or on an exception. *)
Definition state_after {T A} (m : M T A) (s : state T) : state T :=
  match m s with
  | Ok _ s' => s'
  | Throw s' => s'
  | Undefined => s
  end.


(** * Reasoning about the model *)

Arguments ptr_add : simpl never.
Arguments Z.of_nat : simpl never.
Arguments Z.to_nat : simpl never.

(** ** Pointers with a natural offset *)

Lemma ptr_nat_add b (i k : nat) :
  Ptr b (Z.of_nat i) +ₚ k = Ptr b (Z.of_nat (i + k)).
Proof. unfold ptr_add. f_equal. lia. Qed.

Lemma ptr_nat_succ b (i : nat) : Ptr b (Z.of_nat i) +ₚ 1 = Ptr b (Z.of_nat (S i)).
Proof. unfold ptr_add. f_equal. lia. Qed.

Lemma ptr_nat_pred b (i : nat) : Ptr b (Z.of_nat (S i)) -ₚ 1 = Ptr b (Z.of_nat i).
Proof. unfold ptr_add. f_equal. lia. Qed.

Lemma ptr_zero b : Ptr b 0 = Ptr b (Z.of_nat 0).
Proof. reflexivity. Qed.

(** ** Blocks of the free store *)

Section Blocks.
Context {T : Type}.
Implicit Types (h : list (option (list (slot T)))) (blk : list (slot T)).

Lemma block_of_Some h b blk : block_of h b = Some blk ↔ h !! b = Some (Some blk).
Proof.
  unfold block_of. destruct (h !! b) as [[?|]|]; split; intros E; congruence.
Qed.

Lemma block_of_lt h b blk : block_of h b = Some blk → b < length h.
Proof. rewrite block_of_Some. apply lookup_lt_Some. Qed.

Lemma block_of_insert_eq h b x :
  b < length h → block_of (<[b := x]> h) b = x.
Proof.
  intros Hb. unfold block_of. rewrite list_lookup_insert_eq by done.
  by destruct x.
Qed.

Lemma block_of_insert_ne h b b' x :
  b ≠ b' → block_of (<[b := x]> h) b' = block_of h b'.
Proof. intros Hb. unfold block_of. by rewrite list_lookup_insert_ne. Qed.

Lemma block_of_app_l h h' b : b < length h → block_of (h ++ h') b = block_of h b.
Proof. intros Hb. unfold block_of. by rewrite lookup_app_l. Qed.

Lemma block_of_fresh h x : block_of (h ++ [x]) (length h) = x.
Proof.
  unfold block_of. rewrite list_lookup_middle by done. by destruct x.
Qed.

Lemma heap_insert_id h b blk : block_of h b = Some blk → <[b := Some blk]> h = h.
Proof. rewrite block_of_Some. apply list_insert_id. Qed.

Lemma slot_at_nat h b (i : nat) blk :
  block_of h b = Some blk → slot_at h (Ptr b (Z.of_nat i)) = blk !! i.
Proof.
  intros Hb. unfold slot_at. rewrite bool_decide_true by lia.
  by rewrite Hb, Nat2Z.id.
Qed.

Lemma poke_nat h b (i : nat) blk x :
  block_of h b = Some blk → i < length blk →
  poke h (Ptr b (Z.of_nat i)) x = Some (<[b := Some (<[i := x]> blk)]> h).
Proof.
  intros Hb Hi. unfold poke. rewrite bool_decide_true by lia.
  rewrite Hb, Nat2Z.id. by rewrite bool_decide_true.
Qed.

(** Updating the middle of a block written as [pre ++ x :: post]. *)
Lemma insert_middle {A} (pre post : list A) x y :
  <[length pre := y]> (pre ++ x :: post) = pre ++ y :: post.
Proof.
  replace (length pre) with (length pre + 0) by lia.
  by rewrite insert_app_r.
Qed.

Lemma insert_middle_at {A} (pre post : list A) x y n :
  n = length pre → <[n := y]> (pre ++ x :: post) = pre ++ y :: post.
Proof. intros ->. apply insert_middle. Qed.

Lemma lookup_middle_succ {A} (pre post : list A) x y :
  (pre ++ x :: y :: post) !! S (length pre) = Some y.
Proof.
  rewrite (cons_middle x), app_assoc. apply list_lookup_middle.
  rewrite length_app. simpl. lia.
Qed.

Lemma insert_middle_succ {A} (pre post : list A) x y z :
  <[S (length pre) := z]> (pre ++ x :: y :: post) = pre ++ x :: z :: post.
Proof.
  rewrite (cons_middle x), app_assoc.
  rewrite insert_middle_at by (rewrite length_app; simpl; lia).
  by rewrite <- app_assoc.
Qed.

End Blocks.

(** ** Element operations and algorithms, step by step *)

Section Steps.
Context {T : Type} {elt : Element T}.
Implicit Types (h : list (option (list (slot T)))) (blk : list (slot T)) (vm : gmap nat Vector).

Lemma bind_eq {A B} (m : M T A) (k : A → M T B) s :
  (m ≫= k) s = match m s with Ok a s' => k a s' | Throw s' => Throw s' | Undefined => Undefined end.
Proof. reflexivity. Qed.

Lemma ret_eq {A} (a : A) (s : state T) : (mret a : M T A) s = Ok a s.
Proof. reflexivity. Qed.

Lemma tick_eq h vm c k d :
  tick (mkState h vm c k d) =
  if throws c then Throw (mkState h vm (S c) k d) else Ok () (mkState h vm (S c) k d).
Proof. reflexivity. Qed.

Lemma deref_eq h vm c k d b (i : nat) blk v :
  block_of h b = Some blk → blk !! i = Some (Obj v) →
  deref (Ptr b (Z.of_nat i)) (mkState h vm c k d) = Ok v (mkState h vm c k d).
Proof. intros Hb Hi. unfold deref; cbn [heap]. by rewrite (slot_at_nat _ _ _ _ Hb), Hi. Qed.

Lemma begin_lifetime_eq h vm c k d b (i : nat) blk v :
  block_of h b = Some blk → i < length blk →
  begin_lifetime (Ptr b (Z.of_nat i)) v (mkState h vm c k d) =
  Ok () (mkState (<[b := Some (<[i := Obj v]> blk)]> h) vm c (S k) d).
Proof. intros Hb Hi. unfold begin_lifetime; cbn [heap]. by rewrite (poke_nat _ _ _ _ _ Hb Hi). Qed.

Lemma overwrite_eq h vm c k d b (i : nat) blk v w :
  block_of h b = Some blk → blk !! i = Some (Obj w) →
  overwrite (Ptr b (Z.of_nat i)) v (mkState h vm c k d) =
  Ok () (mkState (<[b := Some (<[i := Obj v]> blk)]> h) vm c k d).
Proof.
  intros Hb Hi. unfold overwrite; cbn [heap].
  rewrite (slot_at_nat _ _ _ _ Hb), Hi.
  by rewrite (poke_nat _ _ _ _ _ Hb (lookup_lt_Some _ _ _ Hi)).
Qed.

Lemma destroy_at_eq h vm c k d b (i : nat) blk w :
  block_of h b = Some blk → blk !! i = Some (Obj w) →
  destroy_at (Ptr b (Z.of_nat i)) (mkState h vm c k d) =
  Ok () (mkState (<[b := Some (<[i := Raw]> blk)]> h) vm c k (S d)).
Proof.
  intros Hb Hi. unfold destroy_at; cbn [heap].
  rewrite (slot_at_nat _ _ _ _ Hb), Hi.
  by rewrite (poke_nat _ _ _ _ _ Hb (lookup_lt_Some _ _ _ Hi)).
Qed.

Lemma destroy_n_eq vs : ∀ h vm c k d b pre post,
  block_of h b = Some (pre ++ (Obj <$> vs) ++ post) →
  destroy_n (Ptr b (Z.of_nat (length pre))) (length vs) (mkState h vm c k d) =
  Ok () (mkState (<[b := Some (pre ++ replicate (length vs) Raw ++ post)]> h) vm c k (d + length vs)).
Proof.
  induction vs as [|v vs IH]; intros h vm c k d b pre post Hb; simpl.
  - rewrite Nat.add_0_r. by rewrite heap_insert_id.
  - rewrite fmap_cons, <- app_comm_cons in Hb. rewrite bind_eq.
    erewrite destroy_at_eq; [|done|by rewrite list_lookup_middle].
    rewrite insert_middle, ptr_nat_succ.
    replace (S (length pre)) with (length (pre ++ [Raw])) by (rewrite length_app; simpl; lia).
    erewrite IH.
    2:{ rewrite block_of_insert_eq by eauto using block_of_lt. by rewrite <- app_assoc. }
    rewrite list_insert_insert_eq. rewrite <- app_assoc. simpl.
    do 2 f_equal. lia.
Qed.

Lemma unwinding_eq {A} (cl : M T unit) (body : M T A) s :
  unwinding cl body s =
  match body s with
  | Ok a s' => Ok a s'
  | Throw s' => match cl s' with Ok _ s'' => Throw s'' | _ => Undefined end
  | Undefined => Undefined
  end.
Proof. reflexivity. Qed.

Lemma first_throw_quiet c n : (∀ k, throws k = false) → first_throw c n = None.
Proof.
  intros Hq. revert c. induction n as [|n IH]; intros c; simpl; [done|].
  by rewrite Hq, IH.
Qed.

Lemma first_throw_Some c n j :
  first_throw c n = Some j →
  j < n ∧ throws (c + j) = true ∧ ∀ i, i < j → throws (c + i) = false.
Proof.
  revert c j. induction n as [|n IH]; intros c j; simpl; [done|].
  destruct (throws c) eqn:Hc.
  - intros [= <-]. rewrite Nat.add_0_r. repeat split; [lia|done|lia].
  - destruct (first_throw (S c) n) as [j'|] eqn:Hj; simpl; [|done].
    intros [= <-]. destruct (IH _ _ Hj) as (? & ? & Hlt).
    repeat split; [lia|by rewrite Nat.add_succ_r|].
    intros [|i] ?; [by rewrite Nat.add_0_r|].
    rewrite Nat.add_succ_r. apply Hlt. lia.
Qed.

Lemma uninitialized_value_construct_n_eq n : ∀ h vm c k d b pre mid post,
  length mid = n →
  block_of h b = Some (pre ++ mid ++ post) →
  uninitialized_value_construct_n (Ptr b (Z.of_nat (length pre))) n (mkState h vm c k d) =
  match first_throw c n with
  | None =>
      Ok () (mkState (<[b := Some (pre ++ replicate n (Obj value_init) ++ post)]> h)
                     vm (c + n) (k + n) d)
  | Some j =>
      Throw (mkState (<[b := Some (pre ++ replicate j Raw ++ drop j mid ++ post)]> h)
                     vm (c + S j) (k + j) (d + j))
  end.
Proof.
  induction n as [|n IH]; intros h vm c k d b pre mid post Hlen Hb.
  - destruct mid; [|done]. simpl. rewrite !Nat.add_0_r.
    by rewrite heap_insert_id.
  - destruct mid as [|x mid]; [done|]. injection Hlen as Hlen.
    cbn [uninitialized_value_construct_n first_throw].
    unfold value_construct. rewrite !bind_eq, tick_eq.
    destruct (throws c) eqn:Hc.
    { simpl. rewrite !Nat.add_0_r, Nat.add_1_r. by rewrite heap_insert_id. }
    rewrite <- app_comm_cons in Hb.
    erewrite begin_lifetime_eq; [|done|rewrite length_app; simpl; lia].
    rewrite insert_middle, ptr_nat_succ, unwinding_eq.
    replace (S (length pre)) with (length (pre ++ [Obj value_init]))
      by (rewrite length_app; simpl; lia).
    erewrite IH; [|done|].
    2:{ rewrite block_of_insert_eq by eauto using block_of_lt. by rewrite <- app_assoc. }
    destruct (first_throw (S c) n) as [j|]; simpl.
    + rewrite list_insert_insert_eq, <- app_assoc. simpl.
      erewrite destroy_at_eq;
        [|by apply block_of_insert_eq; eauto using block_of_lt|by rewrite list_lookup_middle].
      rewrite list_insert_insert_eq, insert_middle.
      do 2 f_equal; lia.
    + rewrite list_insert_insert_eq, <- app_assoc. simpl.
      do 2 f_equal; lia.
Qed.

Lemma transfer_n_copy first count d_first :
  uninitialized_copy_n first count d_first = transfer_n false first count d_first.
Proof.
  revert first d_first. induction count as [|n IH]; intros; simpl; [done|].
  by rewrite IH.
Qed.

Lemma transfer_n_move first count d_first :
  uninitialized_move_n first count d_first = transfer_n true first count d_first.
Proof.
  revert first d_first. induction count as [|n IH]; intros; simpl; [done|].
  by rewrite IH.
Qed.

Lemma transfer_eq mv h vm c k d bs bd (i j : nat) sblk dblk v :
  bs ≠ bd →
  block_of h bs = Some sblk → block_of h bd = Some dblk →
  sblk !! i = Some (Obj v) → j < length dblk →
  transfer mv (Ptr bd (Z.of_nat j)) (Ptr bs (Z.of_nat i)) (mkState h vm c k d) =
  if ticking mv && throws c then Throw (mkState h vm (S c) k d)
  else Ok () (mkState (<[bs := Some (<[i := Obj (residue mv v)]> sblk)]>
                         (<[bd := Some (<[j := Obj v]> dblk)]> h))
                      vm (if ticking mv then S c else c) (S k) d).
Proof.
  intros Hne Hs Hd Hi Hj.
  assert (Hs' : block_of (<[bd := Some (<[j := Obj v]> dblk)]> h) bs = Some sblk)
    by by rewrite block_of_insert_ne.
  destruct mv; unfold transfer, ticking, residue.
  - unfold move_construct, construct, tick_move. rewrite bind_eq.
    erewrite deref_eq by done.
    destruct is_nothrow_move_constructible_v; simpl negb; cbn [andb].
    + rewrite !bind_eq, ret_eq.
      erewrite begin_lifetime_eq by done.
      by erewrite overwrite_eq by done.
    + rewrite !bind_eq, tick_eq. destruct (throws c); [done|].
      erewrite begin_lifetime_eq by done.
      by erewrite overwrite_eq by done.
  - unfold copy_construct, construct. rewrite bind_eq.
    erewrite deref_eq by done. rewrite bind_eq, tick_eq. cbn [andb].
    destruct (throws c); [done|].
    erewrite begin_lifetime_eq by done.
    rewrite (list_insert_id sblk) by done.
    by rewrite (heap_insert_id _ _ _ Hs').
Qed.

Lemma heap_insert_shadow h bs bd x y x' :
  bs ≠ bd →
  <[bs := x]> (<[bd := y]> (<[bs := x']> h)) = <[bs := x]> (<[bd := y]> h).
Proof.
  intros Hne. rewrite (list_insert_insert_ne _ bd bs) by done.
  by rewrite list_insert_insert_eq.
Qed.

Lemma heap_insert_shadow2 h bs bd x y y' :
  <[bs := x]> (<[bd := y]> (<[bd := y']> h)) = <[bs := x]> (<[bd := y]> h).
Proof. by rewrite list_insert_insert_eq. Qed.

Lemma transfer_n_eq mv vs : ∀ h vm c k d bs bd spre spost dpre dmid dpost,
  bs ≠ bd → length dmid = length vs →
  block_of h bs = Some (spre ++ (Obj <$> vs) ++ spost) →
  block_of h bd = Some (dpre ++ dmid ++ dpost) →
  transfer_n mv (Ptr bs (Z.of_nat (length spre))) (length vs)
             (Ptr bd (Z.of_nat (length dpre))) (mkState h vm c k d) =
  match (if ticking mv then first_throw c (length vs) else None) with
  | None =>
      Ok () (mkState
               (<[bs := Some (spre ++ (Obj <$> (residue mv <$> vs)) ++ spost)]>
                  (<[bd := Some (dpre ++ (Obj <$> vs) ++ dpost)]> h))
               vm (if ticking mv then c + length vs else c) (k + length vs) d)
  | Some n =>
      Throw (mkState
               (<[bs := Some (spre ++ (Obj <$> (residue mv <$> take n vs))
                                   ++ (Obj <$> drop n vs) ++ spost)]>
                  (<[bd := Some (dpre ++ replicate n Raw ++ drop n dmid ++ dpost)]> h))
               vm (c + S n) (k + n) (d + n))
  end.
Proof.
  induction vs as [|v vs IH];
    intros h vm c k d bs bd spre spost dpre dmid dpost Hne Hlen Hs Hd.
  - destruct dmid; [|done]. cbn [length transfer_n first_throw].
    rewrite ret_eq.
    assert (Hs' : block_of (<[bd := Some (dpre ++ [] ++ dpost)]> h) bs
                  = Some (spre ++ [] ++ spost)) by by rewrite block_of_insert_ne.
    destruct (ticking mv); rewrite !fmap_nil;
      rewrite (heap_insert_id _ _ _ Hs'), (heap_insert_id _ _ _ Hd);
      do 2 f_equal; lia.
  - destruct dmid as [|x dmid]; [done|]. injection Hlen as Hlen.
    rewrite fmap_cons, <- app_comm_cons in Hs. rewrite <- app_comm_cons in Hd.
    cbn [length transfer_n first_throw]. rewrite bind_eq.
    erewrite transfer_eq; [|done|done|done|by rewrite list_lookup_middle
                           |rewrite length_app; simpl; lia].
    assert (Hbs : bs < length h) by eauto using block_of_lt.
    assert (Hbd : bd < length h) by eauto using block_of_lt.
    destruct (ticking mv) eqn:Htk; cbn [andb].
    + destruct (throws c) eqn:Hc.
      { cbn [take drop replicate fmap list_fmap app].
        assert (Hs' : block_of (<[bd := Some (dpre ++ x :: dmid ++ dpost)]> h) bs
                  = Some (spre ++ Obj v :: (Obj <$> vs) ++ spost))
          by by rewrite block_of_insert_ne.
        rewrite (heap_insert_id _ _ _ Hs'), (heap_insert_id _ _ _ Hd).
        do 2 f_equal; lia. }
      rewrite !insert_middle, ptr_nat_succ, ptr_nat_succ, unwinding_eq.
      replace (S (length spre)) with (length (spre ++ [Obj (residue mv v)]))
        by (rewrite length_app; simpl; lia).
      replace (S (length dpre)) with (length (dpre ++ [Obj v]))
        by (rewrite length_app; simpl; lia).
      erewrite IH; [|done|done| |].
      2:{ rewrite block_of_insert_eq by (by rewrite length_insert).
          by rewrite <- app_assoc. }
      2:{ rewrite block_of_insert_ne by done. rewrite block_of_insert_eq by done.
          by rewrite <- app_assoc. }
      rewrite ?Htk.
      destruct (first_throw (S c) (length vs)) as [j|]; cbn [fmap option_fmap option_map].
      * rewrite heap_insert_shadow, heap_insert_shadow2 by done.
        erewrite destroy_at_eq.
        2:{ rewrite block_of_insert_ne by done. by apply block_of_insert_eq. }
        2:{ rewrite <- app_assoc. by apply list_lookup_middle. }
        rewrite (list_insert_insert_ne _ bd bs) by done.
        rewrite list_insert_insert_eq.
        rewrite <- !app_assoc. cbn [app]. rewrite insert_middle.
        cbn [take drop replicate fmap list_fmap app].
        rewrite ?fmap_cons. cbn [app].
        do 2 f_equal; lia.
      * rewrite heap_insert_shadow, heap_insert_shadow2 by done.
        rewrite <- !app_assoc. rewrite !fmap_cons. cbn [app].
        do 2 f_equal; lia.
    + rewrite !insert_middle, ptr_nat_succ, ptr_nat_succ, unwinding_eq.
      replace (S (length spre)) with (length (spre ++ [Obj (residue mv v)]))
        by (rewrite length_app; simpl; lia).
      replace (S (length dpre)) with (length (dpre ++ [Obj v]))
        by (rewrite length_app; simpl; lia).
      erewrite IH; [|done|done| |].
      2:{ rewrite block_of_insert_eq by (by rewrite length_insert).
          by rewrite <- app_assoc. }
      2:{ rewrite block_of_insert_ne by done. rewrite block_of_insert_eq by done.
          by rewrite <- app_assoc. }
      rewrite ?Htk.
      rewrite heap_insert_shadow, heap_insert_shadow2 by done.
      rewrite <- !app_assoc. rewrite !fmap_cons. cbn [app].
      do 2 f_equal; lia.
Qed.
Lemma load_eq h vm c k d this v :
  vm !! this = Some v → load this (mkState h vm c k d) = Ok v (mkState h vm c k d).
Proof. intros E. unfold load; cbn [vecs]. by rewrite E. Qed.

Lemma store_eq h vm c k d this v :
  store this v (mkState h vm c k d) = Ok () (mkState h (<[this := v]> vm) c k d).
Proof. reflexivity. Qed.

Lemma operator_new_eq h vm c k d n :
  operator_new n (mkState h vm c k d) =
  Ok (Ptr (length h) 0) (mkState (h ++ [Some (replicate n Raw)]) vm c k d).
Proof. reflexivity. Qed.

Lemma operator_delete_eq h vm c k d b blk :
  block_of h b = Some blk →
  operator_delete (Ptr b 0) (mkState h vm c k d) = Ok () (mkState (<[b := None]> h) vm c k d).
Proof. intros E. unfold operator_delete; cbn [heap]. by rewrite E. Qed.

End Steps.

(** One step of symbolic execution: expose the next call of a sequence. *)
Ltac go :=
  repeat first [rewrite bind_eq | rewrite ret_eq | rewrite unwinding_eq | rewrite store_eq].

(** ** The member functions on a well-formed vector *)

Section Members.
Context {T : Type} {elt : Element T}.
Implicit Types (h : list (option (list (slot T)))) (blk : list (slot T)) (vm : gmap nat Vector) (s : state T) (l : list T).

Lemma construct_eq h vm c k d b (i : nat) blk args :
  (∀ n, throws n = false) →
  block_of h b = Some blk → i < length blk →
  ∃ c', construct (Ptr b (Z.of_nat i)) args (mkState h vm c k d) =
  Ok () (mkState (<[b := Some (<[i := Obj (arg_value args)]> blk)]> h) vm c' (S k) d).
Proof.
  intros Hq Hb Hi. destruct args as [v|v]; unfold construct, tick_move.
  - exists (S c). rewrite bind_eq, tick_eq, Hq. by erewrite begin_lifetime_eq.
  - destruct is_nothrow_move_constructible_v.
    + exists c. rewrite bind_eq, ret_eq. by erewrite begin_lifetime_eq.
    + exists (S c). rewrite bind_eq, tick_eq, Hq. by erewrite begin_lifetime_eq.
Qed.

Lemma destroy_n_at vs h vm c k d b (i n : nat) pre post :
  i = length pre → n = length vs →
  block_of h b = Some (pre ++ (Obj <$> vs) ++ post) →
  destroy_n (Ptr b (Z.of_nat i)) n (mkState h vm c k d) =
  Ok () (mkState (<[b := Some (pre ++ replicate n Raw ++ post)]> h) vm c k (d + n)).
Proof. intros -> ->. apply destroy_n_eq. Qed.

Lemma migrate_eq (mv : bool) first count d_first :
  (if mv then uninitialized_move_n first count d_first
   else uninitialized_copy_n first count d_first) = transfer_n mv first count d_first.
Proof. destruct mv; [apply transfer_n_move|apply transfer_n_copy]. Qed.

(** Migration that is not interrupted. *)
Lemma transfer_n_quiet mv vs h vm c k d bs bd (i j n : nat) spre spost dpre dmid dpost :
  (∀ n, throws n = false) →
  i = length spre → j = length dpre → n = length vs →
  bs ≠ bd → length dmid = length vs →
  block_of h bs = Some (spre ++ (Obj <$> vs) ++ spost) →
  block_of h bd = Some (dpre ++ dmid ++ dpost) →
  transfer_n mv (Ptr bs (Z.of_nat i)) n (Ptr bd (Z.of_nat j)) (mkState h vm c k d) =
  Ok () (mkState
           (<[bs := Some (spre ++ (Obj <$> (residue mv <$> vs)) ++ spost)]>
              (<[bd := Some (dpre ++ (Obj <$> vs) ++ dpost)]> h))
           vm (if ticking mv then c + n else c) (k + n) d).
Proof.
  intros Hq -> -> -> Hne Hlen Hs Hd.
  rewrite (transfer_n_eq mv vs h vm c k d bs bd spre spost dpre dmid dpost) by done.
  rewrite first_throw_quiet by done. by destruct (ticking mv).
Qed.

(** For a representable count the byte count is exact: [Allocate] is what
    the source computes. *)
Lemma Allocate_size_t_representable n :
  representable n → Allocate_size_t n = Allocate n.
Proof.
  unfold representable, Allocate_size_t, Allocate, size_t_mul. intros Hn.
  rewrite Z.mod_small by lia. rewrite Z.div_mul by done. by rewrite Nat2Z.id.
Qed.

(** For any other count the block acquired is too small for [n]
    elements. *)
Lemma Allocate_size_t_wraps n :
  ¬ representable n → ∃ m, m < n ∧ Allocate_size_t n = operator_new m.
Proof.
  unfold representable, Allocate_size_t, size_t_mul. intros Hn.
  assert (HM : (0 < SIZE_MAX + 1)%Z) by done.
  pose proof (Z.mod_pos_bound (Z.of_nat n * Z.pos sizeof_T) (SIZE_MAX + 1) HM) as Hm.
  eexists. split; [|destruct n; [simpl in Hn; lia|reflexivity]].
  apply Nat2Z.inj_lt. rewrite Z2Nat.id by (apply Z.div_pos; lia).
  apply Z.div_lt_upper_bound; lia.
Qed.

Lemma RawMemory_ctor_eq h vm c k d n :
  n ≠ 0 →
  RawMemory_ctor n (mkState h vm c k d) =
  Ok (mkRawMemory (Ptr (length h) 0) n)
     (mkState (h ++ [Some (replicate n Raw)]) vm c k d).
Proof.
  intros Hn. unfold RawMemory_ctor, Allocate. rewrite bind_eq.
  destruct n; [done|]. reflexivity.
Qed.

Lemma RawMemory_plus_eq (r : RawMemory) (offset : nat) s :
  offset ≤ capacity_ r → RawMemory_plus r offset s = Ok (buffer_ r +ₚ offset) s.
Proof.
  intros Hle. unfold RawMemory_plus, assert. rewrite bind_eq.
  by rewrite (proj2 (Nat.leb_le _ _) Hle).
Qed.

Lemma RawMemory_index_eq (r : RawMemory) (index : nat) s :
  index < capacity_ r → RawMemory_index r index s = Ok (buffer_ r +ₚ index) s.
Proof.
  intros Hlt. unfold RawMemory_index, assert. rewrite bind_eq.
  by rewrite (proj2 (Nat.ltb_lt _ _) Hlt).
Qed.

Lemma grown_pos cap : grown cap ≠ 0.
Proof. unfold grown. destruct cap; simpl; lia. Qed.

Lemma grown_gt cap : cap < grown cap.
Proof. unfold grown. destruct cap; simpl; lia. Qed.

Lemma owns_nullptr h l cap :
  length l ≤ cap → owns h nullptr ((Obj <$> l) ++ replicate (cap - length l) Raw) →
  l = [] ∧ cap = 0.
Proof.
  intros Hle Hown. simpl in Hown. apply (f_equal length) in Hown.
  rewrite length_app, length_fmap, length_replicate in Hown. simpl in Hown.
  split; [destruct l; simpl in *; [done|lia]|lia].
Qed.

(** Reading the elements of a well-formed vector through [operator[]]. *)
Lemma rep_at_index s this buf l cap i x :
  rep_at s this buf l cap → l !! i = Some x →
  Vector_index this i s = Ok (buf +ₚ i) s ∧ deref (buf +ₚ i) s = Ok x s.
Proof.
  intros (Hv & Hle & Hown) Hi. destruct s as [h vm c k d]. cbn [vecs heap] in *.
  pose proof (lookup_lt_Some _ _ _ Hi) as Hlt.
  destruct buf as [|b o].
  { destruct (owns_nullptr _ _ _ Hle Hown) as [-> _]. done. }
  destruct Hown as (-> & _ & Hb).
  unfold Vector_index. go. erewrite load_eq by done. cbn [size_ data_].
  unfold assert. rewrite (proj2 (Nat.ltb_lt _ _) Hlt). go.
  rewrite RawMemory_index_eq by (cbn [capacity_]; lia). cbn [buffer_].
  split; [done|]. rewrite ptr_zero, ptr_nat_add. cbn [Nat.add].
  erewrite deref_eq; [done|done|].
  rewrite lookup_app_l by (by rewrite length_fmap).
  by rewrite list_lookup_fmap, Hi.
Qed.

Lemma rep_at_Vector_at s this buf l cap i x :
  rep_at s this buf l cap → l !! i = Some x → Vector_at this i s = Ok x s.
Proof.
  intros Hrep Hi. destruct (rep_at_index _ _ _ _ _ _ _ Hrep Hi) as [E1 E2].
  unfold Vector_at. by rewrite bind_eq, E1.
Qed.

Lemma rep_at_load s this buf l cap :
  rep_at s this buf l cap →
  ∃ v, load this s = Ok v s ∧ Size v = length l ∧ Capacity v = cap ∧ begin v = buf.
Proof.
  intros (Hv & _). destruct s as [h vm c k d]. cbn [vecs] in *.
  eexists. split; [by apply load_eq|]. done.
Qed.

Lemma PopBack_spec s this buf l x cap :
  rep_at s this buf (l ++ [x]) cap →
  ∃ s', PopBack this s = Ok () s' ∧ rep_at s' this buf l cap ∧
        length (heap s') = length (heap s).
Proof.
  intros (Hv & Hle & Hown). destruct s as [h vm c k d]. cbn [vecs heap] in *.
  rewrite length_app in *. cbn [length] in *.
  destruct buf as [|b o]; [by destruct l|]. destruct Hown as (-> & _ & Hb).
  unfold PopBack. go. erewrite load_eq by done. go.
  unfold end_, GetAddress; cbn [data_ size_ buffer_].
  rewrite ptr_zero, ptr_nat_add. cbn [Nat.add].
  replace (length l + 1) with (S (length l)) by lia. rewrite ptr_nat_pred.
  rewrite fmap_app, <- app_assoc in Hb. cbn [fmap list_fmap app] in Hb.
  erewrite destroy_at_eq; [|done|by apply list_lookup_middle; rewrite length_fmap].
  rewrite insert_middle_at by (by rewrite length_fmap). go.
  eexists; split; [done|]. unfold rep_at. cbn [vecs heap]. split; [|by rewrite length_insert].
  rewrite lookup_insert_eq. split; [do 3 f_equal; lia|]. split; [lia|].
  split; [done|]. split.
  - destruct l; simpl; [|done]. destruct cap; [lia|]. done.
  - rewrite block_of_insert_eq by eauto using block_of_lt.
    do 2 f_equal. replace (cap - length l) with (S (cap - (length l + 1))) by lia. done.
Qed.

(** Appending when there is room: the storage stays where it is. *)
Lemma EmplaceBack_room s this buf l cap args :
  (∀ n, throws n = false) →
  rep_at s this buf l cap → length l < cap →
  ∃ s', EmplaceBack this args s = Ok (buf +ₚ length l) s' ∧
        rep_at s' this buf (l ++ [arg_value args]) cap ∧
        length (heap s') = length (heap s).
Proof.
  intros Hq (Hv & Hle & Hown) Hlt. destruct s as [h vm c k d]. cbn [vecs heap] in *.
  unfold EmplaceBack. go. erewrite load_eq by done.
  unfold Capacity, begin, GetAddress. cbn [data_ size_ capacity_ buffer_].
  rewrite (proj2 (Nat.eqb_neq _ _)) by lia.
  destruct buf as [|b o].
  { destruct (owns_nullptr _ _ _ Hle Hown). lia. }
  destruct Hown as (-> & Hnil & Hb).
  go. rewrite RawMemory_plus_eq by (cbn [capacity_]; lia).
  cbn [buffer_]. rewrite !ptr_zero, !ptr_nat_add. cbn [Nat.add].
  edestruct (construct_eq h vm c k d b (length l)
               ((Obj <$> l) ++ replicate (cap - length l) Raw) args Hq)
    as [c' Hc']; [done| |].
  { rewrite length_app, length_fmap, length_replicate. lia. }
  go. rewrite Hc'. clear Hc'.
  go. erewrite load_eq by done. go.
  replace (cap - length l) with (S (cap - length l - 1)) by lia. cbn [replicate].
  rewrite insert_middle_at by (by rewrite length_fmap).
  eexists. split; [reflexivity|]. unfold rep_at. cbn [vecs heap data_ size_].
  split; [|by rewrite length_insert].
  rewrite lookup_insert_eq.
  split; [by rewrite length_app; simpl; do 3 f_equal; lia|].
  split; [rewrite length_app; simpl; lia|].
  split; [done|]. split; [by destruct l|].
  rewrite block_of_insert_eq by eauto using block_of_lt.
  rewrite fmap_app, <- app_assoc. cbn [app fmap list_fmap].
  do 4 f_equal. rewrite length_app; simpl; lia.
Qed.

(** Appending to a full vector: a block of the grown capacity is acquired,
    the elements migrate into it and the old block is released. *)
Lemma EmplaceBack_full s this buf l args :
  (∀ n, throws n = false) →
  rep_at s this buf l (length l) →
  ∃ s', EmplaceBack this args s = Ok (Ptr (length (heap s)) 0 +ₚ length l) s' ∧
        rep_at s' this (Ptr (length (heap s)) 0) (l ++ [arg_value args])
               (grown (length l)) ∧
        length (heap s') = S (length (heap s)).
Proof.
  intros Hq (Hv & Hle & Hown). destruct s as [h vm c k d]. cbn [vecs heap] in *.
  unfold EmplaceBack. go. erewrite load_eq by done.
  unfold Capacity, begin, GetAddress. cbn [data_ size_ capacity_ buffer_].
  rewrite Nat.eqb_refl. fold (grown (length l)).
  rewrite Nat.sub_diag in Hown. cbn [replicate] in Hown. rewrite app_nil_r in Hown.
  pose proof (grown_gt (length l)) as Hgt.
  go. rewrite RawMemory_ctor_eq by apply grown_pos.
  go. rewrite RawMemory_plus_eq by (cbn [capacity_]; lia).
  cbn [buffer_]. rewrite !ptr_zero, !ptr_nat_add. cbn [Nat.add].
  edestruct (construct_eq (h ++ [Some (replicate (grown (length l)) Raw)]) vm c k d
               (length h) (length l) (replicate (grown (length l)) Raw) args Hq)
    as [c' Hc'];
    [apply block_of_fresh|by rewrite length_replicate|].
  go. rewrite Hc'. clear Hc'.
  rewrite insert_replicate_lt by done.
  go. rewrite migrate_eq.
  assert (Hfresh : length h < length (h ++ [Some (replicate (grown (length l)) (@Raw T))]))
    by (rewrite length_app; simpl; lia).
  destruct buf as [|b o].
  - (* nothing to migrate *)
    simpl in Hown. destruct l; [|done]. cbn [length transfer_n destroy_n].
    go. unfold RawMemory_Swap. cbn [buffer_ capacity_].
    go. unfold RawMemory_dtor, Deallocate, operator_delete.
    cbn [buffer_]. go.
    erewrite load_eq by apply lookup_insert_eq.
    go.
    eexists. split; [reflexivity|]. unfold rep_at. cbn [vecs heap data_ size_].
    split; [|by rewrite length_insert, length_app; simpl; lia].
    rewrite insert_insert_eq, lookup_insert_eq. split; [done|].
    split; [cbn [length app] in *; lia|]. split; [done|]. split; [done|].
    rewrite block_of_insert_eq by done. done.
  - destruct Hown as (-> & Hnil & Hb).
    assert (Hlt : b < length h) by eauto using block_of_lt.
    rewrite ptr_zero.
    erewrite (transfer_n_quiet migrate_by_move l _ _ _ _ _ b (length h) 0 0 (length l)
                [] [] [] (replicate (length l) Raw)); try done.
    2:{ lia. }
    2:{ by rewrite length_replicate. }
    2:{ rewrite block_of_insert_ne by lia. rewrite block_of_app_l by done.
        by rewrite app_nil_r. }
    2:{ by rewrite block_of_insert_eq. }
    go.
    erewrite (destroy_n_at (residue migrate_by_move <$> l) _ _ _ _ _ b 0 (length l) [] []);
      [|done|by rewrite length_fmap|].
    2:{ rewrite block_of_insert_eq; [by rewrite app_nil_r|].
        by rewrite !length_insert, length_app; simpl; lia. }
    go. unfold RawMemory_Swap. cbn [buffer_ capacity_].
    go. unfold RawMemory_dtor, Deallocate.
    cbn [buffer_].
    erewrite operator_delete_eq.
    2:{ apply block_of_insert_eq. by rewrite !length_insert, length_app; simpl; lia. }
    go.
    erewrite load_eq by apply lookup_insert_eq.
    go.
    eexists. split; [reflexivity|]. unfold rep_at. cbn [vecs heap data_ size_].
    split; [|by rewrite !length_insert, length_app; simpl; lia].
    rewrite insert_insert_eq, lookup_insert_eq.
    split; [by rewrite length_app; simpl; do 3 f_equal; lia|].
    split; [rewrite length_app; simpl; lia|].
    split; [done|]. split; [by destruct l|].
    rewrite !list_insert_insert_eq.
    rewrite block_of_insert_ne by lia.
    rewrite block_of_insert_eq by done.
    rewrite fmap_app, <- app_assoc. cbn [app fmap list_fmap].
    do 4 f_equal. rewrite length_app; simpl; lia.
Qed.
Lemma block_of_ge h b : length h ≤ b → block_of h b = None.
Proof. intros Hb. unfold block_of. by rewrite lookup_ge_None_2. Qed.

(** A block acquired and released again leaves the store as it was. *)
Lemma heap_released h x b :
  block_of (<[length h := None]> (h ++ [x])) b = block_of h b.
Proof.
  destruct (decide (b = length h)) as [->|Hne].
  - rewrite block_of_insert_eq by (rewrite length_app; simpl; lia).
    by rewrite block_of_ge.
  - rewrite block_of_insert_ne by done.
    destruct (decide (b < length h)).
    + by rewrite block_of_app_l.
    + rewrite !block_of_ge; [done|lia|rewrite length_app; simpl; lia].
Qed.

(** [explicit Vector(size_t)] under any pattern of throws. *)
Lemma Vector_sized_eq h vm c k d n :
  n ≠ 0 →
  Vector_sized n (mkState h vm c k d) =
  match first_throw c n with
  | None =>
      Ok (mkVector (mkRawMemory (Ptr (length h) 0) n) n)
         (mkState (h ++ [Some (replicate n (Obj value_init))]) vm (c + n) (k + n) d)
  | Some j =>
      Throw (mkState (<[length h := None]> (h ++ [Some (replicate n Raw)]))
                     vm (c + S j) (k + j) (d + j))
  end.
Proof.
  intros Hn. unfold Vector_sized. go. rewrite RawMemory_ctor_eq by done.
  unfold GetAddress. cbn [buffer_]. go. rewrite ptr_zero.
  rewrite (uninitialized_value_construct_n_eq n _ _ _ _ _ (length h) [] (replicate n Raw) []).
  2:{ by rewrite length_replicate. }
  2:{ rewrite block_of_fresh. by rewrite app_nil_r. }
  assert (Hlt : length h < length (h ++ [Some (replicate n (@Raw T))]))
    by (rewrite length_app; simpl; lia).
  destruct (first_throw c n) as [j|].
  - unfold RawMemory_dtor, Deallocate. cbn [buffer_].
    erewrite operator_delete_eq by (by apply block_of_insert_eq).
    by rewrite list_insert_insert_eq.
  - go. cbn [app]. rewrite app_nil_r.
    do 3 f_equal. by rewrite <- (Nat.add_0_r (length h)), insert_app_r.
Qed.

Lemma residue_copy (vs : list T) : residue false <$> vs = vs.
Proof. unfold residue. apply list_fmap_id. Qed.

Lemma no_throw_if_nothrow_move n c :
  is_nothrow_move_constructible_v = true →
  (if ticking migrate_by_move then first_throw c n else None) = None.
Proof. intros E. unfold ticking, migrate_by_move. by rewrite E. Qed.

(** [Reserve] beyond the capacity, under any pattern of throws. *)
Lemma Reserve_grow s this buf l cap n :
  rep_at s this buf l cap → cap < n →
  match (if ticking migrate_by_move then first_throw (calls s) (length l) else None) with
  | None =>
      ∃ s', Reserve this n s = Ok () s' ∧
            rep_at s' this (Ptr (length (heap s)) 0) l n ∧
            constructed s' + destroyed s = constructed s + destroyed s'
  | Some j =>
      ∃ s', Reserve this n s = Throw s' ∧
            (migrate_by_move = false → rolled_back s s')
  end.
Proof.
  intros (Hv & Hle & Hown) Hn. destruct s as [h vm c k d]. cbn [vecs heap calls] in *.
  unfold Reserve. go. erewrite load_eq by done.
  unfold Capacity, begin, GetAddress. cbn [data_ size_ capacity_ buffer_].
  rewrite (proj2 (Nat.leb_gt _ _)) by done.
  go. rewrite RawMemory_ctor_eq by lia. cbn [buffer_].
  go. rewrite migrate_eq.
  assert (Hfresh : length h < length (h ++ [Some (replicate n (@Raw T))]))
    by (rewrite length_app; simpl; lia).
  destruct buf as [|b o].
  - destruct (owns_nullptr _ _ _ Hle Hown) as [-> ->].
    cbn [length transfer_n destroy_n first_throw].
    replace (if ticking migrate_by_move then None else None) with (@None nat)
      by by destruct (ticking _).
    go. unfold RawMemory_Swap. cbn [buffer_ capacity_].
    go. unfold RawMemory_dtor, Deallocate, operator_delete. cbn [buffer_].
    eexists. split; [reflexivity|]. unfold rep_at. cbn [vecs heap constructed destroyed].
    split; [|lia]. rewrite lookup_insert_eq. split; [done|]. split; [simpl; lia|].
    split; [done|]. split; [destruct n; [lia|done]|].
    rewrite block_of_fresh. simpl. by rewrite Nat.sub_0_r.
  - destruct Hown as (-> & Hnil & Hb).
    assert (Hlt : b < length h) by eauto using block_of_lt.
    rewrite !ptr_zero.
    change (Z.of_nat 0) with (Z.of_nat (@length (slot T) [])).
    rewrite (transfer_n_eq migrate_by_move l _ vm c k d b (length h)
               [] (replicate (cap - length l) Raw) [] (replicate (length l) Raw)
               (replicate (n - length l) Raw)); try done.
    2:{ lia. }
    2:{ by rewrite length_replicate. }
    2:{ by rewrite block_of_app_l. }
    2:{ rewrite block_of_fresh. cbn [app]. rewrite <- replicate_add.
        do 2 f_equal. lia. }
    cbn [app].
    destruct (if ticking migrate_by_move then first_throw c (length l) else None) as [j|].
    + unfold RawMemory_dtor, Deallocate. cbn [buffer_]. cbn [length].
      erewrite operator_delete_eq.
      2:{ rewrite block_of_insert_ne by lia. by apply block_of_insert_eq. }
      eexists. split; [reflexivity|]. intros Hmv. rewrite Hmv.
      unfold rolled_back. cbn [vecs heap constructed destroyed].
      split; [done|]. split; [|lia].
      intros b'. rewrite residue_copy, app_assoc, <- fmap_app, take_drop.
      rewrite (list_insert_insert_ne _ (length h) b) by lia.
      rewrite list_insert_insert_eq.
      destruct (decide (b' = b)) as [->|Hne].
      * rewrite block_of_insert_eq; [done|].
        by rewrite length_insert, length_app; simpl; lia.
      * rewrite block_of_insert_ne by done. apply heap_released.
    + go. cbn [length].
      erewrite (destroy_n_at (residue migrate_by_move <$> l) _ _ _ _ _ b 0 (length l)
                  [] (replicate (cap - length l) Raw));
        [|done|by rewrite length_fmap|].
      2:{ rewrite block_of_insert_eq; [done|].
          by rewrite !length_insert, length_app; simpl; lia. }
      go. unfold RawMemory_Swap. cbn [buffer_ capacity_].
      go. unfold RawMemory_dtor, Deallocate. cbn [buffer_].
      erewrite operator_delete_eq.
      2:{ apply block_of_insert_eq. by rewrite !length_insert, length_app; simpl; lia. }
      eexists. split; [reflexivity|]. unfold rep_at.
      cbn [vecs heap constructed destroyed].
      split; [|lia].
      rewrite lookup_insert_eq. split; [done|]. split; [lia|].
      split; [done|]. split; [destruct n; [lia|]; by destruct l|].
      rewrite !list_insert_insert_eq.
      rewrite block_of_insert_ne by lia.
      by rewrite block_of_insert_eq.
Qed.

(** [Reserve] within the capacity does nothing at all. *)
Lemma Reserve_noop s this v n :
  vecs s !! this = Some v → n ≤ Capacity v → Reserve this n s = Ok () s.
Proof.
  intros Hv Hn. destruct s as [h vm c k d]. cbn [vecs] in *.
  unfold Reserve. go. erewrite load_eq by done.
  by rewrite (proj2 (Nat.leb_le _ _) Hn).
Qed.
Lemma ptr_leb_nat b (i j : nat) :
  ptr_leb (Ptr b (Z.of_nat i)) (Ptr b (Z.of_nat j)) = bool_decide (i ≤ j).
Proof.
  unfold ptr_leb. rewrite bool_decide_true by done. cbn [andb].
  apply bool_decide_ext. lia.
Qed.

Lemma ptr_ltb_nat b (i j : nat) :
  ptr_ltb (Ptr b (Z.of_nat i)) (Ptr b (Z.of_nat j)) = bool_decide (i < j).
Proof.
  unfold ptr_ltb. rewrite bool_decide_true by done. cbn [andb].
  apply bool_decide_ext. lia.
Qed.

Lemma ptr_diff_nat b (i j : nat) :
  Z.to_nat (ptr_diff (Ptr b (Z.of_nat i)) (Ptr b (Z.of_nat j))) = i - j.
Proof. unfold ptr_diff. lia. Qed.

Lemma range_length_nat b (i j : nat) :
  i ≤ j → range_length (Ptr b (Z.of_nat i)) (Ptr b (Z.of_nat j)) = Some (j - i).
Proof.
  intros Hle. unfold range_length.
  by rewrite ptr_leb_nat, bool_decide_true, ptr_diff_nat.
Qed.

Lemma tick_move_quiet h vm c k d :
  (∀ n, throws n = false) →
  ∃ c', tick_move (mkState h vm c k d) = Ok () (mkState h vm c' k d).
Proof.
  intros Hq. unfold tick_move. destruct is_nothrow_move_constructible_v.
  - by exists c.
  - exists (S c). by rewrite tick_eq, Hq.
Qed.

(** Move assignment between two live objects of one block. *)
Lemma T_move_assign_same h vm c k d b (i j : nat) blk v w :
  (∀ n, throws n = false) →
  block_of h b = Some blk →
  blk !! i = Some (Obj v) → blk !! j = Some (Obj w) → i ≠ j →
  ∃ c', T_move_assign (Ptr b (Z.of_nat j)) (Ptr b (Z.of_nat i)) (mkState h vm c k d) =
        Ok () (mkState (<[b := Some (<[i := Obj (moved_from v)]> (<[j := Obj v]> blk))]> h)
                       vm c' k d).
Proof.
  intros Hq Hb Hi Hj Hne. unfold T_move_assign.
  destruct (tick_move_quiet h vm c k d Hq) as [c' Hc']. exists c'.
  go. erewrite deref_eq by done. go. rewrite Hc'.
  go. erewrite overwrite_eq by done.
  go. erewrite overwrite_eq;
    [|by apply block_of_insert_eq; eauto using block_of_lt
     |by rewrite list_lookup_insert_ne].
  by rewrite list_insert_insert_eq.
Qed.

(** The loop of [std::move] shifting a run of elements one slot down. *)
Lemma move_loop_shift vs : ∀ h vm c k d b pre y post,
  (∀ n, throws n = false) →
  block_of h b = Some (pre ++ Obj y :: (Obj <$> vs) ++ post) →
  ∃ c' y',
    move_loop (Ptr b (Z.of_nat (S (length pre)))) (length vs)
              (Ptr b (Z.of_nat (length pre))) (mkState h vm c k d) =
    Ok () (mkState (<[b := Some (pre ++ (Obj <$> vs) ++ Obj y' :: post)]> h) vm c' k d).
Proof.
  induction vs as [|v vs IH]; intros h vm c k d b pre y post Hq Hb.
  - exists c, y. cbn [length move_loop]. go. cbn [fmap list_fmap app].
    by rewrite heap_insert_id.
  - rewrite fmap_cons, <- app_comm_cons in Hb. cbn [length move_loop].
    edestruct (T_move_assign_same h vm c k d b (S (length pre)) (length pre) _ v y Hq Hb)
      as [c1 Hc1].
    { apply lookup_middle_succ. }
    { by apply list_lookup_middle. }
    { lia. }
    go. rewrite Hc1. clear Hc1. rewrite insert_middle, insert_middle_succ.
    rewrite !ptr_nat_succ.
    replace (S (length pre)) with (length (pre ++ [Obj v]))
      by (rewrite length_app; simpl; lia).
    edestruct (IH (<[b := Some (pre ++ Obj v :: Obj (moved_from v) :: (Obj <$> vs) ++ post)]> h)
                 vm c1 k d b (pre ++ [Obj v]) (moved_from v) post Hq) as (c' & y' & E).
    { rewrite <- app_assoc. by apply block_of_insert_eq; eauto using block_of_lt. }
    exists c', y'. rewrite E. rewrite list_insert_insert_eq.
    by rewrite <- !app_assoc.
Qed.

Lemma move_loop_shift_at vs h vm c k d b (i n : nat) pre y post :
  (∀ n, throws n = false) →
  i = length pre → n = length vs →
  block_of h b = Some (pre ++ Obj y :: (Obj <$> vs) ++ post) →
  ∃ c' y',
    move_loop (Ptr b (Z.of_nat (S i))) n (Ptr b (Z.of_nat i)) (mkState h vm c k d) =
    Ok () (mkState (<[b := Some (pre ++ (Obj <$> vs) ++ Obj y' :: post)]> h) vm c' k d).
Proof. intros Hq -> ->. by apply move_loop_shift. Qed.

Lemma Erase_spec s this buf l1 x l2 cap :
  (∀ n, throws n = false) →
  rep_at s this buf (l1 ++ x :: l2) cap →
  ∃ s', Erase this (buf +ₚ length l1) s = Ok (buf +ₚ length l1) s' ∧
        rep_at s' this buf (l1 ++ l2) cap.
Proof.
  intros Hq Hrep. pose proof Hrep as (Hv & Hle & Hown).
  destruct s as [h vm c k d]. cbn [vecs heap] in *.
  rewrite length_app in Hv, Hle, Hown. cbn [length] in Hv, Hle, Hown.
  destruct buf as [|b o]; [by destruct l1|]. destruct Hown as (-> & Hnil & Hb).
  unfold Erase. go. erewrite load_eq by done.
  unfold begin, end_, GetAddress. cbn [data_ size_ buffer_].
  rewrite !ptr_zero, !ptr_nat_add. cbn [Nat.add].
  rewrite ptr_leb_nat, ptr_ltb_nat, ptr_diff_nat, Nat.sub_0_r.
  rewrite !bool_decide_true by lia. cbn [andb assert]. go.
  unfold move_range. rewrite range_length_nat by lia.
  replace (length l1 + S (length l2) - (length l1 + 1)) with (length l2) by lia.
  rewrite fmap_app, fmap_cons, <- app_assoc, <- app_comm_cons in Hb.
  replace (length l1 + 1) with (S (length l1)) by lia.
  edestruct (move_loop_shift_at l2 h vm c k d b (length l1) (length l2) (Obj <$> l1) x
               (replicate (cap - (length l1 + S (length l2))) Raw) Hq) as (c' & y' & E);
    [by rewrite length_fmap|done|done|].
  rewrite E. clear E.
  edestruct (PopBack_spec
               (mkState (<[b := Some ((Obj <$> l1) ++ (Obj <$> l2) ++
                     Obj y' :: replicate (cap - (length l1 + S (length l2))) Raw)]> h)
                  vm c' k d) this (Ptr b 0) (l1 ++ l2) y' cap) as (s' & E & Hrep' & _).
  { unfold rep_at. cbn [vecs heap]. rewrite !length_app. cbn [length].
    split; [rewrite Hv; do 2 f_equal; lia|]. split; [lia|].
    split; [done|]. split; [by destruct (l1 ++ l2)|].
    rewrite block_of_insert_eq by eauto using block_of_lt.
    rewrite !fmap_app, <- !app_assoc. cbn [fmap list_fmap app].
    do 5 f_equal. lia. }
  go. rewrite E. clear E. exists s'. split; [|done].
  destruct Hrep' as (Hv' & _). destruct s' as [h' vm' c'' k' d']. cbn [vecs] in Hv'.
  go. erewrite load_eq by done. go. cbn [data_ buffer_].
  by rewrite ptr_zero, ptr_nat_add.
Qed.
Lemma ptr_null_add k : ptr_add nullptr k = nullptr.
Proof. reflexivity. Qed.

Lemma insert_middle_succ_at {A} (pre post : list A) x y z n :
  n = S (length pre) → <[n := z]> (pre ++ x :: y :: post) = pre ++ x :: z :: post.
Proof. intros ->. apply insert_middle_succ. Qed.

(** Move assignment between live objects of two blocks. *)
Lemma T_move_assign_across h vm c k d bs bd (i j : nat) sblk dblk v w :
  quiet → bs ≠ bd →
  block_of h bs = Some sblk → block_of h bd = Some dblk →
  sblk !! i = Some (Obj v) → dblk !! j = Some (Obj w) →
  ∃ c', T_move_assign (Ptr bd (Z.of_nat j)) (Ptr bs (Z.of_nat i)) (mkState h vm c k d) =
        Ok () (mkState (<[bs := Some (<[i := Obj (moved_from v)]> sblk)]>
                          (<[bd := Some (<[j := Obj v]> dblk)]> h)) vm c' k d).
Proof.
  intros Hq Hne Hs Hd Hi Hj. unfold T_move_assign.
  destruct (tick_move_quiet h vm c k d Hq) as [c' Hc']. exists c'.
  go. erewrite deref_eq by done. go. rewrite Hc'.
  go. erewrite overwrite_eq by done.
  go. erewrite overwrite_eq; [done|by rewrite block_of_insert_ne|done].
Qed.

(** Move construction from a live object into another slot of its block. *)
Lemma move_construct_same h vm c k d b (i j : nat) blk v :
  quiet → block_of h b = Some blk →
  blk !! i = Some (Obj v) → j < length blk → i ≠ j →
  ∃ c', move_construct (Ptr b (Z.of_nat j)) (Ptr b (Z.of_nat i)) (mkState h vm c k d) =
        Ok () (mkState (<[b := Some (<[i := Obj (moved_from v)]> (<[j := Obj v]> blk))]> h)
                       vm c' (S k) d).
Proof.
  intros Hq Hb Hi Hj Hne. unfold move_construct, construct.
  destruct (tick_move_quiet h vm c k d Hq) as [c' Hc']. exists c'.
  go. erewrite deref_eq by done. go. rewrite Hc'.
  go. erewrite begin_lifetime_eq by done.
  go. erewrite overwrite_eq;
    [|by apply block_of_insert_eq; eauto using block_of_lt
     |by rewrite list_lookup_insert_ne].
  by rewrite list_insert_insert_eq.
Qed.

(** The loop of [std::move_backward] shifting a run of elements one slot
    up, onto the live object that follows it. *)
Lemma move_backward_loop_shift vs : ∀ h vm c k d b pre y post (i : nat),
  quiet → i = length pre + length vs →
  block_of h b = Some (pre ++ (Obj <$> vs) ++ Obj y :: post) →
  ∃ c' y',
    move_backward_loop (Ptr b (Z.of_nat i)) (length vs)
                       (Ptr b (Z.of_nat (S i))) (mkState h vm c k d) =
    Ok () (mkState (<[b := Some (pre ++ Obj y' :: (Obj <$> vs) ++ post)]> h) vm c' k d).
Proof.
  induction vs as [|v vs IH] using rev_ind; intros h vm c k d b pre y post i Hq Hi Hb.
  - exists c, y. cbn [length move_backward_loop]. go. cbn [fmap list_fmap app] in *.
    by rewrite heap_insert_id.
  - subst i. rewrite length_app. cbn [length].
    rewrite fmap_app, <- app_assoc in Hb. cbn [fmap list_fmap app] in Hb.
    rewrite app_assoc in Hb.
    replace (length pre + (length vs + 1)) with (S (length (pre ++ (Obj <$> vs))))
      by (rewrite length_app, length_fmap; lia).
    replace (length vs + 1) with (S (length vs)) by lia. cbn [move_backward_loop].
    rewrite !ptr_nat_pred.
    edestruct (T_move_assign_same h vm c k d b (length (pre ++ (Obj <$> vs)))
                 (S (length (pre ++ (Obj <$> vs)))) _ v y Hq Hb) as [c1 Hc1].
    { by apply list_lookup_middle. }
    { apply lookup_middle_succ. }
    { lia. }
    go. rewrite Hc1. clear Hc1.
    rewrite insert_middle_succ, insert_middle.
    edestruct (IH (<[b := Some ((pre ++ (Obj <$> vs)) ++ Obj (moved_from v) :: Obj v :: post)]> h)
                 vm c1 k d b pre (moved_from v) (Obj v :: post)
                 (length (pre ++ (Obj <$> vs))) Hq) as (c' & y' & E).
    { rewrite length_app, length_fmap. lia. }
    { rewrite <- app_assoc. by apply block_of_insert_eq; eauto using block_of_lt. }
    exists c', y'. rewrite E. rewrite list_insert_insert_eq.
    rewrite fmap_app, <- !app_assoc. done.
Qed.

(** Inserting before the end when there is room: the tail is shifted up
    in place. *)
Lemma Emplace_room s this buf l1 l2 z cap args :
  quiet → rep_at s this buf (l1 ++ l2 ++ [z]) cap →
  length (l1 ++ l2 ++ [z]) < cap →
  ∃ s', Emplace this (buf +ₚ length l1) args s = Ok (buf +ₚ length l1) s' ∧
        rep_at s' this buf (l1 ++ arg_value args :: l2 ++ [z]) cap.
Proof.
  intros Hq (Hv & Hle & Hown) Hlt. destruct s as [h vm c k d]. cbn [vecs heap] in *.
  destruct buf as [|b o].
  { destruct (owns_nullptr _ _ _ Hle Hown) as [Hnil' _]. by destruct l1, l2. }
  rewrite !length_app in Hv, Hle, Hown, Hlt. cbn [length] in Hv, Hle, Hown, Hlt.
  set (n := length l1 + (length l2 + 1)) in *.
  destruct Hown as (-> & Hnil & Hb).
  assert (Hbl : b < length h) by eauto using block_of_lt.
  unfold Emplace. go. erewrite load_eq by done.
  unfold begin, end_, Capacity, GetAddress. cbn [data_ size_ buffer_ capacity_].
  rewrite !ptr_zero, !ptr_nat_add. cbn [Nat.add].
  rewrite !ptr_leb_nat, ptr_diff_nat, Nat.sub_0_r.
  rewrite !bool_decide_true by lia. cbn [andb assert]. go.
  rewrite (proj2 (Nat.ltb_lt _ _)) by done.
  go. rewrite operator_new_eq. go. rewrite (ptr_zero (length h)).
  edestruct (construct_eq (h ++ [Some (replicate 1 Raw)]) vm c k d (length h) 0
               (replicate 1 Raw) args Hq) as [c1 Hc1];
    [apply block_of_fresh|simpl; lia|].
  rewrite Hc1. clear Hc1. cbn [replicate]. cbn [insert list_insert].
  (* the block of the vector, with its last element and the first raw slot apart *)
  set (rest := replicate (cap - n - 1) (@Raw T)).
  assert (Hblk : (Obj <$> l1 ++ l2 ++ [z]) ++ replicate (cap - n) Raw
                 = ((Obj <$> l1) ++ (Obj <$> l2)) ++ Obj z :: Raw :: rest).
  { rewrite !fmap_app, <- !app_assoc. cbn [fmap list_fmap app]. do 3 f_equal.
    replace (cap - n) with (S (cap - n - 1)) by lia. done. }
  rewrite Hblk in Hb.
  assert (Hlen : length ((Obj <$> l1) ++ (Obj <$> l2)) = n - 1)
    by (rewrite length_app, !length_fmap; lia).
  assert (Hb1 : block_of (<[length h := Some [Obj (arg_value args)]]>
                            (h ++ [Some [Raw]])) b
                = Some (((Obj <$> l1) ++ (Obj <$> l2)) ++ Obj z :: Raw :: rest)).
  { rewrite block_of_insert_ne by lia. by rewrite block_of_app_l. }
  replace (Ptr b (Z.of_nat n) -ₚ 1) with (Ptr b (Z.of_nat (n - 1)))
    by (unfold ptr_add; f_equal; lia).
  edestruct (move_construct_same _ vm c1 (S k) d b (n - 1) n _ z Hq Hb1) as [c2 Hc2].
  { apply list_lookup_middle. lia. }
  { rewrite length_app. simpl. lia. }
  { lia. }
  go. rewrite Hc2. clear Hc2.
  rewrite insert_middle_succ_at by lia. rewrite insert_middle_at by lia.
  set (h1 := <[length h := Some [Obj (arg_value args)]]> (h ++ [Some [Raw]])).
  assert (Hh1 : b < length h1)
    by (unfold h1; rewrite length_insert, length_app; simpl; lia).
  assert (Hh1' : length h < length h1)
    by (unfold h1; rewrite length_insert, length_app; simpl; lia).
  assert (Htmp : block_of h1 (length h) = Some [Obj (arg_value args)]).
  { unfold h1. apply block_of_insert_eq. rewrite length_app. simpl. lia. }
  go. unfold move_backward. rewrite range_length_nat by lia.
  replace (n - 1 - length l1) with (length l2) by lia.
  replace (Ptr b (Z.of_nat n)) with (Ptr b (Z.of_nat (S (n - 1)))) by (f_equal; lia).
  edestruct (move_backward_loop_shift l2
               (<[b := Some (((Obj <$> l1) ++ (Obj <$> l2)) ++
                             Obj (moved_from z) :: Obj z :: rest)]> h1)
               vm c2 (S (S k)) d b (Obj <$> l1) (moved_from z) (Obj z :: rest) (n - 1) Hq)
    as (c3 & y' & Hc3).
  { rewrite length_fmap. lia. }
  { rewrite block_of_insert_eq by done. by rewrite <- app_assoc. }
  rewrite Hc3. clear Hc3. rewrite list_insert_insert_eq.
  go. rewrite RawMemory_index_eq by (cbn [capacity_]; lia). cbn [buffer_].
  rewrite ptr_nat_add. cbn [Nat.add].
  edestruct (T_move_assign_across
               (<[b := Some ((Obj <$> l1) ++ Obj y' :: (Obj <$> l2) ++ Obj z :: rest)]> h1)
               vm c3 (S (S k)) d (length h) b 0 (length l1)
               [Obj (arg_value args)]
               ((Obj <$> l1) ++ Obj y' :: (Obj <$> l2) ++ Obj z :: rest)
               (arg_value args) y' Hq) as [c4 Hc4].
  { lia. }
  { by rewrite block_of_insert_ne by lia. }
  { by apply block_of_insert_eq. }
  { done. }
  { apply list_lookup_middle. by rewrite length_fmap. }
  go. rewrite Hc4. clear Hc4.
  rewrite insert_middle_at by (by rewrite length_fmap). cbn [insert list_insert].
  rewrite list_insert_insert_eq.
  go. erewrite destroy_at_eq.
  2:{ apply block_of_insert_eq. by rewrite length_insert. }
  2:{ done. }
  cbn [insert list_insert]. rewrite list_insert_insert_eq.
  go. rewrite <- (ptr_zero (length h)).
  erewrite operator_delete_eq.
  2:{ apply block_of_insert_eq. by rewrite length_insert. }
  rewrite list_insert_insert_eq.
  go. erewrite load_eq by done. go.
  erewrite load_eq by apply lookup_insert_eq. go. cbn [data_ buffer_].
  rewrite !ptr_zero, !ptr_nat_add. cbn [Nat.add size_].
  eexists. split; [reflexivity|]. unfold rep_at. cbn [vecs heap].
  rewrite lookup_insert_eq.
  split; [rewrite !length_app; cbn [length]; rewrite length_app; cbn [length];
          do 2 f_equal; lia|].
  split; [rewrite !length_app; cbn [length]; rewrite length_app; cbn [length]; lia|].
  split; [done|]. split; [by destruct l1|].
  rewrite block_of_insert_ne by lia.
  rewrite block_of_insert_eq by done.
  rewrite !fmap_app, fmap_cons, !fmap_app, <- !app_assoc. cbn [fmap list_fmap app].
  rewrite <- !app_assoc. cbn [app].
  replace (cap - length (l1 ++ arg_value args :: l2 ++ [z])) with (cap - n - 1); [done|].
  rewrite !length_app. cbn [length]. rewrite length_app. cbn [length]. lia.
Qed.

(** Inserting into a full vector: the new element is constructed at its
    place in a block of the grown capacity and the elements migrate around
    it. *)
Lemma Emplace_full s this buf l1 l2 args :
  quiet → rep_at s this buf (l1 ++ l2) (length (l1 ++ l2)) →
  ∃ s', Emplace this (buf +ₚ length l1) args s
          = Ok (Ptr (length (heap s)) 0 +ₚ length l1) s' ∧
        rep_at s' this (Ptr (length (heap s)) 0) (l1 ++ arg_value args :: l2)
               (grown (length (l1 ++ l2))).
Proof.
  intros Hq (Hv & Hle & Hown). destruct s as [h vm c k d]. cbn [vecs heap] in *.
  rewrite Nat.sub_diag in Hown. cbn [replicate] in Hown. rewrite app_nil_r in Hown.
  set (n := length (l1 ++ l2)) in *.
  assert (Hn : n = length l1 + length l2) by (unfold n; by rewrite length_app).
  pose proof (grown_gt n) as Hgt.
  assert (Hfresh : length h < length (h ++ [Some (replicate (grown n) (@Raw T))]))
    by (rewrite length_app; simpl; lia).
  unfold Emplace. go. erewrite load_eq by done.
  unfold begin, end_, Capacity, GetAddress. cbn [data_ size_ buffer_ capacity_].
  rewrite Nat.ltb_irrefl, Nat.eqb_refl. fold (grown n).
  destruct buf as [|b o].
  - (* no storage yet *)
    simpl in Hown. destruct l1, l2; try done. subst n. cbn [length app] in *.
    rewrite !ptr_null_add. cbn [ptr_leb ptr_diff andb assert]. go.
    rewrite RawMemory_ctor_eq by apply grown_pos.
    go. rewrite RawMemory_plus_eq by (cbn [capacity_]; lia). cbn [buffer_].
    change (Z.to_nat 0) with 0.
    rewrite !ptr_zero, !ptr_nat_add. cbn [Nat.add].
    edestruct (construct_eq (h ++ [Some (replicate (grown 0) Raw)]) vm c k d
                 (length h) 0 (replicate (grown 0) Raw) args Hq) as [c1 Hc1];
      [apply block_of_fresh|by rewrite length_replicate|].
    go. rewrite Hc1. clear Hc1. rewrite insert_replicate_lt by done.
    cbn [replicate app Nat.sub].
    assert (Hmig : ∀ p q r st,
      (if migrate_by_move
       then uninitialized_move_n nullptr 0 p;; uninitialized_move_n nullptr 0 q
       else try_catch_rethrow
              (uninitialized_copy_n nullptr 0 p;; uninitialized_copy_n nullptr 0 q)
              (destroy_n r 1)) st = Ok () st).
    { intros p q r st. by destruct migrate_by_move. }
    go. rewrite Hmig. clear Hmig. cbn [destroy_n]. go.
    unfold RawMemory_Swap. cbn [buffer_ capacity_]. go.
    unfold RawMemory_dtor, Deallocate, operator_delete. cbn [buffer_]. go.
    erewrite load_eq by apply lookup_insert_eq. go.
    erewrite load_eq by apply lookup_insert_eq. go. cbn [data_ buffer_ size_].
    rewrite ?ptr_nat_add. cbn [Nat.add].
    eexists. split; [reflexivity|]. unfold rep_at. cbn [vecs heap].
    rewrite insert_insert_eq, lookup_insert_eq.
    split; [done|]. split; [cbn [length app] in *; lia|].
    split; [done|]. split; [done|].
    rewrite block_of_insert_eq by done. done.
  - destruct Hown as (-> & Hnil & Hb).
    assert (Hbl : b < length h) by eauto using block_of_lt.
    rewrite !ptr_zero, !ptr_nat_add. cbn [Nat.add].
    rewrite !ptr_leb_nat, ptr_diff_nat, Nat.sub_0_r.
    rewrite !bool_decide_true by lia. cbn [andb assert]. go.
    rewrite RawMemory_ctor_eq by apply grown_pos.
    go. rewrite RawMemory_plus_eq by (cbn [capacity_]; lia). cbn [buffer_].
    rewrite !(ptr_zero (length h)), !ptr_nat_add. cbn [Nat.add].
    edestruct (construct_eq (h ++ [Some (replicate (grown n) Raw)]) vm c k d
                 (length h) (length l1) (replicate (grown n) Raw) args Hq) as [c1 Hc1];
      [apply block_of_fresh|rewrite length_replicate; lia|].
    go. rewrite Hc1. clear Hc1. rewrite insert_replicate_lt by lia.
    set (h1 := h ++ [Some (replicate (grown n) (@Raw T))]).
    set (mv := migrate_by_move).
    (* both branches migrate the prefix, then the suffix *)
    assert (Hmig : ∀ c k d (hh : list (option (list (slot T)))),
      block_of hh b = Some ((Obj <$> l1) ++ (Obj <$> l2)) →
      block_of hh (length h) =
        Some (replicate (length l1) Raw ++
              Obj (arg_value args) :: replicate (grown n - S (length l1)) Raw) →
      ∃ c',
      (transfer_n mv (Ptr b (Z.of_nat 0)) (length l1) (Ptr (length h) (Z.of_nat 0));;
       transfer_n mv (Ptr b (Z.of_nat (length l1))) (n - length l1)
                  (Ptr (length h) (Z.of_nat (length l1 + 1)))) (mkState hh vm c k d) =
      Ok () (mkState
               (<[b := Some (Obj <$> (residue mv <$> l1 ++ l2))]>
                  (<[length h := Some ((Obj <$> l1 ++ arg_value args :: l2) ++
                                       replicate (grown n - S n) Raw)]> hh))
               vm c' (k + n) d)).
    { intros c0 k0 d0 hh Hsrc Hdst.
      assert (Hsl : b < length hh) by eauto using block_of_lt.
      assert (Hdl : length h < length hh) by eauto using block_of_lt.
      go.
      erewrite (transfer_n_quiet mv l1 hh vm c0 k0 d0 b (length h) 0 0 (length l1)
                  [] (Obj <$> l2) [] (replicate (length l1) Raw)
                  (Obj (arg_value args) :: replicate (grown n - S (length l1)) Raw));
        try done; [|lia|by rewrite length_replicate].
      cbn [app].
      erewrite (transfer_n_quiet mv l2 _ vm _ _ d0 b (length h)
                  (length l1) (length l1 + 1) (n - length l1)
                  (Obj <$> (residue mv <$> l1)) []
                  ((Obj <$> l1) ++ [Obj (arg_value args)])
                  (replicate (length l2) Raw) (replicate (grown n - S n) Raw));
        try done.
      2:{ by rewrite !length_fmap. }
      2:{ rewrite length_app, length_fmap. simpl. lia. }
      2:{ lia. }
      2:{ lia. }
      2:{ by rewrite length_replicate. }
      2:{ rewrite block_of_insert_eq by (by rewrite length_insert).
          by rewrite app_nil_r. }
      2:{ rewrite block_of_insert_ne by lia. rewrite block_of_insert_eq by done.
          rewrite <- !app_assoc. cbn [app]. do 3 f_equal.
          rewrite <- replicate_add. f_equal. lia. }
      eexists. do 2 f_equal.
      - rewrite heap_insert_shadow, heap_insert_shadow2 by lia.
        rewrite app_nil_r. rewrite !fmap_app. rewrite <- !app_assoc. done.
      - lia. }
    destruct (Hmig c1 (S k) d
                (<[length h := Some (replicate (length l1) Raw ++
                     Obj (arg_value args) :: replicate (grown n - S (length l1)) Raw)]> h1))
      as [c2 Hc2].
    { rewrite block_of_insert_ne by lia. unfold h1.
      rewrite block_of_app_l by done. by rewrite Hb, fmap_app. }
    { apply block_of_insert_eq. unfold h1. rewrite length_app. simpl. lia. }
    clear Hmig. go.
    assert (Hbr :
      (if mv
       then uninitialized_move_n (Ptr b (Z.of_nat 0)) (length l1)
              (Ptr (length h) (Z.of_nat 0));;
            uninitialized_move_n (Ptr b (Z.of_nat (length l1))) (n - length l1)
              (Ptr (length h) (Z.of_nat (length l1 + 1)))
       else try_catch_rethrow
              (uninitialized_copy_n (Ptr b (Z.of_nat 0)) (length l1)
                 (Ptr (length h) (Z.of_nat 0));;
               uninitialized_copy_n (Ptr b (Z.of_nat (length l1))) (n - length l1)
                 (Ptr (length h) (Z.of_nat (length l1 + 1))))
              (destroy_n (Ptr (length h) (Z.of_nat (length l1))) 1))
        (mkState (<[length h := Some (replicate (length l1) Raw ++
                     Obj (arg_value args) :: replicate (grown n - S (length l1)) Raw)]> h1)
                 vm c1 (S k) d)
      = Ok () (mkState
               (<[b := Some (Obj <$> (residue mv <$> l1 ++ l2))]>
                  (<[length h := Some ((Obj <$> l1 ++ arg_value args :: l2) ++
                                       replicate (grown n - S n) Raw)]>
                     (<[length h := Some (replicate (length l1) Raw ++
                         Obj (arg_value args) :: replicate (grown n - S (length l1)) Raw)]> h1)))
               vm c2 (S k + n) d)).
    { revert Hc2. unfold mv. destruct migrate_by_move; intros Hc2.
      - by rewrite !transfer_n_move.
      - unfold try_catch_rethrow. rewrite unwinding_eq, !transfer_n_copy.
        by rewrite Hc2. }
    rewrite Hbr. clear Hbr Hc2.
    rewrite list_insert_insert_eq.
    go.
    erewrite (destroy_n_at (residue mv <$> l1 ++ l2) _ _ _ _ _ b 0 n [] []);
      [|done|by rewrite length_fmap|].
    2:{ rewrite block_of_insert_eq; [by rewrite app_nil_r|].
        rewrite length_insert. unfold h1. rewrite length_app. simpl. lia. }
    go. unfold RawMemory_Swap. cbn [buffer_ capacity_]. go.
    unfold RawMemory_dtor, Deallocate. cbn [buffer_].
    rewrite <- (ptr_zero b).
    erewrite operator_delete_eq.
    2:{ apply block_of_insert_eq. rewrite !length_insert. unfold h1.
        rewrite length_app. simpl. lia. }
    go. erewrite load_eq by apply lookup_insert_eq. go.
    erewrite load_eq by apply lookup_insert_eq. go. cbn [data_ buffer_ size_].
    rewrite ?ptr_nat_add. cbn [Nat.add].
    eexists. split; [reflexivity|]. unfold rep_at. cbn [vecs heap].
    rewrite insert_insert_eq, lookup_insert_eq.
    split; [rewrite length_app; cbn [length]; do 2 f_equal; lia|].
    split; [rewrite length_app; cbn [length]; lia|].
    split; [done|]. split; [by destruct l1|].
    rewrite !list_insert_insert_eq.
    rewrite block_of_insert_ne by lia.
    rewrite block_of_insert_eq by (unfold h1; rewrite length_app; simpl; lia).
    do 3 f_equal. rewrite length_app. cbn [length]. lia.
Qed.

(** What [Emplace] and [Insert] do achieve: at any position of a full
    vector, and before the end of a vector with room, the new element
    lands at position [i] between the elements that were before and after
    it, and the iterator returned points to it. *)
Lemma Emplace_spec s this buf l cap i args :
  quiet → rep_at s this buf l cap → i ≤ length l →
  length l = cap ∨ i < length l →
  ∃ s' buf' cap',
    Emplace this (buf +ₚ i) args s = Ok (buf' +ₚ i) s' ∧
    rep_at s' this buf' (take i l ++ arg_value args :: drop i l) cap' ∧
    deref (buf' +ₚ i) s' = Ok (arg_value args) s'.
Proof.
  intros Hq Hrep Hi Hcase.
  assert (Hlen : length (take i l) = i) by (rewrite length_take; lia).
  assert (Hnew : (take i l ++ arg_value args :: drop i l) !! i = Some (arg_value args))
    by (by apply list_lookup_middle).
  pose proof Hrep as (_ & Hle & _).
  destruct (decide (length l = cap)) as [<-|Hne].
  - rewrite <- (take_drop i l) in Hrep.
    destruct (Emplace_full _ _ _ _ _ args Hq Hrep) as (s' & E & Hrep').
    rewrite Hlen in E. exists s', (Ptr (length (heap s)) 0), (grown (length (take i l ++ drop i l))).
    split; [done|]. split; [done|].
    by destruct (rep_at_index _ _ _ _ _ _ _ Hrep' Hnew).
  - destruct Hcase as [?|Hlt]; [done|].
    assert (∃ l2 x, drop i l = l2 ++ [x]) as (l2 & x & Hd).
    { assert (Hnil : drop i l ≠ []).
      { intros Hd. apply (f_equal length) in Hd. rewrite length_drop in Hd.
        simpl in Hd. lia. }
      revert Hnil. generalize (drop i l). intros l0.
      induction l0 as [|x l0 _] using rev_ind; [done|eauto]. }
    assert (Hl : l = take i l ++ l2 ++ [x]) by (by rewrite <- Hd, take_drop).
    rewrite Hl in Hrep.
    destruct (Emplace_room _ _ _ _ _ _ _ args Hq Hrep) as (s' & E & Hrep').
    { rewrite <- Hl. lia. }
    rewrite Hlen in E. rewrite Hd in Hnew |- *. exists s', buf, cap.
    split; [done|]. split; [done|].
    by destruct (rep_at_index _ _ _ _ _ _ _ Hrep' Hnew).
Qed.
(** A reallocating [PushBack] that migrates by copy, under any pattern of
    throws.  When the constructor of the new element throws, everything is
    as before.  When a copy of an existing element throws, the vector object
    and the blocks are as before, but one element constructed in the call,
    the new one, has not been destroyed. *)
Lemma PushBack_full_cases s this buf l v :
  migrate_by_move = false → rep_at s this buf l (length l) →
  match first_throw (calls s) (S (length l)) with
  | None =>
      ∃ s', PushBack this v s = Ok () s' ∧
            rep_at s' this (Ptr (length (heap s)) 0) (l ++ [v]) (grown (length l))
  | Some 0 => ∃ s', PushBack this v s = Throw s' ∧ rolled_back s s'
  | Some (S j) =>
      ∃ s', PushBack this v s = Throw s' ∧
            vecs s' = vecs s ∧
            (∀ b, block_of (heap s') b = block_of (heap s) b) ∧
            constructed s' + destroyed s = S (constructed s + destroyed s')
  end.
Proof.
  intros Hmv (Hv & Hle & Hown). destruct s as [h vm c k d].
  cbn [vecs heap calls constructed destroyed] in *.
  unfold PushBack, EmplaceBack. go. erewrite load_eq by done.
  unfold Capacity, begin, GetAddress. cbn [data_ size_ capacity_ buffer_].
  rewrite Nat.eqb_refl. fold (grown (length l)).
  rewrite Nat.sub_diag in Hown. cbn [replicate] in Hown. rewrite app_nil_r in Hown.
  pose proof (grown_gt (length l)) as Hgt.
  go. rewrite RawMemory_ctor_eq by apply grown_pos.
  go. rewrite RawMemory_plus_eq by (cbn [capacity_]; lia).
  cbn [buffer_]. rewrite !(ptr_zero (length h)), !ptr_nat_add. cbn [Nat.add].
  assert (Hfresh : length h < length (h ++ [Some (replicate (grown (length l)) (@Raw T))]))
    by (rewrite length_app; simpl; lia).
  unfold construct. go. rewrite tick_eq. cbn [first_throw].
  destruct (throws c) eqn:Hc.
  { (* the constructor of the new element throws *)
    unfold RawMemory_dtor, Deallocate. cbn [buffer_]. rewrite <- (ptr_zero (length h)).
    erewrite operator_delete_eq by apply block_of_fresh.
    eexists. split; [reflexivity|]. unfold rolled_back.
    cbn [vecs heap constructed destroyed]. split; [done|]. split; [|lia].
    apply heap_released. }
  erewrite begin_lifetime_eq; [|apply block_of_fresh|by rewrite length_replicate].
  rewrite insert_replicate_lt by done.
  go. rewrite Hmv, transfer_n_copy.
  destruct buf as [|b o].
  - (* nothing to migrate *)
    simpl in Hown. destruct l; [|done]. cbn [length transfer_n destroy_n first_throw].
    go. unfold RawMemory_Swap. cbn [buffer_ capacity_].
    go. unfold RawMemory_dtor, Deallocate, operator_delete.
    cbn [buffer_]. go.
    erewrite load_eq by apply lookup_insert_eq.
    go.
    eexists. split; [reflexivity|]. unfold rep_at. cbn [vecs heap data_ size_].
    rewrite insert_insert_eq, lookup_insert_eq. split; [done|].
    split; [cbn [length app] in *; lia|]. split; [done|]. split; [done|].
    rewrite block_of_insert_eq by done. done.
  - destruct Hown as (-> & Hnil & Hb).
    assert (Hlt : b < length h) by eauto using block_of_lt.
    rewrite (ptr_zero b).
    change (Z.of_nat 0) with (Z.of_nat (@length (slot T) [])).
    rewrite (transfer_n_eq false l _ vm (S c) (S k) d b (length h)
               [] [] [] (replicate (length l) Raw)
               (Obj v :: replicate (grown (length l) - S (length l)) Raw)); try done.
    2:{ lia. }
    2:{ by rewrite length_replicate. }
    2:{ rewrite block_of_insert_ne by lia. rewrite block_of_app_l by done.
        by rewrite app_nil_r. }
    2:{ by rewrite block_of_insert_eq. }
    cbn [ticking app length].
    destruct (first_throw (S c) (length l)) as [j|]; cbn [fmap option_fmap option_map].
    + (* the copy of an existing element throws *)
      unfold RawMemory_dtor, Deallocate. cbn [buffer_].
      erewrite operator_delete_eq.
      2:{ rewrite block_of_insert_ne by lia. apply block_of_insert_eq.
          by rewrite length_insert. }
      eexists. split; [reflexivity|]. cbn [vecs heap constructed destroyed].
      split; [done|]. split; [|lia].
      intros b'. rewrite residue_copy, app_nil_r, <- fmap_app, take_drop.
      rewrite (list_insert_insert_ne _ (length h) b) by lia.
      rewrite !list_insert_insert_eq.
      destruct (decide (b' = b)) as [->|Hne].
      * rewrite block_of_insert_eq; [done|].
        by rewrite length_insert, length_app; simpl; lia.
      * rewrite block_of_insert_ne by done. apply heap_released.
    + go. rewrite residue_copy.
      erewrite (destroy_n_at l _ _ _ _ _ b 0 (length l) [] []); [|done|done|].
      2:{ rewrite block_of_insert_eq; [by rewrite app_nil_r|].
          by rewrite !length_insert, length_app; simpl; lia. }
      go. unfold RawMemory_Swap. cbn [buffer_ capacity_].
      go. unfold RawMemory_dtor, Deallocate.
      cbn [buffer_].
      erewrite operator_delete_eq.
      2:{ apply block_of_insert_eq. by rewrite !length_insert, length_app; simpl; lia. }
      go.
      erewrite load_eq by apply lookup_insert_eq.
      go.
      eexists. split; [reflexivity|]. unfold rep_at. cbn [vecs heap data_ size_].
      rewrite insert_insert_eq, lookup_insert_eq.
      split; [by rewrite length_app; simpl; do 2 f_equal; lia|].
      split; [rewrite length_app; simpl; lia|].
      split; [done|]. split; [by destruct l|].
      rewrite !list_insert_insert_eq.
      rewrite block_of_insert_ne by lia.
      rewrite block_of_insert_eq by done.
      rewrite fmap_app, <- app_assoc. cbn [app fmap list_fmap].
      do 4 f_equal. rewrite length_app; simpl; lia.
Qed.
End Members.

(** ** Sequences of operations and the properties of the specification *)

Section Claims.
Context {T : Type} {elt : Element T}.
Implicit Types (h : list (option (list (slot T)))) (blk : list (slot T)) (vm : gmap nat Vector) (s : state T) (l : list T).

Lemma rep_at_observed s this buf l cap : rep_at s this buf l cap → observed s this l.
Proof.
  intros Hrep. split.
  - destruct (rep_at_load _ _ _ _ _ Hrep) as (v & ? & ? & _). eauto.
  - intros i x Hi. by eapply rep_at_Vector_at.
Qed.

Lemma EmplaceBack_spec s this buf l cap args :
  quiet → rep_at s this buf l cap →
  ∃ s' p buf' cap', EmplaceBack this args s = Ok p s' ∧
                    rep_at s' this buf' (l ++ [arg_value args]) cap'.
Proof.
  intros Hq Hrep. pose proof Hrep as (_ & Hle & _).
  destruct (decide (length l = cap)) as [<-|Hne].
  - destruct (EmplaceBack_full _ _ _ _ args Hq Hrep) as (s' & E & Hrep' & _). eauto 6.
  - destruct (EmplaceBack_room _ _ _ _ _ args Hq Hrep) as (s' & E & Hrep' & _); [lia|].
    eauto 6.
Qed.

Lemma exec_spec s this buf l cap o l' :
  quiet → rep_at s this buf l cap → survivors l [o] = Some l' →
  ∃ s' buf' cap', exec this o s = Ok () s' ∧ rep_at s' this buf' l' cap'.
Proof.
  intros Hq Hrep Hsurv. destruct o as [v|v|]; simpl in Hsurv.
  - injection Hsurv as <-.
    destruct (EmplaceBack_spec _ _ _ _ _ (copy_arg v) Hq Hrep) as (s' & p & buf' & cap' & E & Hrep').
    exists s', buf', cap'. split; [|done]. unfold exec, PushBack. go. by rewrite E.
  - injection Hsurv as <-.
    destruct (EmplaceBack_spec _ _ _ _ _ (move_arg v) Hq Hrep) as (s' & p & buf' & cap' & E & Hrep').
    exists s', buf', cap'. split; [|done]. unfold exec, PushBack_rvalue. go. by rewrite E.
  - assert (l ≠ [] ∧ l' = removelast l) as [Hne ->].
    { destruct l; [done|]. by injection Hsurv as <-. }
    destruct l as [|x l0]; [done|].
    rewrite (app_removelast_last x Hne) in Hrep.
    destruct (PopBack_spec _ _ _ _ _ _ Hrep) as (s' & E & Hrep' & _).
    exists s', buf, cap. split; [exact E|exact Hrep'].
Qed.

Lemma removelast_length (l : list T) : length (removelast l) = length l - 1.
Proof. rewrite removelast_firstn_len, length_take. lia. Qed.

Lemma survivors_length l ops l' :
  survivors l ops = Some l' → length l' + pops ops = length l + pushes ops.
Proof.
  revert l. induction ops as [|o ops IH]; intros l Hs; simpl in Hs.
  - injection Hs as <-. done.
  - destruct o as [v|v|]; simpl.
    + apply IH in Hs. rewrite length_app in Hs. simpl in Hs. lia.
    + apply IH in Hs. rewrite length_app in Hs. simpl in Hs. lia.
    + destruct l as [|x l0]; [done|]. apply IH in Hs.
      rewrite removelast_length in Hs. simpl length in *. lia.
Qed.

Lemma run_spec ops : ∀ s this buf l cap l',
  quiet → rep_at s this buf l cap → survivors l ops = Some l' →
  ∃ s' buf' cap', run this ops s = Ok () s' ∧ rep_at s' this buf' l' cap'.
Proof.
  induction ops as [|o ops IH]; intros s this buf l cap l' Hq Hrep Hs.
  - injection Hs as <-. by exists s, buf, cap.
  - assert (∃ l1, survivors l [o] = Some l1 ∧ survivors l1 ops = Some l') as (l1 & H1 & H2).
    { destruct o as [v|v|]; simpl in *; eauto. destruct l; [done|]. eauto. }
    destruct (exec_spec _ _ _ _ _ _ _ Hq Hrep H1) as (s1 & buf1 & cap1 & E1 & Hrep1).
    destruct (IH _ _ _ _ _ _ Hq Hrep1 H2) as (s2 & buf2 & cap2 & E2 & Hrep2).
    exists s2, buf2, cap2. split; [|done]. cbn [run]. go. by rewrite E1.
Qed.

(** C6. For every sequence of PushBack and PopBack operations on a vector
    (PopBack only when it is not empty), run with an element type that does
    not throw, the final size is the initial size plus the pushes minus the
    pops, and indexing over [0, size) returns the surviving elements in
    push order. *)
Theorem C6_push_pop_sequences s this buf l cap ops l' :
  quiet → rep_at s this buf l cap → survivors l ops = Some l' →
  ∃ s', run this ops s = Ok () s' ∧
        observed s' this l' ∧
        length l' + pops ops = length l + pushes ops ∧
        ∃ buf' cap', rep_at s' this buf' l' cap'.
Proof.
  intros Hq Hrep Hs.
  destruct (run_spec ops _ _ _ _ _ _ Hq Hrep Hs) as (s' & buf' & cap' & E & Hrep').
  exists s'. split; [done|]. split; [by eapply rep_at_observed|].
  split; [by apply survivors_length|]. eauto.
Qed.

(** Appending while the capacity suffices, by either overload of PushBack,
    keeps the storage in place. *)
Lemma run_pushes_room ops : ∀ s this buf l cap l',
  quiet → rep_at s this buf l cap →
  pops ops = 0 → survivors l ops = Some l' → length l + pushes ops ≤ cap →
  ∃ s', run this ops s = Ok () s' ∧
        rep_at s' this buf l' cap ∧
        length (heap s') = length (heap s).
Proof.
  induction ops as [|o ops IH]; intros s this buf l cap l' Hq Hrep Hpop Hs Hlen.
  - injection Hs as <-. by exists s.
  - assert (∃ args, exec this o = (EmplaceBack this args;; mret ()) ∧
                    survivors (l ++ [arg_value args]) ops = Some l' ∧
                    pops ops = 0 ∧ S (pushes ops) = pushes (o :: ops))
      as (args & Ho & Hs' & Hpop' & Hpush).
    { destruct o as [v|v|]; [by exists (copy_arg v)|by exists (move_arg v)|done]. }
    rewrite <- Hpush in Hlen.
    destruct (EmplaceBack_room _ _ _ _ _ args Hq Hrep) as (s1 & E & Hrep1 & Hh1); [lia|].
    destruct (IH s1 this buf (l ++ [arg_value args]) cap l' Hq Hrep1 Hpop' Hs')
      as (s2 & E2 & Hrep2 & Hh2).
    { rewrite length_app. simpl. lia. }
    exists s2. split; [|split; [done|congruence]].
    cbn [run]. rewrite Ho. go. rewrite E. go. exact E2.
Qed.

(** C7, amended. Reserve(n) with n <= capacity changes nothing, and after
    Reserve(n), for n within the capacity or with a byte count that
    [size_t] represents, any run of PushBack operations, of either
    overload, that brings the size to at most max(n, old capacity) leaves
    the capacity at that value and the storage where it is: no
    reallocation. *)
Theorem C7_reserve_then_push s this buf l cap n :
  quiet → rep_at s this buf l cap →
  (n ≤ cap → Reserve this n s = Ok () s) ∧
  (n ≤ cap ∨ representable n →
   ∃ s1 buf1,
     Reserve this n s = Ok () s1 ∧
     rep_at s1 this buf1 l (n `max` cap) ∧
     ∀ ops l', pops ops = 0 → survivors l ops = Some l' →
       length l + pushes ops ≤ n `max` cap →
       ∃ s2, run this ops s1 = Ok () s2 ∧
             rep_at s2 this buf1 l' (n `max` cap) ∧
             length (heap s2) = length (heap s1)).
Proof.
  intros Hq Hrep.
  assert (Hnoop : n ≤ cap → Reserve this n s = Ok () s).
  { intros Hn. destruct Hrep as (Hv & _). by eapply Reserve_noop. }
  split; [done|]. intros _.
  destruct (decide (n ≤ cap)) as [Hn|Hn].
  - exists s, buf. rewrite Nat.max_r by done. split; [auto|]. split; [done|].
    intros ops l' Hpop Hs Hlen. by eapply run_pushes_room.
  - pose proof (Reserve_grow s this buf l cap n Hrep) as Hg.
    unfold quiet in Hq.
    rewrite first_throw_quiet in Hg by done.
    replace (if ticking migrate_by_move then None else None) with (@None nat) in Hg
      by by destruct (ticking _).
    destruct Hg as (s1 & E & Hrep1 & _); [lia|].
    exists s1, (Ptr (length (heap s)) 0). rewrite Nat.max_l by lia.
    split; [done|]. split; [done|].
    intros ops l' Hpop Hs Hlen. by eapply run_pushes_room.
Qed.

(** C9. Erase at a valid position i of a vector of size n >= 1, with an
    element type that does not throw, yields size n-1, elements [0,i)
    unchanged, elements [i,n-1) equal to the original elements [i+1,n), and
    returns the iterator [begin() + i], the slot that now holds the element
    that followed the erased one. *)
Theorem C9_erase s this buf l cap i :
  quiet → rep_at s this buf l cap → i < length l →
  ∃ s', Erase this (buf +ₚ i) s = Ok (buf +ₚ i) s' ∧
        rep_at s' this buf (delete i l) cap ∧
        observed s' this (delete i l) ∧
        length (delete i l) = length l - 1 ∧
        (∀ j, j < i → delete i l !! j = l !! j) ∧
        (∀ j, i ≤ j → delete i l !! j = l !! S j) ∧
        (∀ y, l !! S i = Some y → deref (buf +ₚ i) s' = Ok y s').
Proof.
  intros Hq Hrep Hi.
  destruct (lookup_lt_is_Some_2 l i Hi) as [x Hx].
  pose proof (take_drop_middle l i x Hx) as Hl.
  assert (Hlen : length (take i l) = i) by (rewrite length_take; lia).
  rewrite <- Hl in Hrep.
  destruct (Erase_spec _ _ _ _ _ _ _ Hq Hrep) as (s' & E & Hrep').
  rewrite Hlen in E. rewrite <- delete_take_drop in Hrep'.
  exists s'. split; [done|]. split; [done|]. split; [by eapply rep_at_observed|].
  split; [by rewrite length_delete by eauto|].
  split; [intros j Hj; by apply list_lookup_delete_lt|].
  split; [intros j Hj; by apply list_lookup_delete_ge|].
  intros y Hy.
  assert (Hd : delete i l !! i = Some y) by (by rewrite list_lookup_delete_ge).
  by destruct (rep_at_index _ _ _ _ _ _ _ Hrep' Hd).
Qed.

(** A push on a vector without storage acquires a block of one slot. *)
Lemma PushBack_without_storage s this x :
  quiet → vecs s !! this = Some (mkVector (mkRawMemory nullptr 0) 0) →
  ∃ s', PushBack this x s = Ok () s' ∧
        rep_at s' this (Ptr (length (heap s)) 0) [x] 1 ∧
        length (heap s') = S (length (heap s)).
Proof.
  intros Hq Hv.
  assert (Hrep : rep_at s this nullptr [] (length (@nil T))) by done.
  destruct (EmplaceBack_full _ _ _ _ (copy_arg x) Hq Hrep) as (s' & E & Hrep' & Hh).
  exists s'. split; [|done]. unfold PushBack. go. by rewrite E.
Qed.

(** Move construction and move assignment only exchange members: no block
    is acquired, released or written, no element is constructed or
    destroyed.  The source is left with null storage; whatever block the
    receiver of a move assignment owned stays in the store as it was. *)
Lemma Vector_ctor_move_eq h vm c k d this other v :
  vm !! other = Some v →
  Vector_ctor_move this other (mkState h vm c k d) =
  Ok () (mkState h (<[this := v]> (<[other := mkVector (mkRawMemory nullptr 0) 0]> vm))
                 c k d).
Proof.
  intros Hv. unfold Vector_ctor_move. go. erewrite load_eq by done.
  unfold RawMemory_move_ctor, RawMemory_Swap, RawMemory_default.
  cbn [buffer_ capacity_]. go. by destruct v as [[vb vc] vs].
Qed.

Lemma Vector_move_assign_eq h vm c k d this rhs v :
  this ≠ rhs → is_Some (vm !! this) → vm !! rhs = Some v →
  Vector_move_assign this rhs (mkState h vm c k d) =
  Ok () (mkState h (<[this := v]> (<[rhs := mkVector (mkRawMemory nullptr 0) 0]> vm))
                 c k d).
Proof.
  intros Hne [w Hw] Hv. unfold Vector_move_assign. rewrite bool_decide_true by done.
  go. erewrite load_eq by done. go. erewrite load_eq by done.
  unfold RawMemory_move_assign. go. by destruct v as [[vb vc] vs].
Qed.

(** C10. After a vector has been moved from, by move construction or by
    move assignment into another vector, it has size 0, capacity 0 and a
    null storage pointer; a PushBack on it then acquires a fresh block of
    capacity 1.  The receiver holds what the source held. *)
Theorem C10_moved_from_has_no_storage s this other v x :
  quiet → this ≠ other → vecs s !! other = Some v →
  (∃ s', Vector_ctor_move this other s = Ok () s' ∧
         vecs s' !! other = Some (mkVector (mkRawMemory nullptr 0) 0) ∧
         vecs s' !! this = Some v ∧
         ∃ s'', PushBack other x s' = Ok () s'' ∧
                rep_at s'' other (Ptr (length (heap s')) 0) [x] 1 ∧
                length (heap s'') = S (length (heap s'))) ∧
  (is_Some (vecs s !! this) →
   ∃ s', Vector_move_assign this other s = Ok () s' ∧
         vecs s' !! other = Some (mkVector (mkRawMemory nullptr 0) 0) ∧
         vecs s' !! this = Some v ∧
         ∃ s'', PushBack other x s' = Ok () s'' ∧
                rep_at s'' other (Ptr (length (heap s')) 0) [x] 1 ∧
                length (heap s'') = S (length (heap s'))).
Proof.
  intros Hq Hne Hv. destruct s as [h vm c k d]. cbn [vecs] in *.
  assert (Ho : <[this := v]> (<[other := mkVector (mkRawMemory nullptr 0) 0]> vm) !! other
               = Some (mkVector (mkRawMemory nullptr 0) 0))
    by (by rewrite lookup_insert_ne, lookup_insert_eq).
  split; [|intros Hw].
  - rewrite (Vector_ctor_move_eq _ _ _ _ _ _ _ v) by done.
    eexists. split; [reflexivity|]. cbn [vecs].
    split; [done|]. split; [by rewrite lookup_insert_eq|].
    by apply PushBack_without_storage.
  - rewrite (Vector_move_assign_eq _ _ _ _ _ _ _ v) by done.
    eexists. split; [reflexivity|]. cbn [vecs].
    split; [done|]. split; [by rewrite lookup_insert_eq|].
    by apply PushBack_without_storage.
Qed.

(** [explicit Vector(size_t)] under any pattern of throws. *)
Lemma Vector_ctor_size_cases s this n :
  match Vector_ctor_size this n s with
  | Ok _ s' =>
      first_throw (calls s) n = None ∧
      rep s' this (replicate n value_init) n ∧
      constructed s' + destroyed s = constructed s + n + destroyed s'
  | Throw s' => (∃ j, first_throw (calls s) n = Some j) ∧ rolled_back s s'
  | Undefined => False
  end.
Proof.
  destruct s as [h vm c k d]. unfold Vector_ctor_size. go.
  destruct (decide (n = 0)) as [->|Hn].
  - unfold Vector_sized, RawMemory_ctor, Allocate.
    cbn [Nat.eqb negb uninitialized_value_construct_n]. go.
    cbn [calls first_throw constructed destroyed]. split; [done|]. split; [|lia].
    exists nullptr. unfold rep_at. cbn [vecs heap]. by rewrite lookup_insert_eq.
  - rewrite Vector_sized_eq by done. cbn [calls].
    destruct (first_throw c n) as [j|].
    + split; [eauto|]. unfold rolled_back. cbn [vecs heap constructed destroyed].
      split; [done|]. split; [apply heap_released|lia].
    + go. split; [done|]. cbn [constructed destroyed]. split; [|lia].
      exists (Ptr (length h) 0). unfold rep_at. cbn [vecs heap].
      rewrite lookup_insert_eq, length_replicate. split; [done|]. split; [done|].
      split; [done|]. rewrite Nat.sub_diag, app_nil_r, fmap_replicate.
      split; [by destruct n|]. by rewrite block_of_fresh.
Qed.

(** C4, amended. Whatever element operation throws: Construct(n), for
    any element type and n with a byte count that [size_t] represents,
    either completes or leaves by the exception with the storage released
    and every element it constructed destroyed; Reserve(n), for an element
    type that is copy-constructible or whose move constructor does not
    throw, and n within the capacity or representable likewise, either
    completes or leaves by the exception with the vector object, every
    block and the count of live elements as before the call.  Neither runs
    a destructor on raw memory.  The exception does occur when one of the
    element operations of the call is due to throw. *)
Theorem C4_construct_reserve_rollback s this buf l cap n that :
  (representable n →
   match Vector_ctor_size that n s with
   | Ok _ s' =>
       first_throw (calls s) n = None ∧ rep s' that (replicate n value_init) n
   | Throw s' => (∃ j, first_throw (calls s) n = Some j) ∧ rolled_back s s'
   | Undefined => False
   end) ∧
  (is_copy_constructible_v = true ∨ is_nothrow_move_constructible_v = true →
   rep_at s this buf l cap → n ≤ cap ∨ representable n →
   match Reserve this n s with
   | Ok _ s' => rep s' this l (n `max` cap)
   | Throw s' =>
       cap < n ∧ is_nothrow_move_constructible_v = false ∧
       (∃ j, first_throw (calls s) (length l) = Some j) ∧ rolled_back s s'
   | Undefined => False
   end ∧
   (cap < n → is_nothrow_move_constructible_v = false →
    ∀ j, first_throw (calls s) (length l) = Some j → ∃ s', Reserve this n s = Throw s')).
Proof.
  split; [intros _|intros Htype Hrep _; split].
  - pose proof (Vector_ctor_size_cases s that n) as Hc.
    destruct (Vector_ctor_size that n s); [|done..]. tauto.
  - destruct (decide (n ≤ cap)) as [Hn|Hn].
    + destruct Hrep as (Hv & Hrest).
      erewrite Reserve_noop by done. rewrite Nat.max_r by done. by exists buf.
    + pose proof (Reserve_grow s this buf l cap n Hrep) as Hg.
      rewrite Nat.max_l by lia.
      destruct (ticking migrate_by_move) eqn:Htk.
      * destruct (first_throw (calls s) (length l)) as [j|] eqn:Hj.
        -- destruct Hg as (s' & -> & Hrb); [lia|].
           unfold ticking, migrate_by_move in Htk.
           destruct is_nothrow_move_constructible_v eqn:E1; [done|].
           destruct is_copy_constructible_v eqn:E2; [|by destruct Htype].
           split; [lia|]. split; [done|]. split; [eauto|].
           apply Hrb. unfold migrate_by_move. by rewrite E1, E2.
        -- destruct Hg as (s' & -> & Hrep' & _); [lia|]. by eexists.
      * destruct Hg as (s' & -> & Hrep' & _); [lia|]. by eexists.
  - intros Hn Hnt j Hj.
    pose proof (Reserve_grow s this buf l cap n Hrep Hn) as Hg.
    assert (Htk : ticking migrate_by_move = true).
    { unfold ticking, migrate_by_move. rewrite Hnt.
      by destruct is_copy_constructible_v. }
    rewrite Htk, Hj in Hg. destruct Hg as (s' & E & _). eauto.
Qed.
End Claims.

(** * Concrete runs *)

(** C1. With [a] of size 1 and capacity 4 and [b] holding 7, 8, 9, the
    copy assignment [a = b] takes the in-place branch and returns with
    [a.Size() = 3 = b.Size()], [a[0] = 7], [a[1] = 8], but the slot of
    [a[2]] was never constructed: reading it has no defined behaviour,
    while [b[2]] is 9.  [uninitialized_copy_n] is given the start of both
    arrays instead of their offsets [size_]. *)
Theorem C1_copy_assign_in_place_growth :
  let s := state_after (two_vectors (elt := int_like)) fresh in
  two_vectors (elt := int_like) fresh = Ok () s ∧
  Vector_at 0 0 s = Ok 1 s ∧
  vecs s !! 0 = Some (mkVector (mkRawMemory (Ptr 0 0) 4) 1) ∧
  vecs s !! 1 = Some (mkVector (mkRawMemory (Ptr 3 0) 4) 3) ∧
  let s' := state_after (Vector_copy_assign (elt := int_like) 0 1) s in
  Vector_copy_assign (elt := int_like) 0 1 s = Ok () s' ∧
  vecs s' !! 0 = Some (mkVector (mkRawMemory (Ptr 0 0) 4) 3) ∧
  Vector_at 0 0 s' = Ok 7 s' ∧
  Vector_at 0 1 s' = Ok 8 s' ∧
  Vector_at 1 2 s' = Ok 9 s' ∧
  Vector_at 0 2 s' = Undefined.
Proof.
  vm_compute. repeat split.
Qed.

(** C2. With size 2 and capacity 4, [Insert(end(), 9)] takes the in-place
    branch and calls [std::move_backward(begin() + 2, end() - 1, end())],
    whose first iterator lies after its last: no defined behaviour.  The
    same holds for an empty vector with spare capacity, where [end() - 1]
    is not the address of an element.  Inserting before the end works. *)
Theorem C2_insert_at_end_with_spare_capacity :
  let s := state_after (roomy_vector (elt := int_like)) fresh in
  let v := mkVector (mkRawMemory (Ptr 0 0) 4) 2 in
  roomy_vector (elt := int_like) fresh = Ok () s ∧
  vecs s !! 0 = Some v ∧
  Insert (elt := int_like) 0 (end_ v) 9 s = Undefined ∧
  (let s' := state_after (Insert (elt := int_like) 0 (begin v +ₚ 1) 9) s in
   Insert (elt := int_like) 0 (begin v +ₚ 1) 9 s = Ok (begin v +ₚ 1) s' ∧
   Vector_at 0 0 s' = Ok 1 s' ∧ Vector_at 0 1 s' = Ok 9 s' ∧
   Vector_at 0 2 s' = Ok 2 s') ∧
  let s0 := state_after (Vector_ctor 0;; Reserve (elt := int_like) 0 4) fresh in
  let v0 := mkVector (mkRawMemory (Ptr 0 0) 4) 0 in
  vecs s0 !! 0 = Some v0 ∧
  Insert (elt := int_like) 0 (end_ v0) 9 s0 = Undefined.
Proof.
  vm_compute. repeat split.
Qed.

(** C3. With size 2 = capacity 2 and an element type that migrates by
    copy, [PushBack(3)] constructs the new element in the new block, copies
    the first element and throws on the copy of the second.  The vector
    object and every block are as before and the new block is released,
    but of the two elements constructed in the call only the copy is
    destroyed: the new element never is. *)
Theorem C3_push_back_leaks_new_element :
  let s := state_after (full_vector (elt := throwing_copy)) fresh in
  full_vector (elt := throwing_copy) fresh = Ok () s ∧
  vecs s !! 0 = Some (mkVector (mkRawMemory (Ptr 1 0) 2) 2) ∧
  let s' := state_after (PushBack (elt := throwing_copy) 0 3) s in
  PushBack (elt := throwing_copy) 0 3 s = Throw s' ∧
  vecs s' = vecs s ∧
  heap s = [None; Some [Obj 1; Obj 2]] ∧
  heap s' = [None; Some [Obj 1; Obj 2]; None] ∧
  constructed s' = constructed s + 2 ∧
  destroyed s' = destroyed s + 1.
Proof.
  vm_compute. repeat split.
Qed.

(** C5. After the copy assignment of C1 the vector has size 3 within
    capacity 4, but its slot 2, below the size, holds no live element. *)
Theorem C5_copy_assign_breaks_liveness :
  let s := state_after (two_vectors (elt := int_like)) fresh in
  let s' := state_after (Vector_copy_assign (elt := int_like) 0 1) s in
  Vector_copy_assign (elt := int_like) 0 1 s = Ok () s' ∧
  let a := mkVector (mkRawMemory (Ptr 0 0) 4) 3 in
  vecs s' !! 0 = Some a ∧ Size a = 3 ∧ Capacity a = 4 ∧
  slot_at (heap s') (begin a +ₚ 2) = Some Raw.
Proof.
  vm_compute. repeat split.
Qed.

(** C8. Move assignment [a = std::move(b)] leaves [b] empty and [a] holding
    7, 8, 9, with no element constructed or destroyed; but the block [a]
    owned before, block 0, stays allocated with its element 1 alive in it,
    and no vector refers to it any more. *)
Theorem C8_move_assign_leaks_old_storage :
  let s := state_after (two_vectors (elt := int_like)) fresh in
  vecs s !! 0 = Some (mkVector (mkRawMemory (Ptr 0 0) 4) 1) ∧
  block_of (heap s) 0 = Some [Obj 1; Raw; Raw; Raw] ∧
  let s' := state_after (Vector_move_assign 0 1) s in
  Vector_move_assign 0 1 s = Ok () s' ∧
  vecs s' !! 1 = Some (mkVector (mkRawMemory nullptr 0) 0) ∧
  vecs s' !! 0 = vecs s !! 1 ∧
  Vector_at 0 0 s' = Ok 7 s' ∧ Vector_at 0 1 s' = Ok 8 s' ∧ Vector_at 0 2 s' = Ok 9 s' ∧
  constructed s' = constructed s ∧ destroyed s' = destroyed s ∧
  block_of (heap s') 0 = Some [Obj 1; Raw; Raw; Raw] ∧
  map_to_list (vecs s') =
    [(1, mkVector (mkRawMemory nullptr 0) 0);
     (0, mkVector (mkRawMemory (Ptr 3 0) 4) 3)].
Proof.
  vm_compute. repeat split.
Qed.

(** C4, as stated, fails for a move-only element type whose move
    constructor throws: the vector holds 1, 2, 3; during [Reserve(10)] the
    second move construction throws; the first element has already been
    moved from and now holds 0. *)
Lemma C4_counterexample :
  let s := state_after (moved_in_vector (elt := move_only)) fresh in
  moved_in_vector (elt := move_only) fresh = Ok () s ∧
  vecs s !! 0 = Some (mkVector (mkRawMemory (Ptr 2 0) 4) 3) ∧
  Vector_at 0 0 s = Ok 1 s ∧
  first_throw (elt := move_only) (calls s) 3 = Some 1 ∧
  let s' := state_after (Reserve (elt := move_only) 0 10) s in
  Reserve (elt := move_only) 0 10 s = Throw s' ∧
  Vector_at 0 0 s' = Ok 0 s' ∧
  ¬ rolled_back s s'.
Proof.
  vm_compute. repeat split.
  intros (_ & Hblk & _). specialize (Hblk 2). vm_compute in Hblk. discriminate.
Qed.

(** C7, as stated, fails for a vector that is not empty: with size 2 and
    capacity 2, [Reserve(3)] gives capacity 3, and two PushBack operations
    (fewer than 3) end with capacity 6. *)
Lemma C7_counterexample :
  let s := state_after (full_vector (elt := int_like)) fresh in
  vecs s !! 0 = Some (mkVector (mkRawMemory (Ptr 1 0) 2) 2) ∧
  let s1 := state_after (Reserve (elt := int_like) 0 3) s in
  Reserve (elt := int_like) 0 3 s = Ok () s1 ∧
  vecs s1 !! 0 = Some (mkVector (mkRawMemory (Ptr 2 0) 3) 2) ∧
  let s2 := state_after (run (elt := int_like) 0 [push 4; push 5]) s1 in
  run (elt := int_like) 0 [push 4; push 5] s1 = Ok () s2 ∧
  length [push 4; push 5] ≤ 3 ∧
  vecs s2 !! 0 = Some (mkVector (mkRawMemory (Ptr 3 0) 6) 4) ∧
  ¬ ∃ buf l, rep_at s2 0 buf l (3 `max` 2).
Proof.
  vm_compute. repeat split; [lia|].
  intros (buf & l & Hv & _). vm_compute in Hv. congruence.
Qed.

(** * The theorems at concrete inputs *)

(** The hypotheses of the general theorems hold at these inputs. *)
Lemma quiet_int_like : quiet (elt := int_like).
Proof. intros n. reflexivity. Defined.

Lemma rep_at_full_vector :
  rep_at (state_after (full_vector (elt := int_like)) fresh) 0 (Ptr 1 0) [1; 2] 2.
Proof.
  unfold rep_at. split; [vm_compute; reflexivity|]. split; [simpl; lia|].
  split; [reflexivity|]. split; [discriminate|]. vm_compute. reflexivity.
Defined.

(** C6 on the vector holding 1, 2: push 5, pop, pop, push 6, push 7. *)
Lemma C6_push_pop_sequences_witness :
  let s := state_after (full_vector (elt := int_like)) fresh in
  let ops := [push 5; pop; pop; push_rvalue 6; push 7] in
  ∃ s', run (elt := int_like) 0 ops s = Ok () s' ∧
        observed s' 0 [1; 6; 7] ∧
        length [1; 6; 7] + pops ops = length [1; 2] + pushes ops ∧
        ∃ buf' cap', rep_at s' 0 buf' [1; 6; 7] cap'.
Proof.
  apply (C6_push_pop_sequences (elt := int_like) _ 0 (Ptr 1 0) [1; 2] 2
           [push 5; pop; pop; push_rvalue 6; push 7] [1; 6; 7]).
  - exact quiet_int_like.
  - exact rep_at_full_vector.
  - reflexivity.
Defined.

(** C7 on the vector holding 1, 2 with capacity 2, and [Reserve(5)]: five
    elements of four bytes are 20 bytes. *)
Lemma C7_reserve_then_push_witness :
  let s := state_after (full_vector (elt := int_like)) fresh in
  representable (elt := int_like) 5 ∧
  (5 ≤ 2 → Reserve (elt := int_like) 0 5 s = Ok () s) ∧
  ∃ s1 buf1,
    Reserve (elt := int_like) 0 5 s = Ok () s1 ∧
    rep_at s1 0 buf1 [1; 2] (5 `max` 2) ∧
    ∀ ops l', pops ops = 0 → survivors [1; 2] ops = Some l' →
      length [1; 2] + pushes ops ≤ 5 `max` 2 →
      ∃ s2, run (elt := int_like) 0 ops s1 = Ok () s2 ∧
            rep_at s2 0 buf1 l' (5 `max` 2) ∧
            length (heap s2) = length (heap s1).
Proof.
  assert (Hr : representable (elt := int_like) 5) by (vm_compute; discriminate).
  destruct (C7_reserve_then_push (elt := int_like) _ 0 (Ptr 1 0) [1; 2] 2 5
              quiet_int_like rep_at_full_vector) as [H1 H2].
  split; [exact Hr|]. split; [exact H1|]. apply H2. right. exact Hr.
Defined.

(** C9 on the vector holding 1, 2, erasing at [begin()]. *)
Lemma C9_erase_witness :
  let s := state_after (full_vector (elt := int_like)) fresh in
  ∃ s', Erase (elt := int_like) 0 (Ptr 1 0 +ₚ 0) s = Ok (Ptr 1 0 +ₚ 0) s' ∧
        rep_at s' 0 (Ptr 1 0) (delete 0 [1; 2]) 2 ∧
        observed s' 0 (delete 0 [1; 2]) ∧
        length (delete 0 [1; 2]) = length [1; 2] - 1 ∧
        (∀ j, j < 0 → delete 0 [1; 2] !! j = [1; 2] !! j) ∧
        (∀ j, 0 ≤ j → delete 0 [1; 2] !! j = [1; 2] !! S j) ∧
        (∀ y, [1; 2] !! 1 = Some y → deref (Ptr 1 0 +ₚ 0) s' = Ok y s').
Proof.
  apply (C9_erase (elt := int_like) _ 0 (Ptr 1 0) [1; 2] 2 0).
  - exact quiet_int_like.
  - exact rep_at_full_vector.
  - simpl. lia.
Defined.

(** C10 with the vector holding 1, 2 as the source and address 5 as the
    receiver. *)
Lemma C10_moved_from_has_no_storage_witness :
  let s := state_after (full_vector (elt := int_like)) fresh in
  let v := mkVector (mkRawMemory (Ptr 1 0) 2) 2 in
  (∃ s', Vector_ctor_move 5 0 s = Ok () s' ∧
         vecs s' !! 0 = Some (mkVector (mkRawMemory nullptr 0) 0) ∧
         vecs s' !! 5 = Some v ∧
         ∃ s'', PushBack (elt := int_like) 0 9 s' = Ok () s'' ∧
                rep_at s'' 0 (Ptr (length (heap s')) 0) [9] 1 ∧
                length (heap s'') = S (length (heap s'))) ∧
  (is_Some (vecs s !! 5) →
   ∃ s', Vector_move_assign 5 0 s = Ok () s' ∧
         vecs s' !! 0 = Some (mkVector (mkRawMemory nullptr 0) 0) ∧
         vecs s' !! 5 = Some v ∧
         ∃ s'', PushBack (elt := int_like) 0 9 s' = Ok () s'' ∧
                rep_at s'' 0 (Ptr (length (heap s')) 0) [9] 1 ∧
                length (heap s'') = S (length (heap s'))).
Proof.
  apply (C10_moved_from_has_no_storage (elt := int_like) _ 5 0).
  - exact quiet_int_like.
  - lia.
  - vm_compute. reflexivity.
Defined.

Lemma rep_at_full_vector_throwing :
  rep_at (state_after (full_vector (elt := throwing_copy)) fresh) 0 (Ptr 1 0) [1; 2] 2.
Proof.
  unfold rep_at. split; [vm_compute; reflexivity|]. split; [simpl; lia|].
  split; [reflexivity|]. split; [discriminate|]. vm_compute. reflexivity.
Defined.

Lemma rep_at_four_in_eight_throwing :
  rep_at (state_after (four_in_eight (elt := throwing_copy)) fresh) 0 (Ptr 0 0)
         [1; 2; 3; 4] 8.
Proof.
  unfold rep_at. split; [vm_compute; reflexivity|]. split; [simpl; lia|].
  split; [reflexivity|]. split; [discriminate|]. vm_compute. reflexivity.
Defined.

(** C4 for the copyable element type whose sixth operation throws, on the
    vector holding 1 to 4 with capacity 8, after four element operations:
    [Vector(16)] at address 9 throws on its second element, and
    [Reserve(16)] throws on its second copy. *)
Lemma C4_construct_reserve_rollback_witness :
  let s := state_after (four_in_eight (elt := throwing_copy)) fresh in
  representable (elt := throwing_copy) 16 ∧
  first_throw (elt := throwing_copy) (calls s) 16 = Some 1 ∧
  first_throw (elt := throwing_copy) (calls s) (length [1; 2; 3; 4]) = Some 1 ∧
  (∃ s', Vector_ctor_size (elt := throwing_copy) 9 16 s = Throw s') ∧
  (∃ s', Reserve (elt := throwing_copy) 0 16 s = Throw s') ∧
  match Vector_ctor_size (elt := throwing_copy) 9 16 s with
  | Ok _ s' =>
      first_throw (elt := throwing_copy) (calls s) 16 = None ∧
      rep s' 9 (replicate 16 (value_init (Element := throwing_copy))) 16
  | Throw s' =>
      (∃ j, first_throw (elt := throwing_copy) (calls s) 16 = Some j) ∧ rolled_back s s'
  | Undefined => False
  end ∧
  match Reserve (elt := throwing_copy) 0 16 s with
  | Ok _ s' => rep s' 0 [1; 2; 3; 4] (16 `max` 8)
  | Throw s' =>
      8 < 16 ∧ is_nothrow_move_constructible_v (Element := throwing_copy) = false ∧
      (∃ j, first_throw (elt := throwing_copy) (calls s) (length [1; 2; 3; 4]) = Some j) ∧
      rolled_back s s'
  | Undefined => False
  end ∧
  (8 < 16 → is_nothrow_move_constructible_v (Element := throwing_copy) = false →
   ∀ j, first_throw (elt := throwing_copy) (calls s) (length [1; 2; 3; 4]) = Some j →
        ∃ s', Reserve (elt := throwing_copy) 0 16 s = Throw s').
Proof.
  assert (Hr : representable (elt := throwing_copy) 16) by (vm_compute; discriminate).
  destruct (C4_construct_reserve_rollback (elt := throwing_copy)
              (state_after (four_in_eight (elt := throwing_copy)) fresh)
              0 (Ptr 0 0) [1; 2; 3; 4] 8 16 9) as [H1 H2].
  split; [exact Hr|]. split; [vm_compute; reflexivity|]. split; [vm_compute; reflexivity|].
  split; [eexists; vm_compute; reflexivity|].
  split; [eexists; vm_compute; reflexivity|].
  split; [exact (H1 Hr)|].
  apply H2.
  - left. reflexivity.
  - exact rep_at_four_in_eight_throwing.
  - right. exact Hr.
Defined.

(** * Further properties of the member functions *)

(** ** Every member function with all it does *)

Section Effects.
Context {T : Type} {elt : Element T}.
Implicit Types (h : list (option (list (slot T)))) (blk : list (slot T)) (vm : gmap nat Vector) (s : state T) (l : list T).

Lemma rep_at_slots s this b l cap i :
  rep_at s this (Ptr b 0) l cap →
  slot_at (heap s) (Ptr b (Z.of_nat i)) =
  match l !! i with
  | Some x => Some (Obj x)
  | None => if bool_decide (i < cap) then Some Raw else None
  end.
Proof.
  intros (_ & Hle & _ & _ & Hb). rewrite (slot_at_nat _ _ _ _ Hb).
  destruct (l !! i) as [x|] eqn:Hi.
  - rewrite lookup_app_l by (rewrite length_fmap; eauto using lookup_lt_Some).
    by rewrite list_lookup_fmap, Hi.
  - apply lookup_ge_None in Hi.
    rewrite lookup_app_r by (by rewrite length_fmap).
    rewrite length_fmap. case_bool_decide.
    + apply lookup_replicate_2. lia.
    + apply lookup_ge_None. rewrite length_replicate. lia.
Qed.

Lemma rep_at_deref s this buf l cap i :
  rep_at s this buf l cap →
  deref (buf +ₚ i) s = match l !! i with Some x => Ok x s | None => Undefined end.
Proof.
  intros Hrep. destruct buf as [|b o].
  - pose proof Hrep as (_ & Hle & Hown).
    destruct (owns_nullptr _ _ _ Hle Hown) as [-> _]. by rewrite lookup_nil.
  - pose proof Hrep as (_ & _ & -> & _).
    rewrite (ptr_zero b), ptr_nat_add. cbn [Nat.add].
    unfold deref. rewrite (rep_at_slots _ _ _ _ _ _ Hrep).
    destruct (l !! i); [done|]. by case_bool_decide.
Qed.

(** [PopBack] on a vector that is not empty, with everything it does. *)
Lemma PopBack_exact s this buf l x cap :
  rep_at s this buf (l ++ [x]) cap →
  ∃ s', PopBack this s = Ok () s' ∧ rep_at s' this buf l cap ∧
        length (heap s') = length (heap s) ∧
        elsewhere_kept this buf buf s s' ∧
        calls s' = calls s ∧ constructed s' = constructed s ∧
        destroyed s' = S (destroyed s).
Proof.
  intros (Hv & Hle & Hown). destruct s as [h vm c k d].
  cbn [vecs heap calls constructed destroyed] in *.
  rewrite length_app in *. cbn [length] in *.
  destruct buf as [|b o]; [by destruct l|]. destruct Hown as (-> & _ & Hb).
  unfold PopBack. go. erewrite load_eq by done. go.
  unfold end_, GetAddress; cbn [data_ size_ buffer_].
  rewrite ptr_zero, ptr_nat_add. cbn [Nat.add].
  replace (length l + 1) with (S (length l)) by lia. rewrite ptr_nat_pred.
  rewrite fmap_app, <- app_assoc in Hb. cbn [fmap list_fmap app] in Hb.
  erewrite destroy_at_eq; [|done|by apply list_lookup_middle; rewrite length_fmap].
  rewrite insert_middle_at by (by rewrite length_fmap). go.
  eexists; split; [done|]. unfold rep_at, elsewhere_kept.
  cbn [vecs heap calls constructed destroyed].
  repeat split.
  - rewrite lookup_insert_eq. do 3 f_equal; lia.
  - lia.
  - destruct l; simpl; [|done]. destruct cap; [lia|]. done.
  - rewrite block_of_insert_eq by eauto using block_of_lt.
    do 2 f_equal. replace (cap - length l) with (S (cap - (length l + 1))) by lia. done.
  - by rewrite length_insert.
  - intros that Hne. by rewrite lookup_insert_ne.
  - by rewrite length_insert.
  - intros b' Hne _. rewrite block_of_insert_ne; [done|]. intros E. apply Hne. by rewrite E.
  - done.
  - by left.
Qed.

Lemma ptr_block_ne b b' : Ptr b 0 ≠ Ptr b' 0 → b ≠ b'.
Proof. by intros Hne ->. Qed.

Lemma construct_exact h vm c k d b (i : nat) blk args :
  block_of h b = Some blk → i < length blk →
  construct (Ptr b (Z.of_nat i)) args (mkState h vm c k d) =
  if arg_ticks args && throws c then Throw (mkState h vm (S c) k d)
  else Ok () (mkState (<[b := Some (<[i := Obj (arg_value args)]> blk)]> h) vm
                      (if arg_ticks args then S c else c) (S k) d).
Proof.
  intros Hb Hi. destruct args as [v|v]; unfold construct, tick_move, arg_ticks; cbn [arg_value].
  - rewrite bind_eq, tick_eq. cbn [andb]. destruct (throws c); [done|].
    by erewrite begin_lifetime_eq.
  - destruct is_nothrow_move_constructible_v; cbn [negb andb].
    + rewrite bind_eq, ret_eq. by erewrite begin_lifetime_eq.
    + rewrite bind_eq, tick_eq. destruct (throws c); [done|].
      by erewrite begin_lifetime_eq.
Qed.

(** [EmplaceBack] when there is room, under any pattern of throws. *)
Lemma EmplaceBack_room_exact s this buf l cap args :
  rep_at s this buf l cap → length l < cap →
  if arg_ticks args && throws (calls s) then
    ∃ s', EmplaceBack this args s = Throw s' ∧ rolled_back s s' ∧
          heap s' = heap s ∧ calls s' = S (calls s)
  else
    ∃ s', EmplaceBack this args s = Ok (buf +ₚ length l) s' ∧
          rep_at s' this buf (l ++ [arg_value args]) cap ∧
          length (heap s') = length (heap s) ∧
          elsewhere_kept this buf buf s s' ∧
          calls s' = (if arg_ticks args then S (calls s) else calls s) ∧
          constructed s' = S (constructed s) ∧ destroyed s' = destroyed s.
Proof.
  intros (Hv & Hle & Hown) Hlt. destruct s as [h vm c k d].
  cbn [vecs heap calls constructed destroyed] in *.
  unfold EmplaceBack. go. erewrite load_eq by done.
  unfold Capacity, begin, GetAddress. cbn [data_ size_ capacity_ buffer_].
  rewrite (proj2 (Nat.eqb_neq _ _)) by lia.
  destruct buf as [|b o].
  { destruct (owns_nullptr _ _ _ Hle Hown). lia. }
  destruct Hown as (-> & Hnil & Hb).
  go. rewrite RawMemory_plus_eq by (cbn [capacity_]; lia).
  cbn [buffer_]. rewrite !ptr_zero, !ptr_nat_add. cbn [Nat.add].
  go. erewrite construct_exact; [|done|].
  2:{ rewrite length_app, length_fmap, length_replicate. lia. }
  destruct (arg_ticks args && throws c) eqn:Hth.
  { eexists. split; [reflexivity|]. unfold rolled_back.
    cbn [vecs heap calls constructed destroyed]. repeat split; lia. }
  go. erewrite load_eq by done. go.
  replace (cap - length l) with (S (cap - length l - 1)) by lia. cbn [replicate].
  rewrite insert_middle_at by (by rewrite length_fmap).
  eexists. split; [reflexivity|]. unfold rep_at, elsewhere_kept.
  cbn [vecs heap data_ size_ calls constructed destroyed].
  repeat split.
  - rewrite lookup_insert_eq. rewrite length_app; simpl; do 3 f_equal; lia.
  - rewrite length_app; simpl; lia.
  - by destruct l.
  - rewrite block_of_insert_eq by eauto using block_of_lt.
    rewrite fmap_app, <- app_assoc. cbn [app fmap list_fmap].
    do 4 f_equal. rewrite length_app; simpl; lia.
  - by rewrite length_insert.
  - intros that Hne. by rewrite lookup_insert_ne.
  - by rewrite length_insert.
  - intros b' Hne%ptr_block_ne _. by rewrite block_of_insert_ne.
  - intros b' _ Hne. done.
  - by left.
Qed.

(** [EmplaceBack] on a full vector, under any pattern of throws. *)
Lemma EmplaceBack_full_exact s this buf l args :
  rep_at s this buf l (length l) →
  if arg_ticks args && throws (calls s) then
    ∃ s', EmplaceBack this args s = Throw s' ∧ rolled_back s s'
  else
    match (if ticking migrate_by_move
           then first_throw (if arg_ticks args then S (calls s) else calls s) (length l)
           else None) with
    | None =>
        ∃ s', EmplaceBack this args s = Ok (Ptr (length (heap s)) 0 +ₚ length l) s' ∧
              rep_at s' this (Ptr (length (heap s)) 0) (l ++ [arg_value args])
                     (grown (length l)) ∧
              length (heap s') = S (length (heap s)) ∧
              elsewhere_kept this buf (Ptr (length (heap s)) 0) s s' ∧
              constructed s' = constructed s + S (length l) ∧
              destroyed s' = destroyed s + length l
    | Some j =>
        ∃ s', EmplaceBack this args s = Throw s' ∧
              vecs s' = vecs s ∧
              (migrate_by_move = false → ∀ b, block_of (heap s') b = block_of (heap s) b) ∧
              constructed s' + destroyed s = S (constructed s + destroyed s')
    end.
Proof.
  intros (Hv & Hle & Hown). destruct s as [h vm c k d].
  cbn [vecs heap calls constructed destroyed] in *.
  unfold EmplaceBack. go. erewrite load_eq by done.
  unfold Capacity, begin, GetAddress. cbn [data_ size_ capacity_ buffer_].
  rewrite Nat.eqb_refl. fold (grown (length l)).
  rewrite Nat.sub_diag in Hown. cbn [replicate] in Hown. rewrite app_nil_r in Hown.
  pose proof (grown_gt (length l)) as Hgt.
  go. rewrite RawMemory_ctor_eq by apply grown_pos.
  go. rewrite RawMemory_plus_eq by (cbn [capacity_]; lia).
  cbn [buffer_]. rewrite !(ptr_zero (length h)), !ptr_nat_add. cbn [Nat.add].
  assert (Hfresh : length h < length (h ++ [Some (replicate (grown (length l)) (@Raw T))]))
    by (rewrite length_app; simpl; lia).
  go. erewrite construct_exact; [|apply block_of_fresh|by rewrite length_replicate].
  destruct (arg_ticks args && throws c) eqn:Hth.
  { unfold RawMemory_dtor, Deallocate. cbn [buffer_]. rewrite <- (ptr_zero (length h)).
    erewrite operator_delete_eq by apply block_of_fresh.
    eexists. split; [reflexivity|]. unfold rolled_back.
    cbn [vecs heap constructed destroyed]. split; [done|]. split; [|lia].
    apply heap_released. }
  rewrite insert_replicate_lt by done.
  set (c1 := if arg_ticks args then S c else c).
  go. rewrite migrate_eq.
  destruct buf as [|b o].
  - (* nothing to migrate *)
    simpl in Hown. destruct l; [|done]. cbn [length transfer_n destroy_n first_throw].
    replace (if ticking migrate_by_move then None else None) with (@None nat)
      by by destruct (ticking _).
    go. unfold RawMemory_Swap. cbn [buffer_ capacity_].
    go. unfold RawMemory_dtor, Deallocate, operator_delete.
    cbn [buffer_]. go.
    erewrite load_eq by apply lookup_insert_eq.
    go.
    eexists. split; [reflexivity|]. unfold rep_at, elsewhere_kept.
    cbn [vecs heap data_ size_ constructed destroyed].
    rewrite insert_insert_eq, lookup_insert_eq.
    repeat split; try done; try lia.
    + rewrite block_of_insert_eq by done. done.
    + rewrite length_insert, length_app; simpl; lia.
    + intros that Hne. by rewrite lookup_insert_ne.
    + rewrite length_insert, length_app; simpl; lia.
    + intros b' _ Hne%ptr_block_ne. rewrite block_of_insert_ne by done.
      destruct (decide (b' < length h)); [by rewrite block_of_app_l|].
      rewrite !block_of_ge; [done|lia|rewrite length_app; simpl; lia].
    + right. by exists (length h).
  - destruct Hown as (-> & Hnil & Hb).
    assert (Hlt : b < length h) by eauto using block_of_lt.
    rewrite (ptr_zero b).
    change (Z.of_nat 0) with (Z.of_nat (@length (slot T) [])).
    rewrite (transfer_n_eq migrate_by_move l _ vm c1 (S k) d b (length h)
               [] [] [] (replicate (length l) Raw)
               (Obj (arg_value args) :: replicate (grown (length l) - S (length l)) Raw));
      try done.
    2:{ lia. }
    2:{ by rewrite length_replicate. }
    2:{ rewrite block_of_insert_ne by lia. rewrite block_of_app_l by done.
        by rewrite app_nil_r. }
    2:{ by rewrite block_of_insert_eq. }
    cbn [app length].
    destruct (if ticking migrate_by_move then first_throw c1 (length l) else None) as [j|].
    + (* the migration throws *)
      unfold RawMemory_dtor, Deallocate. cbn [buffer_].
      erewrite operator_delete_eq.
      2:{ rewrite block_of_insert_ne by lia. apply block_of_insert_eq.
          by rewrite length_insert. }
      eexists. split; [reflexivity|]. cbn [vecs heap constructed destroyed].
      split; [done|]. split; [|lia].
      intros Hmv b'. rewrite Hmv, residue_copy, app_nil_r, <- fmap_app, take_drop.
      rewrite (list_insert_insert_ne _ (length h) b) by lia.
      rewrite !list_insert_insert_eq.
      destruct (decide (b' = b)) as [->|Hne].
      * rewrite block_of_insert_eq; [done|].
        by rewrite length_insert, length_app; simpl; lia.
      * rewrite block_of_insert_ne by done. apply heap_released.
    + go.
      erewrite (destroy_n_at (residue migrate_by_move <$> l) _ _ _ _ _ b 0 (length l) [] []);
        [|done|by rewrite length_fmap|].
      2:{ rewrite block_of_insert_eq; [by rewrite app_nil_r|].
          by rewrite !length_insert, length_app; simpl; lia. }
      go. unfold RawMemory_Swap. cbn [buffer_ capacity_].
      go. unfold RawMemory_dtor, Deallocate.
      cbn [buffer_].
      erewrite operator_delete_eq.
      2:{ apply block_of_insert_eq. by rewrite !length_insert, length_app; simpl; lia. }
      go.
      erewrite load_eq by apply lookup_insert_eq.
      go.
      eexists. split; [reflexivity|]. unfold rep_at, elsewhere_kept.
      cbn [vecs heap data_ size_ constructed destroyed].
      rewrite insert_insert_eq, lookup_insert_eq.
      rewrite !list_insert_insert_eq.
      repeat split; try done.
      * rewrite length_app; simpl; do 3 f_equal; lia.
      * rewrite length_app; simpl; lia.
      * by destruct l.
      * rewrite block_of_insert_ne by lia.
        rewrite block_of_insert_eq by done.
        rewrite fmap_app, <- app_assoc. cbn [app fmap list_fmap].
        do 4 f_equal. rewrite length_app; simpl; lia.
      * rewrite !length_insert, length_app; simpl; lia.
      * intros that Hne. by rewrite lookup_insert_ne.
      * rewrite !length_insert, length_app; simpl; lia.
      * intros b' Hne1%ptr_block_ne Hne2%ptr_block_ne. rewrite !block_of_insert_ne by done.
        destruct (decide (b' < length h)); [by rewrite block_of_app_l|].
        rewrite !block_of_ge; [done|lia|rewrite length_app; simpl; lia].
      * intros b' [= <-] _. apply block_of_insert_eq.
        rewrite length_insert, length_app; simpl; lia.
      * right. by exists (length h).
      * lia.
Qed.

Lemma heap_fresh_insert h (x y : option (list (slot T))) :
  <[length h := y]> (h ++ [x]) = h ++ [y].
Proof. by rewrite <- (Nat.add_0_r (length h)), insert_app_r. Qed.

Lemma block_of_snoc_other h x b : b ≠ length h → block_of (h ++ [x]) b = block_of h b.
Proof.
  intros Hne. destruct (decide (b < length h)); [by rewrite block_of_app_l|].
  rewrite !block_of_ge; [done|lia|rewrite length_app; simpl; lia].
Qed.

Lemma block_of_snoc_None h b : block_of (h ++ [None]) b = block_of h b.
Proof.
  destruct (decide (b = length h)) as [->|]; [|by apply block_of_snoc_other].
  by rewrite block_of_fresh, block_of_ge.
Qed.

(** [Reserve] beyond the capacity, with everything it does. *)
Lemma Reserve_exact s this buf l cap n :
  rep_at s this buf l cap → cap < n →
  match (if ticking migrate_by_move then first_throw (calls s) (length l) else None) with
  | None =>
      ∃ s', Reserve this n s = Ok () s' ∧
            rep_at s' this (Ptr (length (heap s)) 0) l n ∧
            length (heap s') = S (length (heap s)) ∧
            elsewhere_kept this buf (Ptr (length (heap s)) 0) s s' ∧
            calls s' = (if ticking migrate_by_move then calls s + length l else calls s) ∧
            constructed s' = constructed s + length l ∧
            destroyed s' = destroyed s + length l
  | Some j =>
      ∃ s', Reserve this n s = Throw s' ∧
            vecs s' = vecs s ∧
            (migrate_by_move = false → rolled_back s s') ∧
            constructed s' + destroyed s = constructed s + destroyed s'
  end.
Proof.
  intros (Hv & Hle & Hown) Hn. destruct s as [h vm c k d].
  cbn [vecs heap calls constructed destroyed] in *.
  unfold Reserve. go. erewrite load_eq by done.
  unfold Capacity, begin, GetAddress. cbn [data_ size_ capacity_ buffer_].
  rewrite (proj2 (Nat.leb_gt _ _)) by done.
  go. rewrite RawMemory_ctor_eq by lia. cbn [buffer_].
  go. rewrite migrate_eq.
  assert (Hfresh : length h < length (h ++ [Some (replicate n (@Raw T))]))
    by (rewrite length_app; simpl; lia).
  destruct buf as [|b o].
  - destruct (owns_nullptr _ _ _ Hle Hown) as [-> ->].
    cbn [length transfer_n destroy_n first_throw].
    replace (if ticking migrate_by_move then None else None) with (@None nat)
      by by destruct (ticking _).
    go. unfold RawMemory_Swap. cbn [buffer_ capacity_].
    go. unfold RawMemory_dtor, Deallocate, operator_delete. cbn [buffer_].
    eexists. split; [reflexivity|]. unfold rep_at, elsewhere_kept.
    cbn [vecs heap calls constructed destroyed].
    rewrite lookup_insert_eq.
    repeat split; try done; try lia.
    + destruct n; [lia|done].
    + rewrite block_of_fresh. simpl. by rewrite Nat.sub_0_r.
    + rewrite length_app; simpl; lia.
    + intros that Hne. by rewrite lookup_insert_ne.
    + intros b' _ Hne%ptr_block_ne. by rewrite block_of_snoc_other.
    + right. by exists (length h).
    + by destruct (ticking _); lia.
  - destruct Hown as (-> & Hnil & Hb).
    assert (Hlt : b < length h) by eauto using block_of_lt.
    rewrite !ptr_zero.
    change (Z.of_nat 0) with (Z.of_nat (@length (slot T) [])).
    rewrite (transfer_n_eq migrate_by_move l _ vm c k d b (length h)
               [] (replicate (cap - length l) Raw) [] (replicate (length l) Raw)
               (replicate (n - length l) Raw)); try done.
    2:{ lia. }
    2:{ by rewrite length_replicate. }
    2:{ by rewrite block_of_app_l. }
    2:{ rewrite block_of_fresh. cbn [app]. rewrite <- replicate_add.
        do 2 f_equal. lia. }
    cbn [app].
    destruct (if ticking migrate_by_move then first_throw c (length l) else None) as [j|].
    + unfold RawMemory_dtor, Deallocate. cbn [buffer_]. cbn [length].
      erewrite operator_delete_eq.
      2:{ rewrite block_of_insert_ne by lia. by apply block_of_insert_eq. }
      eexists. split; [reflexivity|]. cbn [vecs heap constructed destroyed].
      split; [done|]. split; [|lia]. intros Hmv. rewrite Hmv.
      unfold rolled_back. cbn [vecs heap constructed destroyed].
      split; [done|]. split; [|lia].
      intros b'. rewrite residue_copy, app_assoc, <- fmap_app, take_drop.
      rewrite (list_insert_insert_ne _ (length h) b) by lia.
      rewrite list_insert_insert_eq.
      destruct (decide (b' = b)) as [->|Hne].
      * rewrite block_of_insert_eq; [done|].
        by rewrite length_insert, length_app; simpl; lia.
      * rewrite block_of_insert_ne by done. apply heap_released.
    + go. cbn [length].
      erewrite (destroy_n_at (residue migrate_by_move <$> l) _ _ _ _ _ b 0 (length l)
                  [] (replicate (cap - length l) Raw));
        [|done|by rewrite length_fmap|].
      2:{ rewrite block_of_insert_eq; [done|].
          by rewrite !length_insert, length_app; simpl; lia. }
      go. unfold RawMemory_Swap. cbn [buffer_ capacity_].
      go. unfold RawMemory_dtor, Deallocate. cbn [buffer_].
      erewrite operator_delete_eq.
      2:{ apply block_of_insert_eq. by rewrite !length_insert, length_app; simpl; lia. }
      eexists. split; [reflexivity|]. unfold rep_at, elsewhere_kept.
      cbn [vecs heap calls constructed destroyed].
      rewrite lookup_insert_eq. rewrite !list_insert_insert_eq.
      repeat split; try done; try lia.
      * destruct n; [lia|]; by destruct l.
      * rewrite block_of_insert_ne by lia.
        by rewrite block_of_insert_eq.
      * rewrite !length_insert, length_app; simpl; lia.
      * intros that Hne. by rewrite lookup_insert_ne.
      * rewrite !length_insert, length_app; simpl; lia.
      * intros b' Hne1%ptr_block_ne Hne2%ptr_block_ne. rewrite !block_of_insert_ne by done.
        by apply block_of_snoc_other.
      * intros b' [= <-] _. apply block_of_insert_eq.
        rewrite length_insert, length_app; simpl; lia.
      * right. by exists (length h).
Qed.

(** [~Vector()] and the destructor of [data_] on a well-formed vector. *)
Lemma Vector_dtor_eq h vm c k d buf l cap :
  length l ≤ cap → owns h buf ((Obj <$> l) ++ replicate (cap - length l) Raw) →
  Vector_dtor (mkVector (mkRawMemory buf cap) (length l)) (mkState h vm c k d) =
  Ok () (mkState (match buf with nullptr => h | Ptr b _ => <[b := None]> h end)
                 vm c k (d + length l)).
Proof.
  intros Hle Hown. unfold Vector_dtor, GetAddress. cbn [data_ size_ buffer_].
  destruct buf as [|b o].
  - destruct (owns_nullptr _ _ _ Hle Hown) as [-> ->]. cbn [length destroy_n].
    go. unfold RawMemory_dtor, Deallocate, operator_delete. cbn [buffer_].
    by rewrite Nat.add_0_r.
  - destruct Hown as (-> & Hnil & Hb). go. rewrite ptr_zero.
    erewrite (destroy_n_at l _ _ _ _ _ b 0 (length l) []); [|done|done|done].
    unfold RawMemory_dtor, Deallocate. cbn [buffer_].
    erewrite operator_delete_eq by (apply block_of_insert_eq; eauto using block_of_lt).
    by rewrite list_insert_insert_eq.
Qed.

(** [Vector(const Vector&)] on a well-formed source, under any pattern of
    throws. *)
Lemma Vector_copy_eq h vm c k d buf l cap :
  length l ≤ cap → owns h buf ((Obj <$> l) ++ replicate (cap - length l) Raw) →
  Vector_copy (mkVector (mkRawMemory buf cap) (length l)) (mkState h vm c k d) =
  match l with
  | [] => Ok (mkVector (mkRawMemory nullptr 0) 0) (mkState h vm c k d)
  | _ :: _ =>
      match first_throw c (length l) with
      | None =>
          Ok (mkVector (mkRawMemory (Ptr (length h) 0) (length l)) (length l))
             (mkState (h ++ [Some (Obj <$> l)]) vm (c + length l) (k + length l) d)
      | Some j => Throw (mkState (h ++ [None]) vm (c + S j) (k + j) (d + j))
      end
  end.
Proof.
  intros Hle Hown. unfold Vector_copy, GetAddress. cbn [data_ size_ buffer_].
  destruct l as [|x l']; [done|]. set (l := x :: l') in *.
  destruct buf as [|b o]; [by destruct (owns_nullptr _ _ _ Hle Hown)|].
  destruct Hown as (-> & Hnil & Hb).
  assert (Hlt : b < length h) by eauto using block_of_lt.
  go. rewrite RawMemory_ctor_eq by done. cbn [buffer_]. go.
  rewrite transfer_n_copy. rewrite !ptr_zero.
  change (Z.of_nat 0) with (Z.of_nat (@length (slot T) [])).
  rewrite (transfer_n_eq false l _ vm c k d b (length h)
             [] (replicate (cap - length l) Raw) [] (replicate (length l) Raw) []);
    try done.
  2:{ lia. }
  2:{ by rewrite length_replicate. }
  2:{ by rewrite block_of_app_l. }
  2:{ rewrite block_of_fresh. cbn [app]. by rewrite app_nil_r. }
  cbn [ticking app].
  destruct (first_throw c (length l)) as [j|]; rewrite residue_copy, ?app_nil_r.
  - rewrite app_assoc, <- fmap_app, take_drop.
    rewrite heap_fresh_insert.
    rewrite heap_insert_id by (by rewrite block_of_app_l).
    unfold RawMemory_dtor, Deallocate. cbn [buffer_].
    erewrite operator_delete_eq by apply block_of_fresh.
    by rewrite heap_fresh_insert.
  - rewrite heap_fresh_insert.
    rewrite heap_insert_id by (by rewrite block_of_app_l).
    by go.
Qed.

(** Copy assignment of [count] objects between two blocks, under any
    pattern of throws: the assignments made before the one that throws
    stay made. *)
Lemma copy_n_eq vs : ∀ ws h vm c k d bs bd spre spost dpre dpost,
  bs ≠ bd → length ws = length vs →
  block_of h bs = Some (spre ++ (Obj <$> vs) ++ spost) →
  block_of h bd = Some (dpre ++ (Obj <$> ws) ++ dpost) →
  copy_n (Ptr bs (Z.of_nat (length spre))) (length vs)
         (Ptr bd (Z.of_nat (length dpre))) (mkState h vm c k d) =
  match first_throw c (length vs) with
  | None =>
      Ok () (mkState (<[bd := Some (dpre ++ (Obj <$> vs) ++ dpost)]> h)
                     vm (c + length vs) k d)
  | Some j =>
      Throw (mkState (<[bd := Some (dpre ++ (Obj <$> take j vs) ++
                                    (Obj <$> drop j ws) ++ dpost)]> h)
                     vm (c + S j) k d)
  end.
Proof.
  induction vs as [|v vs IH]; intros ws h vm c k d bs bd spre spost dpre dpost Hne Hlen Hs Hd.
  - destruct ws; [|done]. cbn [length copy_n first_throw]. go.
    rewrite heap_insert_id by done. by rewrite Nat.add_0_r.
  - destruct ws as [|w ws]; [done|]. injection Hlen as Hlen.
    rewrite fmap_cons, <- app_comm_cons in Hs, Hd.
    cbn [length copy_n first_throw]. unfold T_copy_assign. go.
    erewrite deref_eq; [|done|by apply list_lookup_middle].
    go. rewrite tick_eq. destruct (throws c) eqn:Hc.
    { cbn [take drop fmap list_fmap app]. rewrite ?fmap_cons.
      rewrite heap_insert_id by done. f_equal. f_equal. lia. }
    erewrite overwrite_eq; [|done|by apply list_lookup_middle].
    rewrite insert_middle, !ptr_nat_succ.
    replace (S (length spre)) with (length (spre ++ [Obj v]))
      by (rewrite length_app; simpl; lia).
    replace (S (length dpre)) with (length (dpre ++ [Obj v]))
      by (rewrite length_app; simpl; lia).
    erewrite (IH ws); [|done|done| |].
    2:{ rewrite block_of_insert_ne by done. rewrite <- app_assoc. exact Hs. }
    2:{ rewrite block_of_insert_eq by eauto using block_of_lt. by rewrite <- app_assoc. }
    destruct (first_throw (S c) (length vs)) as [j|]; cbn [fmap option_fmap option_map].
    + rewrite list_insert_insert_eq, <- !app_assoc.
      cbn [take drop fmap list_fmap app]. rewrite ?fmap_cons. cbn [app].
      do 2 f_equal; lia.
    + rewrite list_insert_insert_eq, <- !app_assoc. rewrite ?fmap_cons. cbn [app].
      do 2 f_equal; lia.
Qed.

(** A well-formed vector stays one when nothing of it is touched. *)
Lemma rep_at_kept s s' that buf l cap :
  rep_at s that buf l cap →
  vecs s' !! that = vecs s !! that →
  (∀ b, buf = Ptr b 0 → block_of (heap s') b = block_of (heap s) b) →
  rep_at s' that buf l cap.
Proof.
  intros (Hv & Hle & Hown) Hvs Hblk. split; [by rewrite Hvs|]. split; [done|].
  destruct buf as [|b o]; [done|]. destruct Hown as (-> & Hnil & Hb).
  split; [done|]. split; [done|]. by rewrite (Hblk b).
Qed.

(** The storage of a well-formed vector is an allocated block. *)
Lemma rep_at_block s this b o l cap :
  rep_at s this (Ptr b o) l cap → b < length (heap s).
Proof. intros (_ & _ & _ & _ & Hb). eauto using block_of_lt. Qed.

(** The destructor of a well-formed vector, with everything it does. *)
Lemma Vector_dtor_exact s this buf l cap :
  rep_at s this buf l cap →
  ∃ v s', load this s = Ok v s ∧ Vector_dtor v s = Ok () s' ∧
    (∀ b, buf = Ptr b 0 → block_of (heap s') b = None) ∧
    (∀ b, buf ≠ Ptr b 0 → block_of (heap s') b = block_of (heap s) b) ∧
    (∀ i, deref (buf +ₚ i) s' = Undefined) ∧
    vecs s' = vecs s ∧ calls s' = calls s ∧
    constructed s' = constructed s ∧
    destroyed s' = destroyed s + length l.
Proof.
  intros (Hv & Hle & Hown). destruct s as [h vm c k d].
  cbn [vecs heap calls constructed destroyed] in *.
  eexists _, _. split; [by apply load_eq|].
  split; [by apply Vector_dtor_eq|]. cbn [vecs heap calls constructed destroyed].
  destruct buf as [|b o]; [done|]. destruct Hown as (-> & Hnil & Hb).
  assert (Hlt : b < length h) by eauto using block_of_lt.
  repeat split.
  - intros b' [= <-]. by apply block_of_insert_eq.
  - intros b' Hne%ptr_block_ne. by rewrite block_of_insert_ne.
  - intros i. unfold deref, slot_at, ptr_add. cbn [heap].
    case_bool_decide; [|done]. by rewrite block_of_insert_eq.
Qed.

(** [Vector(const Vector&)], with everything it does. *)
Lemma Vector_ctor_copy_exact s this other buf l cap :
  this ≠ other → rep_at s other buf l cap →
  match Vector_ctor_copy this other s with
  | Ok _ s' =>
      first_throw (calls s) (length l) = None ∧
      (∃ buf', rep_at s' this buf' l (length l) ∧ apart buf' buf ∧
               (∀ b, buf' ≠ Ptr b 0 → block_of (heap s') b = block_of (heap s) b) ∧
               (∀ b, buf' = Ptr b 0 → block_of (heap s) b = None)) ∧
      rep_at s' other buf l cap ∧
      (∀ that, that ≠ this → vecs s' !! that = vecs s !! that) ∧
      length (heap s) ≤ length (heap s') ∧
      constructed s' = constructed s + length l ∧ destroyed s' = destroyed s
  | Throw s' =>
      (∃ j, first_throw (calls s) (length l) = Some j) ∧ rolled_back s s'
  | Undefined => False
  end.
Proof.
  intros Hne Hrep. pose proof Hrep as (Hv & Hle & Hown). destruct s as [h vm c k d].
  cbn [vecs heap calls constructed destroyed] in *.
  unfold Vector_ctor_copy. go. erewrite load_eq by done.
  go. rewrite Vector_copy_eq by done.
  destruct l as [|x l'].
  - go. cbn [length first_throw vecs heap calls constructed destroyed].
    split; [done|]. split; [|split; [|split; [|split; [lia|split; lia]]]].
    + exists nullptr. split; [|done]. unfold rep_at. cbn [vecs heap length].
      by rewrite lookup_insert_eq.
    + eapply rep_at_kept; [done| |done]. cbn [vecs]. by rewrite lookup_insert_ne.
    + intros that Hthat. by rewrite lookup_insert_ne.
  - set (l := x :: l') in *.
    destruct (first_throw c (length l)) as [j|].
    + split; [by eauto|]. unfold rolled_back. cbn [vecs heap constructed destroyed].
      split; [done|]. split; [|lia]. intros b. apply block_of_snoc_None.
    + go. cbn [vecs heap calls constructed destroyed].
      split; [done|]. split; [|split; [|split; [|split; [rewrite length_app; lia|split; lia]]]].
      * exists (Ptr (length h) 0). split; [|split; [|split]].
        -- unfold rep_at. cbn [vecs heap]. rewrite lookup_insert_eq.
           split; [done|]. split; [done|]. split; [done|]. split; [done|].
           by rewrite block_of_fresh, Nat.sub_diag, app_nil_r.
        -- destruct buf as [|b o]; [done|]. cbn.
           apply rep_at_block in Hrep. cbn [heap] in Hrep. lia.
        -- intros b Hb%ptr_block_ne. by apply block_of_snoc_other.
        -- intros b [= <-]. by apply block_of_ge.
      * eapply rep_at_kept; [done|cbn [vecs]; by rewrite lookup_insert_ne|].
        intros b ->. cbn [heap]. apply block_of_app_l.
        apply rep_at_block in Hrep. by cbn [heap] in Hrep.
      * intros that Hthat. by rewrite lookup_insert_ne.
Qed.

Lemma owns_snoc h x buf blk : owns h buf blk → owns (h ++ [x]) buf blk.
Proof.
  destruct buf as [|b o]; [done|]. intros (-> & Hnil & Hb).
  split; [done|]. split; [done|]. rewrite block_of_app_l; eauto using block_of_lt.
Qed.

(** Copy assignment from a vector longer than the capacity, under any
    pattern of throws: copy, swap, destroy the old elements. *)
Lemma copy_assign_reallocating s this rhs buf l cap rbuf rl rcap :
  this ≠ rhs → rep_at s this buf l cap → rep_at s rhs rbuf rl rcap →
  apart buf rbuf → cap < length rl →
  match Vector_copy_assign this rhs s with
  | Ok _ s' =>
      first_throw (calls s) (length rl) = None ∧
      rep_at s' this (Ptr (length (heap s)) 0) rl (length rl) ∧
      rep_at s' rhs rbuf rl rcap ∧
      (∀ b, buf = Ptr b 0 → block_of (heap s') b = None) ∧
      constructed s' = constructed s + length rl ∧
      destroyed s' = destroyed s + length l
  | Throw s' =>
      (∃ j, first_throw (calls s) (length rl) = Some j) ∧ rolled_back s s'
  | Undefined => False
  end.
Proof.
  intros Hne Hrep Hrrep Hapart Hcap.
  pose proof Hrep as (Hv & Hle & Hown). pose proof Hrrep as (Hrv & Hrle & Hrown).
  destruct s as [h vm c k d]. cbn [vecs heap calls constructed destroyed] in *.
  unfold Vector_copy_assign. rewrite bool_decide_true by done.
  go. erewrite load_eq by done. go. erewrite load_eq by done.
  unfold Capacity. cbn [data_ size_ capacity_].
  rewrite (proj2 (Nat.ltb_lt _ _) Hcap).
  go. rewrite Vector_copy_eq by done.
  destruct rl as [|x rl']; [simpl in Hcap; lia|]. set (rl := x :: rl') in *.
  destruct (first_throw c (length rl)) as [j|].
  { split; [by eauto|]. unfold rolled_back. cbn [vecs heap constructed destroyed].
    split; [done|]. split; [|lia]. intros b. apply block_of_snoc_None. }
  unfold Vector_Swap, RawMemory_Swap. cbn [data_ size_ buffer_ capacity_].
  go. rewrite Vector_dtor_eq; [|done|by apply owns_snoc].
  cbn [vecs heap calls constructed destroyed].
  assert (Hfresh : ∀ hh, block_of hh (length h) = Some (Obj <$> rl) →
            owns hh (Ptr (length h) 0) ((Obj <$> rl) ++ replicate (length rl - length rl) Raw)).
  { intros hh Hhh. rewrite Nat.sub_diag, app_nil_r. done. }
  split; [done|]. split; [|split; [|split; [|split; lia]]].
  - unfold rep_at. cbn [vecs heap]. rewrite lookup_insert_eq.
    split; [done|]. split; [done|]. apply Hfresh.
    destruct buf as [|b o]; [apply block_of_fresh|].
    apply rep_at_block in Hrep. cbn [heap] in Hrep.
    rewrite block_of_insert_ne by lia. apply block_of_fresh.
  - eapply rep_at_kept; [done|cbn [vecs]; by rewrite lookup_insert_ne|].
    intros rb ->. cbn [heap]. apply rep_at_block in Hrrep. cbn [heap] in Hrrep.
    destruct buf as [|b o]; [by apply block_of_app_l|].
    cbn in Hapart. rewrite block_of_insert_ne by done. by apply block_of_app_l.
  - intros b ->. apply block_of_insert_eq.
    apply rep_at_block in Hrep. cbn [heap] in Hrep. rewrite length_app. lia.
Qed.

Lemma drop_take_drop {A} (l : list A) m n :
  m ≤ n → n ≤ length l → drop m (take n l) ++ drop n l = drop m l.
Proof.
  intros Hm Hn. rewrite <- (take_drop n l) at 3.
  rewrite drop_app, length_take.
  replace (m - n `min` length l) with 0 by lia. done.
Qed.

Lemma copy_n_at vs ws h vm c k d bs bd (i j n : nat) spre spost dpre dpost :
  i = length spre → j = length dpre → n = length vs →
  bs ≠ bd → length ws = length vs →
  block_of h bs = Some (spre ++ (Obj <$> vs) ++ spost) →
  block_of h bd = Some (dpre ++ (Obj <$> ws) ++ dpost) →
  copy_n (Ptr bs (Z.of_nat i)) n (Ptr bd (Z.of_nat j)) (mkState h vm c k d) =
  match first_throw c n with
  | None =>
      Ok () (mkState (<[bd := Some (dpre ++ (Obj <$> vs) ++ dpost)]> h) vm (c + n) k d)
  | Some m =>
      Throw (mkState (<[bd := Some (dpre ++ (Obj <$> take m vs) ++
                                    (Obj <$> drop m ws) ++ dpost)]> h)
                     vm (c + S m) k d)
  end.
Proof. intros -> -> ->. apply copy_n_eq. Qed.

Lemma transfer_n_at mv vs h vm c k d bs bd (i j n : nat) spre spost dpre dmid dpost :
  i = length spre → j = length dpre → n = length vs →
  bs ≠ bd → length dmid = length vs →
  block_of h bs = Some (spre ++ (Obj <$> vs) ++ spost) →
  block_of h bd = Some (dpre ++ dmid ++ dpost) →
  transfer_n mv (Ptr bs (Z.of_nat i)) n (Ptr bd (Z.of_nat j)) (mkState h vm c k d) =
  match (if ticking mv then first_throw c n else None) with
  | None =>
      Ok () (mkState
               (<[bs := Some (spre ++ (Obj <$> (residue mv <$> vs)) ++ spost)]>
                  (<[bd := Some (dpre ++ (Obj <$> vs) ++ dpost)]> h))
               vm (if ticking mv then c + n else c) (k + n) d)
  | Some m =>
      Throw (mkState
               (<[bs := Some (spre ++ (Obj <$> (residue mv <$> take m vs))
                                   ++ (Obj <$> drop m vs) ++ spost)]>
                  (<[bd := Some (dpre ++ replicate m Raw ++ drop m dmid ++ dpost)]> h))
               vm (c + S m) (k + m) (d + m))
  end.
Proof. intros -> -> ->. apply transfer_n_eq. Qed.

(** Copy assignment in place from a vector that is not longer, under any
    pattern of throws. *)
Lemma copy_assign_shrinking s this rhs buf l cap rbuf rl rcap :
  this ≠ rhs → rep_at s this buf l cap → rep_at s rhs rbuf rl rcap →
  apart buf rbuf → length rl ≤ length l →
  match first_throw (calls s) (length rl) with
  | None =>
      ∃ s', Vector_copy_assign this rhs s = Ok () s' ∧
            rep_at s' this buf rl cap ∧ rep_at s' rhs rbuf rl rcap ∧
            length (heap s') = length (heap s) ∧
            constructed s' = constructed s ∧
            destroyed s' = destroyed s + (length l - length rl)
  | Some j =>
      ∃ s', Vector_copy_assign this rhs s = Throw s' ∧
            rep_at s' this buf (take j rl ++ drop j l) cap ∧
            rep_at s' rhs rbuf rl rcap ∧
            constructed s' = constructed s ∧ destroyed s' = destroyed s
  end.
Proof.
  intros Hne Hrep Hrrep Hapart Hlen.
  pose proof Hrep as (Hv & Hle & Hown). pose proof Hrrep as (Hrv & Hrle & Hrown).
  destruct s as [h vm c k d]. cbn [vecs heap calls constructed destroyed] in *.
  unfold Vector_copy_assign. rewrite bool_decide_true by done.
  go. erewrite load_eq by done. go. erewrite load_eq by done.
  unfold Capacity, Size, GetAddress. cbn [data_ size_ capacity_ buffer_].
  rewrite (proj2 (Nat.ltb_ge _ _)) by lia.
  destruct rl as [|x rl'].
  { (* nothing to assign *)
    cbn [length first_throw copy_n]. rewrite Nat.sub_0_r.
    destruct l as [|y l'].
    - cbn [length Nat.ltb Nat.leb Nat.sub uninitialized_copy_n]. go.
      eexists. split; [reflexivity|]. cbn [vecs heap calls constructed destroyed].
      split; [|split; [|repeat split; lia]].
      + unfold rep_at. cbn [vecs heap length]. by rewrite lookup_insert_eq.
      + eapply rep_at_kept; [done|cbn [vecs]; by rewrite lookup_insert_ne|done].
    - set (l := y :: l') in *.
      rewrite (proj2 (Nat.ltb_lt 0 (length l))) by (simpl; lia).
      destruct buf as [|b o]; [by destruct (owns_nullptr _ _ _ Hle Hown)|].
      destruct Hown as (-> & Hnil & Hb). go.
      rewrite (ptr_zero b), ptr_nat_add. cbn [Nat.add].
      erewrite (destroy_n_at l _ _ _ _ _ b 0 (length l) []); [|done|done|done].
      go. eexists. split; [reflexivity|]. cbn [vecs heap calls constructed destroyed].
      split; [|split; [|rewrite length_insert; repeat split; lia]].
      + unfold rep_at. cbn [vecs heap length]. rewrite lookup_insert_eq.
        split; [done|]. split; [lia|]. split; [done|]. split.
        * cbn [app fmap list_fmap]. rewrite Nat.sub_0_r. destruct cap; [simpl in *; lia|done].
        * rewrite block_of_insert_eq by eauto using block_of_lt.
          cbn [app fmap list_fmap]. rewrite Nat.sub_0_r, <- replicate_add.
          do 2 f_equal. lia.
      + eapply rep_at_kept; [done|cbn [vecs]; by rewrite lookup_insert_ne|].
        intros rb ->. cbn [heap]. cbn in Hapart. by rewrite block_of_insert_ne. }
  set (rl := x :: rl') in *.
  assert (Hrl : 0 < length rl) by (simpl; lia).
  destruct buf as [|b o]; [destruct (owns_nullptr _ _ _ Hle Hown) as [-> _]; simpl in *; lia|].
  destruct rbuf as [|rb ro]; [by destruct (owns_nullptr _ _ _ Hrle Hrown)|].
  destruct Hown as (-> & Hnil & Hb). destruct Hrown as (-> & Hrnil & Hrb).
  cbn in Hapart.
  assert (Hlt : b < length h) by eauto using block_of_lt.
  assert (Hb' : block_of h b = Some ([] ++ (Obj <$> take (length rl) l) ++
                  (Obj <$> drop (length rl) l) ++ replicate (cap - length l) Raw)).
  { cbn [app]. by rewrite app_assoc, <- fmap_app, take_drop. }
  assert (Hcopy : ∀ count, count = length rl →
    copy_n (Ptr rb 0) count (Ptr b 0) (mkState h vm c k d) =
    match first_throw c (length rl) with
    | None =>
        Ok () (mkState (<[b := Some ((Obj <$> rl) ++ (Obj <$> drop (length rl) l) ++
                                     replicate (cap - length l) Raw)]> h)
                       vm (c + length rl) k d)
    | Some m =>
        Throw (mkState (<[b := Some ((Obj <$> take m rl ++ drop m l) ++
                                     replicate (cap - length l) Raw)]> h)
                       vm (c + S m) k d)
    end).
  { intros count ->. rewrite (ptr_zero rb), (ptr_zero b).
    erewrite (copy_n_at rl (take (length rl) l) _ _ _ _ _ rb b 0 0 (length rl) [] _ []);
      [|done|done|done|done|rewrite length_take; lia|by rewrite app_nil_l|exact Hb'].
    destruct (first_throw c (length rl)) as [m|] eqn:Hm; [|done].
    apply first_throw_Some in Hm as (Hm & _).
    cbn [app]. do 4 f_equal.
    rewrite fmap_app, <- app_assoc. f_equal.
    rewrite app_assoc, <- fmap_app. do 2 f_equal.
    apply drop_take_drop; lia. }
  assert (Hthrow : ∀ m, first_throw c (length rl) = Some m →
    rep_at (mkState (<[b := Some ((Obj <$> take m rl ++ drop m l) ++
                                  replicate (cap - length l) Raw)]> h) vm (c + S m) k d)
           this (Ptr b 0) (take m rl ++ drop m l) cap ∧
    rep_at (mkState (<[b := Some ((Obj <$> take m rl ++ drop m l) ++
                                  replicate (cap - length l) Raw)]> h) vm (c + S m) k d)
           rhs (Ptr rb 0) rl rcap).
  { intros m Hm. apply first_throw_Some in Hm as (Hm & _).
    assert (Hmix : length (take m rl ++ drop m l) = length l)
      by (rewrite length_app, length_take, length_drop; lia).
    split.
    - unfold rep_at. cbn [vecs heap]. rewrite Hmix.
      split; [done|]. split; [done|]. split; [done|]. split.
      + destruct (take m rl ++ drop m l); [simpl in *; lia|done].
      + by rewrite block_of_insert_eq.
    - eapply rep_at_kept; [done|done|].
      intros ? [= <-]. cbn [heap]. by rewrite block_of_insert_ne. }
  destruct (decide (length rl < length l)) as [Hshort|Hsame].
  - rewrite (proj2 (Nat.ltb_lt _ _) Hshort). go. rewrite Hcopy by done.
    destruct (first_throw c (length rl)) as [m|] eqn:Hm.
    { eexists. split; [reflexivity|]. destruct (Hthrow m eq_refl). done. }
    rewrite (ptr_zero b), ptr_nat_add. cbn [Nat.add].
    erewrite (destroy_n_at (drop (length rl) l) _ _ _ _ _ b (length rl)
                (length l - length rl) (Obj <$> rl));
      [|by rewrite length_fmap|by rewrite length_drop|by rewrite block_of_insert_eq].
    rewrite list_insert_insert_eq. go.
    eexists. split; [reflexivity|]. cbn [vecs heap calls constructed destroyed].
    split; [|split; [|rewrite length_insert; repeat split; lia]].
    + unfold rep_at. cbn [vecs heap]. rewrite lookup_insert_eq.
      split; [done|]. split; [lia|]. split; [done|]. split; [done|].
      rewrite block_of_insert_eq by done. rewrite <- replicate_add.
      do 3 f_equal. lia.
    + eapply rep_at_kept; [done|cbn [vecs]; by rewrite lookup_insert_ne|].
      intros ? [= <-]. cbn [heap]. by rewrite block_of_insert_ne.
  - assert (Heq : length l = length rl) by lia.
    rewrite (proj2 (Nat.ltb_ge _ _)) by lia. go. rewrite Hcopy by done.
    destruct (first_throw c (length rl)) as [m|] eqn:Hm.
    { eexists. split; [reflexivity|]. destruct (Hthrow m eq_refl). done. }
    rewrite <- Heq, Nat.sub_diag. cbn [uninitialized_copy_n]. go.
    eexists. split; [reflexivity|]. cbn [vecs heap calls constructed destroyed].
    split; [|split; [|rewrite length_insert; repeat split; lia]].
    + unfold rep_at. cbn [vecs heap]. rewrite lookup_insert_eq.
      split; [by rewrite Heq|]. split; [lia|]. split; [done|]. split; [done|].
      rewrite block_of_insert_eq by done. rewrite drop_ge by lia.
      cbn [fmap list_fmap app]. by rewrite Heq.
    + eapply rep_at_kept; [done|cbn [vecs]; by rewrite lookup_insert_ne|].
      intros ? [= <-]. cbn [heap]. by rewrite block_of_insert_ne.
Qed.

(** Copy assignment into an empty vector that has the capacity, under any
    pattern of throws. *)
Lemma copy_assign_into_empty s this rhs buf cap rbuf rl rcap :
  this ≠ rhs → rep_at s this buf [] cap → rep_at s rhs rbuf rl rcap →
  apart buf rbuf → length rl ≤ cap →
  match first_throw (calls s) (length rl) with
  | None =>
      ∃ s', Vector_copy_assign this rhs s = Ok () s' ∧
            rep_at s' this buf rl cap ∧ rep_at s' rhs rbuf rl rcap ∧
            length (heap s') = length (heap s) ∧
            constructed s' = constructed s + length rl ∧
            destroyed s' = destroyed s
  | Some j =>
      ∃ s', Vector_copy_assign this rhs s = Throw s' ∧ rolled_back s s'
  end.
Proof.
  intros Hne Hrep Hrrep Hapart Hlen.
  destruct rl as [|x rl'].
  { pose proof (copy_assign_shrinking s this rhs buf [] cap rbuf [] rcap Hne Hrep Hrrep
                  Hapart (Nat.le_refl _)) as H.
    cbn [length first_throw] in *. destruct H as (s' & E & H1 & H2 & H3 & H4 & H5).
    exists s'. split; [done|]. split; [done|]. split; [done|]. split; [done|]. split; lia. }
  set (rl := x :: rl') in *.
  pose proof Hrep as (Hv & Hle & Hown). pose proof Hrrep as (Hrv & Hrle & Hrown).
  destruct s as [h vm c k d]. cbn [vecs heap calls constructed destroyed length] in *.
  destruct buf as [|b o]; [destruct (owns_nullptr _ [] _ Hle Hown) as [_ ->]; simpl in *; lia|].
  destruct rbuf as [|rb ro]; [by destruct (owns_nullptr _ _ _ Hrle Hrown)|].
  destruct Hown as (-> & Hnil & Hb). destruct Hrown as (-> & Hrnil & Hrb).
  cbn in Hapart. cbn [fmap list_fmap app] in Hb. rewrite Nat.sub_0_r in Hb.
  assert (Hlt : b < length h) by eauto using block_of_lt.
  unfold Vector_copy_assign. rewrite bool_decide_true by done.
  go. erewrite load_eq by done. go. erewrite load_eq by done.
  unfold Capacity, Size, GetAddress. cbn [data_ size_ capacity_ buffer_].
  rewrite (proj2 (Nat.ltb_ge _ _)) by lia.
  rewrite (proj2 (Nat.ltb_ge (length rl) 0)) by lia.
  cbn [copy_n]. go. rewrite Nat.sub_0_r, transfer_n_copy.
  rewrite (ptr_zero rb), (ptr_zero b).
  erewrite (transfer_n_at false rl _ _ _ _ _ rb b 0 0 (length rl) [] _ []
              (replicate (length rl) Raw) (replicate (cap - length rl) Raw));
    [|done|done|done|done|by rewrite length_replicate|by rewrite app_nil_l|].
  2:{ rewrite Hb. cbn [app]. rewrite <- replicate_add. do 2 f_equal. lia. }
  cbn [ticking app].
  destruct (first_throw c (length rl)) as [j|] eqn:Hj; rewrite residue_copy.
  - apply first_throw_Some in Hj as (Hj & _).
    eexists. split; [reflexivity|]. unfold rolled_back.
    cbn [vecs heap constructed destroyed]. split; [done|]. split; [|lia].
    intros b'. rewrite app_assoc, <- fmap_app, take_drop.
    rewrite heap_insert_id.
    2:{ by rewrite block_of_insert_ne. }
    rewrite drop_replicate, <- !replicate_add.
    replace (j + (length rl - j + (cap - length rl))) with cap by lia.
    by rewrite heap_insert_id.
  - go. rewrite heap_insert_id by (by rewrite block_of_insert_ne).
    eexists. split; [reflexivity|]. cbn [vecs heap calls constructed destroyed].
    split; [|split; [|rewrite length_insert; repeat split; lia]].
    + unfold rep_at. cbn [vecs heap]. rewrite lookup_insert_eq.
      split; [done|]. split; [done|]. split; [done|]. split; [done|].
      by rewrite block_of_insert_eq.
    + eapply rep_at_kept; [done|cbn [vecs]; by rewrite lookup_insert_ne|].
      intros ? [= <-]. cbn [heap]. by rewrite block_of_insert_ne.
Qed.

Lemma slots_lookup h b l cap i :
  length l ≤ cap →
  block_of h b = Some ((Obj <$> l) ++ replicate (cap - length l) Raw) →
  slot_at h (Ptr b (Z.of_nat i)) =
  match l !! i with
  | Some x => Some (Obj x)
  | None => if bool_decide (i < cap) then Some Raw else None
  end.
Proof.
  intros Hle Hb. rewrite (slot_at_nat _ _ _ _ Hb).
  destruct (l !! i) as [x|] eqn:Hi.
  - rewrite lookup_app_l by (rewrite length_fmap; eauto using lookup_lt_Some).
    by rewrite list_lookup_fmap, Hi.
  - apply lookup_ge_None in Hi.
    rewrite lookup_app_r by (by rewrite length_fmap).
    rewrite length_fmap. case_bool_decide.
    + apply lookup_replicate_2. lia.
    + apply lookup_ge_None. rewrite length_replicate. lia.
Qed.

(** [operator[]] on any vector object, well-formed or not. *)
Lemma Vector_at_eq s this v i :
  vecs s !! this = Some v →
  Vector_at this i s =
  if (i <? size_ v) && (i <? capacity_ (data_ v))
  then deref (buffer_ (data_ v) +ₚ i) s else Undefined.
Proof.
  intros Hv. destruct s as [h vm c k d]. cbn [vecs] in Hv.
  unfold Vector_at, Vector_index, RawMemory_index, assert. go.
  erewrite load_eq by done.
  destruct (i <? size_ v); [|done]. go. cbn [andb].
  destruct (i <? capacity_ (data_ v)); [|done]. by go.
Qed.

Lemma uninitialized_value_construct_n_at n h vm c k d b (i : nat) pre mid post :
  i = length pre → length mid = n →
  block_of h b = Some (pre ++ mid ++ post) →
  uninitialized_value_construct_n (Ptr b (Z.of_nat i)) n (mkState h vm c k d) =
  match first_throw c n with
  | None =>
      Ok () (mkState (<[b := Some (pre ++ replicate n (Obj value_init) ++ post)]> h)
                     vm (c + n) (k + n) d)
  | Some j =>
      Throw (mkState (<[b := Some (pre ++ replicate j Raw ++ drop j mid ++ post)]> h)
                     vm (c + S j) (k + j) (d + j))
  end.
Proof. intros ->. apply uninitialized_value_construct_n_eq. Qed.

(** The second half of a growing [Resize]: value-initialising the new
    elements at the end of a vector that has the capacity for them. *)
Lemma Resize_fill s this buf l cap n :
  rep_at s this buf l cap → length l ≤ n → n ≤ cap →
  match first_throw (calls s) (n - length l) with
  | None =>
      ∃ s', ((self' ← load this;
              uninitialized_value_construct_n (end_ self') (n - size_ self'));;
             self'' ← load this;
             store this (mkVector (data_ self'') n)) s = Ok () s' ∧
            rep_at s' this buf (l ++ replicate (n - length l) value_init) cap ∧
            length (heap s') = length (heap s) ∧
            constructed s' = constructed s + (n - length l) ∧
            destroyed s' = destroyed s
  | Some j =>
      ∃ s', ((self' ← load this;
              uninitialized_value_construct_n (end_ self') (n - size_ self'));;
             self'' ← load this;
             store this (mkVector (data_ self'') n)) s = Throw s' ∧
            rep_at s' this buf l cap ∧
            constructed s' + destroyed s = constructed s + destroyed s'
  end.
Proof.
  intros Hrep Hn Hcap. pose proof Hrep as (Hv & Hle & Hown).
  destruct s as [h vm c k d]. cbn [vecs heap calls constructed destroyed] in *.
  go. erewrite load_eq by done. unfold end_, GetAddress. cbn [data_ size_ buffer_].
  destruct buf as [|b o].
  { destruct (owns_nullptr _ _ _ Hle Hown) as [-> ->].
    replace n with 0 by lia. cbn [length Nat.sub first_throw uninitialized_value_construct_n].
    go. erewrite load_eq by done. go. eexists. split; [reflexivity|].
    cbn [vecs heap calls constructed destroyed].
    split; [|repeat split; lia]. unfold rep_at. cbn [vecs heap].
    by rewrite lookup_insert_eq. }
  destruct Hown as (-> & Hnil & Hb).
  assert (Hlt : b < length h) by eauto using block_of_lt.
  rewrite (ptr_zero b), ptr_nat_add. cbn [Nat.add].
  go.
  erewrite (uninitialized_value_construct_n_at (n - length l) _ _ _ _ _ b (length l)
              (Obj <$> l) (replicate (n - length l) Raw) (replicate (cap - n) Raw));
    [|by rewrite length_fmap|by rewrite length_replicate|].
  2:{ rewrite Hb. rewrite <- replicate_add. do 3 f_equal. lia. }
  destruct (first_throw c (n - length l)) as [j|] eqn:Hj.
  - apply first_throw_Some in Hj as (Hj & _).
    eexists. split; [reflexivity|]. cbn [vecs heap calls constructed destroyed].
    split; [|lia]. eapply rep_at_kept; [done|done|].
    intros ? [= <-]. cbn [heap]. rewrite block_of_insert_eq by done.
    rewrite Hb. do 2 f_equal. rewrite drop_replicate, <- !replicate_add. f_equal. lia.
  - go. erewrite load_eq by done. go.
    eexists. split; [reflexivity|]. cbn [vecs heap calls constructed destroyed].
    split; [|rewrite length_insert; repeat split; lia].
    unfold rep_at. cbn [vecs heap]. rewrite lookup_insert_eq.
    rewrite length_app, length_replicate.
    replace (length l + (n - length l)) with n by lia.
    split; [done|]. split; [lia|]. split; [done|]. split.
    + intros E. apply Hnil. apply (f_equal length) in E. apply nil_length_inv.
      rewrite !length_app, !length_fmap, ?length_app, !length_replicate in *.
      simpl in E. lia.
    + rewrite block_of_insert_eq by done. rewrite fmap_app, fmap_replicate, <- app_assoc.
      done.
Qed.

Lemma bind_assoc_eq {A B C} (m : M T A) (f : A → M T B) (g : B → M T C) s :
  ((m ≫= f) ≫= g) s = (m ≫= (λ a, f a ≫= g)) s.
Proof. rewrite !bind_eq. by destruct (m s). Qed.

(** [Resize] to a size that is not smaller, under any pattern of throws:
    first the migration of [Reserve] may throw, then the construction of
    the new elements. *)
Lemma Resize_growing s this buf l cap n :
  rep_at s this buf l cap → length l ≤ n →
  match (if (cap <? n) && ticking migrate_by_move
         then first_throw (calls s) (length l) else None) with
  | Some j =>
      ∃ s', Resize this n s = Throw s' ∧ 0 < length l ∧
            (migrate_by_move = false → rolled_back s s')
  | None =>
      match first_throw (if (cap <? n) && ticking migrate_by_move
                         then calls s + length l else calls s) (n - length l) with
      | None =>
          ∃ s' buf', Resize this n s = Ok () s' ∧
            rep_at s' this buf' (l ++ replicate (n - length l) value_init) (n `max` cap) ∧
            (n ≤ cap → buf' = buf ∧ length (heap s') = length (heap s)) ∧
            constructed s' + destroyed s = constructed s + destroyed s' + (n - length l)
      | Some j =>
          ∃ s' buf', Resize this n s = Throw s' ∧ length l < n ∧
            rep_at s' this buf' l (n `max` cap) ∧
            constructed s' + destroyed s = constructed s + destroyed s'
      end
  end.
Proof.
  intros Hrep Hn. pose proof Hrep as (Hv & Hle & Hown).
  assert (E : Resize this n s =
    (Reserve this n ≫= λ _,
     (self' ← load this;
      uninitialized_value_construct_n (end_ self') (n - size_ self'));;
     self'' ← load this;
     store this (mkVector (data_ self'') n)) s).
  { destruct s as [h vm c k d]. cbn [vecs] in Hv. unfold Resize.
    rewrite bind_eq. erewrite load_eq by done. cbn [size_].
    rewrite (proj2 (Nat.ltb_ge _ _) Hn). apply bind_assoc_eq. }
  rewrite E. clear E. rewrite bind_eq.
  destruct (decide (n ≤ cap)) as [Hcap|Hcap].
  - rewrite (proj2 (Nat.ltb_ge _ _) Hcap). cbn [andb].
    rewrite (Reserve_noop _ _ _ _ Hv) by done.
    pose proof (Resize_fill _ _ _ _ _ n Hrep Hn Hcap) as Hfill.
    rewrite Nat.max_r by done.
    destruct (first_throw (calls s) (n - length l)) as [j|] eqn:Hj.
    + destruct Hfill as (s' & -> & Hrep' & Hcnt).
      apply first_throw_Some in Hj as (Hj & _).
      exists s', buf. split; [done|]. split; [lia|done].
    + destruct Hfill as (s' & -> & Hrep' & Hh & Hk & Hd).
      exists s', buf. split; [done|]. split; [done|]. split; [done|lia].
  - rewrite (proj2 (Nat.ltb_lt cap n)) by lia. cbn [andb].
    pose proof (Reserve_exact _ _ _ _ _ n Hrep ltac:(lia)) as Hres.
    destruct (ticking migrate_by_move) eqn:Htk.
    + destruct (first_throw (calls s) (length l)) as [j|] eqn:Hj.
      * destruct Hres as (s1 & -> & Hvs & Hroll & Hcnt).
        apply first_throw_Some in Hj as (Hj & _).
        exists s1. split; [done|]. split; [lia|done].
      * destruct Hres as (s1 & -> & Hrep1 & Hh1 & Hkept & Hc1 & Hk1 & Hd1).
        pose proof (Resize_fill _ _ _ _ _ n Hrep1 Hn (Nat.le_refl _)) as Hfill.
        rewrite Hc1 in Hfill. rewrite Nat.max_l by lia.
        destruct (first_throw (calls s + length l) (n - length l)) as [j'|] eqn:Hj'.
        -- destruct Hfill as (s' & -> & Hrep' & Hcnt).
           apply first_throw_Some in Hj' as (Hj' & _).
           exists s', (Ptr (length (heap s)) 0). split; [done|]. split; [lia|].
           split; [done|lia].
        -- destruct Hfill as (s' & -> & Hrep' & Hh & Hk & Hd).
           exists s', (Ptr (length (heap s)) 0). split; [done|]. split; [done|].
           split; [lia|lia].
    + destruct Hres as (s1 & -> & Hrep1 & Hh1 & Hkept & Hc1 & Hk1 & Hd1).
      pose proof (Resize_fill _ _ _ _ _ n Hrep1 Hn (Nat.le_refl _)) as Hfill.
      rewrite Hc1 in Hfill. rewrite Nat.max_l by lia.
      destruct (first_throw (calls s) (n - length l)) as [j'|] eqn:Hj'.
      * destruct Hfill as (s' & -> & Hrep' & Hcnt).
        apply first_throw_Some in Hj' as (Hj' & _).
        exists s', (Ptr (length (heap s)) 0). split; [done|]. split; [lia|].
        split; [done|lia].
      * destruct Hfill as (s' & -> & Hrep' & Hh & Hk & Hd).
        exists s', (Ptr (length (heap s)) 0). split; [done|]. split; [done|].
        split; [lia|lia].
Qed.

(** [Resize] to a smaller size, under any pattern of throws. *)
Lemma Resize_shrinking s this buf l cap n :
  rep_at s this buf l cap → n < length l →
  ∃ s', Resize this n s = Ok () s' ∧ rep_at s' this buf (take n l) cap ∧
        length (heap s') = length (heap s) ∧ calls s' = calls s ∧
        constructed s' = constructed s ∧
        destroyed s' = destroyed s + (length l - n).
Proof.
  intros (Hv & Hle & Hown) Hn. destruct s as [h vm c k d].
  cbn [vecs heap calls constructed destroyed] in *.
  destruct buf as [|b o]; [destruct (owns_nullptr _ _ _ Hle Hown) as [-> _]; simpl in *; lia|].
  destruct Hown as (-> & Hnil & Hb).
  assert (Hlt : b < length h) by eauto using block_of_lt.
  unfold Resize. go. erewrite load_eq by done. cbn [size_].
  rewrite (proj2 (Nat.ltb_lt _ _) Hn). unfold begin, GetAddress. cbn [data_ buffer_].
  go. rewrite (ptr_zero b), ptr_nat_add. cbn [Nat.add].
  erewrite (destroy_n_at (drop n l) _ _ _ _ _ b n (length l - n) (Obj <$> take n l));
    [|rewrite length_fmap, length_take; lia|by rewrite length_drop|].
  2:{ by rewrite app_assoc, <- fmap_app, take_drop. }
  go. erewrite load_eq by done. go.
  eexists. split; [reflexivity|]. cbn [vecs heap calls constructed destroyed].
  split; [|rewrite length_insert; repeat split; lia].
  unfold rep_at. cbn [vecs heap data_]. rewrite lookup_insert_eq, length_take.
  replace (n `min` length l) with n by lia.
  split; [done|]. split; [lia|]. split; [done|]. split.
  - intros E. apply Hnil. apply (f_equal length) in E. apply nil_length_inv.
    rewrite !length_app, !length_fmap, ?length_take, !length_replicate in *.
    simpl in E. lia.
  - rewrite block_of_insert_eq by done. rewrite <- replicate_add.
    do 3 f_equal. lia.
Qed.

Lemma rolled_back_rep_at s s' this buf l cap :
  rolled_back s s' → rep_at s this buf l cap → rep_at s' this buf l cap.
Proof.
  intros (Hvs & Hblk & _) Hrep. eapply rep_at_kept; [done|by rewrite Hvs|by intros].
Qed.

Lemma migration_cases :
  is_copy_constructible_v = true ∨ is_nothrow_move_constructible_v = true →
  ticking migrate_by_move = false ∨ migrate_by_move = false.
Proof.
  unfold ticking, migrate_by_move.
  destruct is_nothrow_move_constructible_v, is_copy_constructible_v; cbn; intuition.
Qed.

Lemma elsewhere_kept_refl this buf s : elsewhere_kept this buf buf s s.
Proof. unfold elsewhere_kept. repeat split; try done. by left. Qed.

Lemma elsewhere_kept_trans this buf1 buf2 buf3 s1 s2 s3 l cap :
  rep_at s1 this buf1 l cap →
  elsewhere_kept this buf1 buf2 s1 s2 → elsewhere_kept this buf2 buf3 s2 s3 →
  elsewhere_kept this buf1 buf3 s1 s3.
Proof.
  intros Hrep (Hv1 & Hl1 & Hf1 & Hr1 & Hn1) (Hv2 & Hl2 & Hf2 & Hr2 & Hn2).
  assert (Hold : ∀ b, buf1 = Ptr b 0 → b < length (heap s1)).
  { intros b ->. by eapply rep_at_block. }
  unfold elsewhere_kept. split; [|split; [lia|split; [|split]]].
  - intros that Hne. by rewrite Hv2, Hv1.
  - intros b Hb1 Hb3. destruct (decide (buf2 = Ptr b 0)) as [E|Hb2].
    + rewrite (Hr2 b E) by congruence.
      destruct Hn1 as [->|(b' & -> & Hb')]; [done|].
      injection E as <-. by rewrite block_of_ge.
    + by rewrite Hf2, Hf1.
  - intros b Hb1 Hne. destruct (decide (buf2 = buf1)) as [->|Hne2].
    + by apply Hr2.
    + rewrite Hf2; [by apply Hr1|congruence|congruence].
  - destruct Hn2 as [->|(b' & -> & Hb')]; [done|]. right. exists b'. split; [done|lia].
Qed.

(** Another well-formed vector, in another block, is not affected. *)
Lemma elsewhere_kept_rep_at this that buf buf' obuf s s' ol ocap :
  that ≠ this → apart buf obuf → rep_at s that obuf ol ocap →
  elsewhere_kept this buf buf' s s' →
  rep_at s' that obuf ol ocap ∧ apart buf' obuf.
Proof.
  intros Hne Hapart Hrep (Hv & Hl & Hf & Hr & Hn).
  assert (Hap' : apart buf' obuf).
  { destruct Hn as [->|(b' & -> & Hb')]; [done|].
    destruct obuf as [|ob oo]; [done|]. cbn. apply rep_at_block in Hrep. lia. }
  split; [|done]. eapply rep_at_kept; [done|by apply Hv|].
  intros ob ->. apply Hf.
  - destruct buf as [|b o]; [done|]. cbn in Hapart. congruence.
  - destruct buf' as [|b o]; [done|]. cbn in Hap'. congruence.
Qed.

Lemma arg_ticks_quiet (args : @ctor_args T) c :
  quiet → arg_ticks args && throws c = false.
Proof. intros Hq. rewrite Hq. apply andb_false_r. Qed.

(** One [PushBack] or [PopBack], with everything it does. *)
Lemma exec_exact s this buf l cap o l' :
  quiet → rep_at s this buf l cap → survivors l [o] = Some l' →
  ∃ s' buf', exec this o s = Ok () s' ∧
    rep_at s' this buf' l' (if bool_decide (length l < length l' ∧ length l = cap)
                            then grown cap else cap) ∧
    elsewhere_kept this buf buf' s s' ∧
    length (heap s') = (if bool_decide (length l < length l' ∧ length l = cap)
                        then S (length (heap s)) else length (heap s)) ∧
    constructed s' + destroyed s + length l = constructed s + destroyed s' + length l'.
Proof.
  intros Hq Hrep Hsurv. pose proof Hrep as (_ & Hle & _).
  assert (Hpush : ∀ args, l' = l ++ [arg_value args] →
    ∃ s' buf', (EmplaceBack this args;; mret ()) s = Ok () s' ∧
      rep_at s' this buf' l' (if bool_decide (length l < length l' ∧ length l = cap)
                              then grown cap else cap) ∧
      elsewhere_kept this buf buf' s s' ∧
      length (heap s') = (if bool_decide (length l < length l' ∧ length l = cap)
                          then S (length (heap s)) else length (heap s)) ∧
      constructed s' + destroyed s + length l = constructed s + destroyed s' + length l').
  { intros args ->. rewrite length_app. cbn [length]. go.
    destruct (decide (length l = cap)) as [<-|Hne].
    - rewrite bool_decide_true by lia.
      pose proof (EmplaceBack_full_exact _ _ _ _ args Hrep) as H.
      rewrite arg_ticks_quiet, first_throw_quiet in H by done.
      replace (if ticking migrate_by_move then None else None) with (@None nat) in H
        by by destruct (ticking _).
      destruct H as (s' & -> & Hrep' & Hh & Hkept & Hk & Hd).
      exists s', (Ptr (length (heap s)) 0). go.
      split; [done|]. split; [done|]. split; [done|]. split; [done|lia].
    - rewrite bool_decide_false by lia.
      pose proof (EmplaceBack_room_exact _ _ _ _ _ args Hrep ltac:(lia)) as H.
      rewrite arg_ticks_quiet in H by done.
      destruct H as (s' & -> & Hrep' & Hh & Hkept & _ & Hk & Hd).
      exists s', buf. go.
      split; [done|]. split; [done|]. split; [done|]. split; [done|lia]. }
  destruct o as [v|v|]; cbn [survivors exec] in *.
  - injection Hsurv as <-. by apply (Hpush (copy_arg v)).
  - injection Hsurv as <-. by apply (Hpush (move_arg v)).
  - destruct l as [|x l0 _] using rev_ind; [done|].
    assert (l' = l0) as ->.
    { destruct (l0 ++ [x]) eqn:E; [by destruct l0|]. rewrite <- E in Hsurv.
      rewrite removelast_last in Hsurv. by injection Hsurv. }
    rewrite length_app. cbn [length]. rewrite bool_decide_false by lia.
    destruct (PopBack_exact _ _ _ _ _ _ Hrep) as (s' & E & Hrep' & Hh & Hkept & _ & Hk & Hd).
    exists s', buf. split; [done|]. split; [done|]. split; [done|]. split; [done|lia].
Qed.

(** A sequence of [PushBack] and [PopBack], with everything it does. *)
Lemma run_exact ops : ∀ s this buf l cap l',
  quiet → rep_at s this buf l cap → survivors l ops = Some l' →
  ∃ s' buf' cap', run this ops s = Ok () s' ∧ rep_at s' this buf' l' cap' ∧
    elsewhere_kept this buf buf' s s' ∧
    constructed s' + destroyed s + length l = constructed s + destroyed s' + length l'.
Proof.
  induction ops as [|o ops IH]; intros s this buf l cap l' Hq Hrep Hs.
  - injection Hs as <-. exists s, buf, cap.
    split; [done|]. split; [done|]. split; [apply elsewhere_kept_refl|done].
  - assert (∃ l1, survivors l [o] = Some l1 ∧ survivors l1 ops = Some l') as (l1 & H1 & H2).
    { destruct o as [v|v|]; simpl in *; eauto. destruct l; [done|]. eauto. }
    destruct (exec_exact _ _ _ _ _ _ _ Hq Hrep H1) as (s1 & buf1 & E1 & Hrep1 & Hk1 & _ & Hc1).
    destruct (IH _ _ _ _ _ _ Hq Hrep1 H2) as (s2 & buf2 & cap2 & E2 & Hrep2 & Hk2 & Hc2).
    exists s2, buf2, cap2. split; [cbn [run]; go; by rewrite E1|].
    split; [done|]. split; [by eapply elsewhere_kept_trans|lia].
Qed.

Lemma run_snoc this ops o s :
  run this (ops ++ [o]) s = (run this ops;; exec this o) s.
Proof.
  revert s. induction ops as [|o' ops IH]; intros s; cbn [app run].
  - go. destruct (exec this o s) as [[] ?| |]; by go.
  - rewrite bind_assoc_eq. go. destruct (exec this o' s); [|done|done]. apply IH.
Qed.

Lemma grown_pow2 e : grown (2 ^ e) = 2 ^ S e.
Proof.
  unfold grown. pose proof (Nat.pow_nonzero 2 e ltac:(lia)) as Hnz.
  rewrite (proj2 (Nat.eqb_neq _ _) Hnz). cbn [negb]. rewrite Nat.pow_succ_r'. lia.
Qed.

(** The elements a vector holds go with its [Vector] object: what is said
    of the object at [that] in [s] holds of an object with the same members
    at [this] in [s'] when the block is the same. *)
Lemma rep_at_moved s s' this that buf l cap :
  rep_at s that buf l cap →
  vecs s' !! this = vecs s !! that →
  (∀ b, buf = Ptr b 0 → block_of (heap s') b = block_of (heap s) b) →
  rep_at s' this buf l cap.
Proof.
  intros (Hv & Hle & Hown) Hvs Hblk. split; [by rewrite Hvs|]. split; [done|].
  destruct buf as [|b o]; [done|]. destruct Hown as (-> & Hnil & Hb).
  split; [done|]. split; [done|]. by rewrite (Hblk b).
Qed.

(** A block written back with what it held, beside a block acquired and
    released again: the store is as it was. *)
Lemma heap_restored h b blk x b' :
  block_of h b = Some blk →
  block_of (<[b := Some blk]> (<[length h := None]> (h ++ [x]))) b' = block_of h b'.
Proof.
  intros Hb. assert (b < length h) by eauto using block_of_lt.
  destruct (decide (b' = b)) as [->|Hne].
  - rewrite block_of_insert_eq; [done|]. rewrite length_insert, length_app. lia.
  - rewrite block_of_insert_ne by done. apply heap_released.
Qed.

End Effects.

(** ** What the member functions guarantee *)

Section Guarantees.
Context {T : Type} {elt : Element T}.
Implicit Types (h : list (option (list (slot T)))) (blk : list (slot T)) (vm : gmap nat Vector) (s : state T) (l : list T).

(** X1. [operator[]] on a well-formed vector reads exactly its elements:
    an index below the size yields the element at that index and changes
    nothing; any other index fails the [assert], so the call has no defined
    behaviour. *)
Theorem Vector_at_bounds s this buf l cap i :
  rep_at s this buf l cap →
  Vector_at this i s = match l !! i with Some x => Ok x s | None => Undefined end.
Proof.
  intros Hrep. destruct (l !! i) as [x|] eqn:Hi.
  - by eapply rep_at_Vector_at.
  - apply lookup_ge_None in Hi. destruct Hrep as (Hv & _).
    destruct s as [h vm c k d]. cbn [vecs] in Hv.
    unfold Vector_at, Vector_index. go. erewrite load_eq by done. cbn [size_].
    go. unfold assert. by rewrite (proj2 (Nat.ltb_ge _ _) Hi).
Qed.

(** X2. The iterators of a well-formed vector: [begin()] is the start of
    the storage, [cbegin()] and [cend()] are [begin()] and [end()],
    [end() - begin()] is the size, dereferencing [begin() + i] for [i]
    below the size yields the [i]-th element, and [end()] or anything
    beyond it cannot be dereferenced. *)
Theorem iterator_range s this buf l cap :
  rep_at s this buf l cap →
  ∃ v, load this s = Ok v s ∧
    begin v = buf ∧ cbegin v = begin v ∧ cend v = end_ v ∧
    ptr_diff (end_ v) (begin v) = Z.of_nat (length l) ∧
    ptr_leb (begin v) (end_ v) = true ∧
    (∀ i x, l !! i = Some x → deref (begin v +ₚ i) s = Ok x s) ∧
    (∀ i, deref (end_ v +ₚ i) s = Undefined).
Proof.
  intros Hrep. pose proof Hrep as (Hv & Hle & Hown).
  eexists. split; [unfold load; by rewrite Hv|].
  unfold begin, cbegin, cend, end_, GetAddress. cbn [data_ size_ buffer_].
  split; [done|]. split; [done|]. split; [done|].
  split; [|split; [|split]].
  - destruct buf as [|b o].
    + by destruct (owns_nullptr _ _ _ Hle Hown) as [-> _].
    + destruct Hown as (-> & _). unfold ptr_add, ptr_diff. lia.
  - destruct buf as [|b o]; [done|]. destruct Hown as (-> & _).
    rewrite (ptr_zero b), ptr_nat_add, ptr_leb_nat. apply bool_decide_true. lia.
  - intros i x Hi. by rewrite (rep_at_deref _ _ _ _ _ _ Hrep), Hi.
  - intros i. destruct buf as [|b o]; [done|]. pose proof Hown as (-> & _).
    rewrite (ptr_zero b), !ptr_nat_add. cbn [Nat.add].
    rewrite <- (Nat.add_0_l (length l + i)), <- ptr_nat_add, <- (ptr_zero b).
    rewrite (rep_at_deref _ _ _ _ _ _ Hrep).
    by rewrite lookup_ge_None_2 by lia.
Qed.

(** X3. [PopBack] on an empty vector has no defined behaviour, since
    [end() - 1] is not the address of an element.  On a vector that is not
    empty it removes the last element whatever the element type does:
    exactly one destructor runs, nothing is constructed, no element
    operation that may throw is invoked, and storage and capacity stay as
    they are. *)
Theorem PopBack_cases s this buf l cap :
  rep_at s this buf l cap →
  (l = [] → PopBack this s = Undefined) ∧
  (l ≠ [] →
   ∃ s', PopBack this s = Ok () s' ∧ rep_at s' this buf (removelast l) cap ∧
         length (heap s') = length (heap s) ∧
         calls s' = calls s ∧ constructed s' = constructed s ∧
         destroyed s' = S (destroyed s)).
Proof.
  intros Hrep. split.
  - intros ->. destruct Hrep as (Hv & Hle & Hown). destruct s as [h vm c k d].
    cbn [vecs heap length] in *.
    unfold PopBack. go. erewrite load_eq by done. go.
    unfold end_, GetAddress; cbn [data_ size_ buffer_].
    destruct buf as [|b o]; [done|]. destruct Hown as (-> & _).
    unfold destroy_at, slot_at, ptr_add. cbn [heap].
    by rewrite bool_decide_false by lia.
  - intros Hne. destruct l as [|x l0 _] using rev_ind; [done|].
    rewrite removelast_last.
    destruct (PopBack_exact _ _ _ _ _ _ Hrep) as (s' & E & Hrep' & Hh & _ & Hc).
    eauto 10.
Qed.

(** X4. [Emplace] (so [Insert]) and [Erase] check their position: a
    position that is not [begin() + i] with [i <= size] for [Emplace], or
    with [i < size] for [Erase] (so [end()], and any position of an empty
    vector), fails the [assert]. *)
Theorem position_asserts s this buf l cap pos args :
  rep_at s this buf l cap →
  ((∀ i, i ≤ length l → pos ≠ buf +ₚ i) → Emplace this pos args s = Undefined) ∧
  ((∀ i, i < length l → pos ≠ buf +ₚ i) → Erase this pos s = Undefined).
Proof.
  intros (Hv & Hle & Hown). destruct s as [h vm c k d]. cbn [vecs heap] in *.
  split; intros Hpos.
  - unfold Emplace. go. erewrite load_eq by done.
    unfold begin, end_, GetAddress. cbn [data_ size_ buffer_].
    enough (ptr_leb buf pos && ptr_leb pos (buf +ₚ length l) = false) as -> by done.
    destruct buf as [|b o], pos as [|b' o']; try done.
    { by specialize (Hpos 0 (Nat.le_0_l _)). }
    destruct Hown as (-> & _). unfold ptr_add, ptr_leb.
    apply andb_false_iff.
    destruct (decide (b = b')) as [<-|]; [|left; by rewrite bool_decide_false].
    destruct (decide (0 ≤ o')%Z); [|left; rewrite (bool_decide_false (0 ≤ o')%Z) by done; apply andb_false_r].
    right. rewrite (bool_decide_false (o' ≤ _)%Z); [apply andb_false_r|].
    intros Ho. apply (Hpos (Z.to_nat o')); [lia|].
    unfold ptr_add. f_equal. lia.
  - unfold Erase. go. erewrite load_eq by done.
    unfold begin, end_, GetAddress. cbn [data_ size_ buffer_].
    enough (ptr_leb buf pos && ptr_ltb pos (buf +ₚ length l) = false) as -> by done.
    destruct buf as [|b o], pos as [|b' o']; try done.
    destruct Hown as (-> & _). unfold ptr_add, ptr_leb, ptr_ltb.
    apply andb_false_iff.
    destruct (decide (b = b')) as [<-|]; [|left; by rewrite bool_decide_false].
    destruct (decide (0 ≤ o')%Z); [|left; rewrite (bool_decide_false (0 ≤ o')%Z) by done; apply andb_false_r].
    right. rewrite (bool_decide_false (o' < _)%Z); [apply andb_false_r|].
    intros Ho. apply (Hpos (Z.to_nat o')); [lia|].
    unfold ptr_add. f_equal. lia.
Qed.

(** X5. For element operations that do not throw, [EmplaceBack]
    returns the address of the new last element, [begin() + old size], and
    reading through it yields the value constructed; the capacity is
    unchanged when there was room and is otherwise 1 for an empty vector
    and twice the old capacity for any other; with room the storage does
    not move and nothing is allocated. *)
Theorem EmplaceBack_returns_new_element s this buf l cap args :
  quiet → rep_at s this buf l cap →
  ∃ s' p buf', EmplaceBack this args s = Ok p s' ∧
    rep_at s' this buf' (l ++ [arg_value args])
           (if length l =? cap then grown cap else cap) ∧
    p = buf' +ₚ length l ∧
    deref p s' = Ok (arg_value args) s' ∧
    (length l < cap → buf' = buf ∧ length (heap s') = length (heap s)).
Proof.
  intros Hq Hrep. pose proof Hrep as (_ & Hle & _).
  assert (Hlast : (l ++ [arg_value args]) !! length l = Some (arg_value args))
    by (by apply list_lookup_middle).
  destruct (decide (length l = cap)) as [<-|Hne].
  - rewrite Nat.eqb_refl.
    destruct (EmplaceBack_full _ _ _ _ args Hq Hrep) as (s' & E & Hrep' & _).
    exists s', (Ptr (length (heap s)) 0 +ₚ length l), (Ptr (length (heap s)) 0).
    split; [done|]. split; [done|]. split; [done|]. split; [|lia].
    by rewrite (rep_at_deref _ _ _ _ _ _ Hrep'), Hlast.
  - rewrite (proj2 (Nat.eqb_neq _ _) Hne).
    destruct (EmplaceBack_room _ _ _ _ _ args Hq Hrep) as (s' & E & Hrep' & Hh); [lia|].
    exists s', (buf +ₚ length l), buf.
    split; [done|]. split; [done|]. split; [done|]. split; [|done].
    by rewrite (rep_at_deref _ _ _ _ _ _ Hrep'), Hlast.
Qed.

(** X6. When there is room, or when the element type is nothrow move
    constructible, [EmplaceBack] (so [PushBack]) either returns with the
    element appended, or leaves by an exception thrown by the constructor
    of the new element with the vector, the store and the balance of
    constructions and destructions as before the call. *)
Theorem EmplaceBack_strong_guarantee s this buf l cap args :
  length l < cap ∨ is_nothrow_move_constructible_v = true →
  rep_at s this buf l cap →
  match EmplaceBack this args s with
  | Ok p s' =>
      rep s' this (l ++ [arg_value args]) (if length l =? cap then grown cap else cap) ∧
      deref p s' = Ok (arg_value args) s'
  | Throw s' => arg_ticks args = true ∧ throws (calls s) = true ∧ rolled_back s s'
  | Undefined => False
  end.
Proof.
  intros Hcase Hrep. pose proof Hrep as (_ & Hle & _).
  assert (Hlast : (l ++ [arg_value args]) !! length l = Some (arg_value args))
    by (by apply list_lookup_middle).
  destruct (decide (length l = cap)) as [<-|Hne].
  - destruct Hcase as [?|Hnt]; [lia|]. rewrite Nat.eqb_refl.
    pose proof (EmplaceBack_full_exact _ _ _ _ args Hrep) as H.
    destruct (arg_ticks args && throws (calls s)) eqn:Hth.
    + destruct H as (s' & -> & Hroll). by apply andb_true_iff in Hth as [-> ->].
    + rewrite no_throw_if_nothrow_move in H by done.
      destruct H as (s' & -> & Hrep' & _).
      split; [by eexists|]. by rewrite (rep_at_deref _ _ _ _ _ _ Hrep'), Hlast.
  - rewrite (proj2 (Nat.eqb_neq _ _) Hne).
    pose proof (EmplaceBack_room_exact _ _ _ _ _ args Hrep ltac:(lia)) as H.
    destruct (arg_ticks args && throws (calls s)) eqn:Hth.
    + destruct H as (s' & -> & Hroll & _). by apply andb_true_iff in Hth as [-> ->].
    + destruct H as (s' & -> & Hrep' & _).
      split; [by eexists|]. by rewrite (rep_at_deref _ _ _ _ _ _ Hrep'), Hlast.
Qed.

(** X7. Appending n >= 1 elements to a vector without storage, with
    element operations that do not throw, ends with a capacity 2^e that is
    at least n and below 2n, and acquires e + 1 blocks in all: the
    capacity doubles at each reallocation. *)
Theorem capacity_doubles s this vs :
  quiet → rep_at s this nullptr [] 0 → vs ≠ [] →
  ∃ s' buf e, run this (push <$> vs) s = Ok () s' ∧
    rep_at s' this buf vs (2 ^ e) ∧
    2 ^ e < 2 * length vs ∧
    length (heap s') = length (heap s) + S e.
Proof.
  intros Hq Hrep. induction vs as [|x vs IH] using rev_ind; [done|]. intros _.
  rewrite fmap_app. cbn [fmap list_fmap]. rewrite length_app. cbn [length].
  destruct (decide (vs = [])) as [->|Hne].
  - cbn [app run exec fmap list_fmap length].
    destruct (exec_exact s this nullptr [] 0 (push x) [x] Hq Hrep eq_refl)
      as (s' & buf' & E & Hrep' & _ & Hh & _).
    cbn [length] in Hrep', Hh. rewrite bool_decide_true in Hrep', Hh by lia.
    exists s', buf', 0. cbn [exec] in E. go. rewrite E. go.
    split; [done|]. split; [done|]. split; [simpl; lia|lia].
  - destruct (IH Hne) as (s1 & buf1 & e & E1 & Hrep1 & Hlt & Hh1).
    rewrite run_snoc. go. rewrite E1.
    destruct (exec_exact s1 this buf1 vs (2 ^ e) (push x) (vs ++ [x]) Hq Hrep1 eq_refl)
      as (s' & buf' & E & Hrep' & _ & Hh & _).
    rewrite length_app in Hrep', Hh. cbn [length] in Hrep', Hh.
    rewrite E. case_bool_decide as Hfull.
    + destruct Hfull as [_ Hfull]. rewrite grown_pow2 in Hrep'.
      exists s', buf', (S e). split; [done|]. split; [done|].
      rewrite Nat.pow_succ_r'. split; lia.
    + exists s', buf', e. split; [done|]. split; [done|]. split; lia.
Qed.

(** X8. When the storage moves, in [Reserve] beyond the capacity (to a
    capacity with a byte count that [size_t] represents) and in [PushBack]
    on a full vector, the elements are kept, the old block is released,
    and every pointer into the old storage dangles: dereferencing it has
    no defined behaviour. *)
Theorem reallocation_invalidates s this b l cap :
  quiet → rep_at s this (Ptr b 0) l cap →
  (∀ n, cap < n → representable n →
     ∃ s', Reserve this n s = Ok () s' ∧ observed s' this l ∧
           block_of (heap s') b = None ∧ ∀ i, deref (Ptr b 0 +ₚ i) s' = Undefined) ∧
  (∀ x, length l = cap →
     ∃ s', PushBack this x s = Ok () s' ∧ observed s' this (l ++ [x]) ∧
           block_of (heap s') b = None ∧ ∀ i, deref (Ptr b 0 +ₚ i) s' = Undefined).
Proof.
  intros Hq Hrep.
  assert (Hdangle : ∀ s', block_of (heap s') b = None →
            ∀ i, deref (Ptr b 0 +ₚ i) s' = Undefined).
  { intros s' Hb i. unfold deref, slot_at, ptr_add. rewrite Hb.
    by case_bool_decide. }
  assert (Hfresh : Ptr (length (heap s)) 0 ≠ Ptr b 0).
  { apply rep_at_block in Hrep. intros [= E]. lia. }
  split.
  - intros n Hn _. pose proof (Reserve_exact _ _ _ _ _ n Hrep Hn) as H.
    rewrite first_throw_quiet in H by done.
    replace (if ticking migrate_by_move then None else None) with (@None nat) in H
      by by destruct (ticking _).
    destruct H as (s' & E & Hrep' & _ & (_ & _ & _ & Hrel & _) & _).
    exists s'. split; [done|]. split; [by eapply rep_at_observed|].
    assert (Hb : block_of (heap s') b = None) by (by apply Hrel).
    split; [done|]. by apply Hdangle.
  - intros x <-. pose proof (EmplaceBack_full_exact _ _ _ _ (copy_arg x) Hrep) as H.
    rewrite arg_ticks_quiet, first_throw_quiet in H by done.
    replace (if ticking migrate_by_move then None else None) with (@None nat) in H
      by by destruct (ticking _).
    destruct H as (s' & E & Hrep' & _ & (_ & _ & _ & Hrel & _) & _).
    exists s'. unfold PushBack. go. rewrite E. go. split; [done|].
    split; [by eapply rep_at_observed|].
    assert (Hb : block_of (heap s') b = None) by (by apply Hrel).
    split; [done|]. by apply Hdangle.
Qed.

(** X9. For element operations that do not throw, [Resize(n)], with n
    within the capacity or with a byte count that [size_t] represents,
    leaves the first n elements followed, when n exceeds the size, by
    value-initialised elements up to size n; the capacity is the larger of
    n and the old capacity; for n within the capacity the storage does not
    move and nothing is allocated; and constructions exceed destructions
    by the growth of the size. *)
Theorem Resize_spec s this buf l cap n :
  quiet → rep_at s this buf l cap → n ≤ cap ∨ representable n →
  ∃ s' buf', Resize this n s = Ok () s' ∧
    rep_at s' this buf' (take n l ++ replicate (n - length l) value_init) (n `max` cap) ∧
    (n ≤ cap → buf' = buf ∧ length (heap s') = length (heap s)) ∧
    constructed s' + destroyed s + length l = constructed s + destroyed s' + n.
Proof.
  intros Hq Hrep _. pose proof Hrep as (_ & Hle & _).
  destruct (decide (n < length l)) as [Hn|Hn].
  - destruct (Resize_shrinking _ _ _ _ _ n Hrep Hn) as (s' & E & Hrep' & Hh & _ & Hk & Hd).
    exists s', buf. split; [done|].
    replace (n - length l) with 0 by lia. cbn [replicate]. rewrite app_nil_r.
    rewrite Nat.max_r by lia. split; [done|]. split; [done|lia].
  - pose proof (Resize_growing _ _ _ _ _ n Hrep ltac:(lia)) as H.
    rewrite !first_throw_quiet in H by done.
    replace (if (cap <? n) && ticking migrate_by_move then None else None)
      with (@None nat) in H by (by destruct (_ && _)).
    destruct H as (s' & buf' & E & Hrep' & Hbuf & Hcnt).
    exists s', buf'. split; [done|]. rewrite take_ge by lia.
    split; [done|]. split; [done|lia].
Qed.

(** X10. For an element type that is copy constructible or nothrow move
    constructible, under any pattern of throws, [Resize(n)], with n within
    the capacity or with a byte count that [size_t] represents, either
    returns with the resized vector, or leaves by an exception with the
    elements the vector had (its capacity is the old one, or n when
    [Reserve] had already completed) and as many destructions as
    constructions in the call; shrinking never throws. *)
Theorem Resize_keeps_elements_on_throw s this buf l cap n :
  is_copy_constructible_v = true ∨ is_nothrow_move_constructible_v = true →
  rep_at s this buf l cap → n ≤ cap ∨ representable n →
  match Resize this n s with
  | Ok _ s' => rep s' this (take n l ++ replicate (n - length l) value_init) (n `max` cap)
  | Throw s' =>
      length l < n ∧ (rep s' this l cap ∨ rep s' this l n) ∧
      constructed s' + destroyed s = constructed s + destroyed s'
  | Undefined => False
  end.
Proof.
  intros Htype Hrep _. pose proof Hrep as (_ & Hle & _).
  destruct (decide (n < length l)) as [Hn|Hn].
  - destruct (Resize_shrinking _ _ _ _ _ n Hrep Hn) as (s' & -> & Hrep' & _).
    replace (n - length l) with 0 by lia. cbn [replicate]. rewrite app_nil_r.
    rewrite Nat.max_r by lia. by exists buf.
  - pose proof (Resize_growing _ _ _ _ _ n Hrep ltac:(lia)) as H.
    rewrite take_ge by lia.
    destruct (if (cap <? n) && ticking migrate_by_move
              then first_throw (calls s) (length l) else None) as [j|] eqn:Hj.
    + destruct H as (s' & -> & Hpos & Hroll).
      destruct (migration_cases Htype) as [Htk|Hmv].
      { rewrite Htk, andb_false_r in Hj. done. }
      specialize (Hroll Hmv). split; [|split].
      * destruct (cap <? n) eqn:Hc; [|done]. apply Nat.ltb_lt in Hc. lia.
      * left. exists buf. by eapply rolled_back_rep_at.
      * by destruct Hroll as (_ & _ & ?).
    + destruct (first_throw _ (n - length l)) as [j|].
      * destruct H as (s' & buf' & -> & Hlt & Hrep' & Hcnt).
        split; [done|]. split; [|done].
        destruct (Nat.max_spec n cap) as [[_ E]|[_ E]]; rewrite E in Hrep';
          [left|right]; by exists buf'.
      * destruct H as (s' & buf' & -> & Hrep' & _). by exists buf'.
Qed.

(** X11. The copy constructor, under any pattern of throws: either it
    returns a vector with the same elements in storage of its own, of
    capacity equal to the size, with the source as it was and one
    construction per element; or a copy constructor has thrown and
    everything is as before: the copies made are destroyed and the storage
    is released. *)
Theorem Vector_ctor_copy_cases s this other buf l cap :
  this ≠ other → rep_at s other buf l cap →
  match Vector_ctor_copy this other s with
  | Ok _ s' =>
      first_throw (calls s) (length l) = None ∧
      (∃ buf', rep_at s' this buf' l (length l) ∧ apart buf' buf) ∧
      rep_at s' other buf l cap ∧
      constructed s' = constructed s + length l ∧ destroyed s' = destroyed s
  | Throw s' =>
      (∃ j, first_throw (calls s) (length l) = Some j) ∧ rolled_back s s'
  | Undefined => False
  end.
Proof.
  intros Hne Hrep. pose proof (Vector_ctor_copy_exact _ _ _ _ _ _ Hne Hrep) as H.
  destruct (Vector_ctor_copy this other s) as [[] s'|s'|]; [|done|done].
  destruct H as (Hft & (buf' & Hrep' & Hap & _) & Horep & _ & _ & Hcnt).
  split; [done|]. split; [by eauto|done].
Qed.

(** X12. For element operations that do not throw, copy assignment
    between two distinct vectors with distinct storage gives the receiver
    the elements of the source whenever the source is longer than the
    receiver's capacity, or not longer than the receiver, or the receiver
    is empty; the source is unchanged; the capacity is the larger of the
    source's size and the old capacity, and within the capacity the
    storage is reused. *)
Theorem copy_assign_spec s this rhs buf l cap rbuf rl rcap :
  quiet → this ≠ rhs →
  rep_at s this buf l cap → rep_at s rhs rbuf rl rcap → apart buf rbuf →
  cap < length rl ∨ length rl ≤ length l ∨ l = [] →
  ∃ s' buf', Vector_copy_assign this rhs s = Ok () s' ∧
    rep_at s' this buf' rl (length rl `max` cap) ∧
    rep_at s' rhs rbuf rl rcap ∧
    observed s' this rl ∧
    (length rl ≤ cap → buf' = buf) ∧
    constructed s' + destroyed s + length l = constructed s + destroyed s' + length rl.
Proof.
  intros Hq Hne Hrep Hrrep Hapart Hcase. pose proof Hrep as (_ & Hle & _).
  destruct (decide (cap < length rl)) as [Hcap|Hcap].
  - pose proof (copy_assign_reallocating _ _ _ _ _ _ _ _ _ Hne Hrep Hrrep Hapart Hcap) as H.
    destruct (Vector_copy_assign this rhs s) as [[] s'|s'|]; [| |done].
    + destruct H as (_ & Hrep' & Hrrep' & _ & Hk & Hd).
      exists s', (Ptr (length (heap s)) 0). rewrite Nat.max_l by lia.
      split; [done|]. split; [done|]. split; [done|].
      split; [by eapply rep_at_observed|]. split; lia.
    + destruct H as ((j & Hj) & _). by rewrite first_throw_quiet in Hj.
  - rewrite Nat.max_r by lia.
    destruct (decide (length rl ≤ length l)) as [Hlen|Hlen].
    + pose proof (copy_assign_shrinking _ _ _ _ _ _ _ _ _ Hne Hrep Hrrep Hapart Hlen) as H.
      rewrite first_throw_quiet in H by done.
      destruct H as (s' & E & Hrep' & Hrrep' & _ & Hk & Hd).
      exists s', buf. split; [done|]. split; [done|]. split; [done|].
      split; [by eapply rep_at_observed|]. split; [done|lia].
    + assert (l = []) as -> by (destruct Hcase as [?|[?|?]]; [lia|lia|done]).
      pose proof (copy_assign_into_empty _ _ _ _ _ _ _ _ Hne Hrep Hrrep Hapart
                    ltac:(lia)) as H.
      rewrite first_throw_quiet in H by done.
      destruct H as (s' & E & Hrep' & Hrrep' & _ & Hk & Hd).
      exists s', buf. split; [done|]. split; [done|]. split; [done|].
      split; [by eapply rep_at_observed|]. split; [done|simpl; lia].
Qed.

(** X13. When copy assignment has to construct every element, because
    the source is longer than the capacity (copy and swap) or the receiver
    is empty, then under any pattern of throws it either returns with the
    elements of the source, or a copy constructor has thrown and
    everything is as before the call. *)
Theorem copy_assign_strong_guarantee s this rhs buf l cap rbuf rl rcap :
  this ≠ rhs →
  rep_at s this buf l cap → rep_at s rhs rbuf rl rcap → apart buf rbuf →
  cap < length rl ∨ l = [] →
  match Vector_copy_assign this rhs s with
  | Ok _ s' =>
      first_throw (calls s) (length rl) = None ∧
      rep s' this rl (length rl `max` cap) ∧ rep_at s' rhs rbuf rl rcap
  | Throw s' =>
      (∃ j, first_throw (calls s) (length rl) = Some j) ∧ rolled_back s s'
  | Undefined => False
  end.
Proof.
  intros Hne Hrep Hrrep Hapart Hcase. pose proof Hrep as (_ & Hle & _).
  destruct (decide (cap < length rl)) as [Hcap|Hcap].
  - pose proof (copy_assign_reallocating _ _ _ _ _ _ _ _ _ Hne Hrep Hrrep Hapart Hcap) as H.
    destruct (Vector_copy_assign this rhs s) as [[] s'|s'|]; [|done|done].
    destruct H as (Hft & Hrep' & Hrrep' & _). rewrite Nat.max_l by lia.
    split; [done|]. split; [by eexists|done].
  - destruct Hcase as [?|Hl]; [lia|subst l]. rewrite Nat.max_r by lia.
    pose proof (copy_assign_into_empty _ _ _ _ _ _ _ _ Hne Hrep Hrrep Hapart
                  ltac:(lia)) as H.
    destruct (first_throw (calls s) (length rl)) as [j|].
    + destruct H as (s' & -> & Hroll). split; [by eauto|done].
    + destruct H as (s' & -> & Hrep' & Hrrep' & _).
      split; [done|]. split; [by eexists|done].
Qed.


(** X15. When the receiver is not empty and the source is longer but
    fits the capacity, copy assignment returns with the size of the
    source, but the elements beyond the old size were constructed at the
    start of the storage: only the first max(old size, size difference)
    slots hold elements, reading any later index below the new size has no
    defined behaviour, and no destructor ran for the elements constructed
    over. *)
Theorem copy_assign_growing_in_place s this rhs buf l cap rbuf rl rcap :
  quiet → this ≠ rhs →
  rep_at s this buf l cap → rep_at s rhs rbuf rl rcap → apart buf rbuf →
  0 < length l → length l < length rl → length rl ≤ cap →
  ∃ s', Vector_copy_assign this rhs s = Ok () s' ∧
    vecs s' !! this = Some (mkVector (mkRawMemory buf cap) (length rl)) ∧
    (∀ i x, i < length l `max` (length rl - length l) → rl !! i = Some x →
            Vector_at this i s' = Ok x s') ∧
    (∀ i, length l `max` (length rl - length l) ≤ i → Vector_at this i s' = Undefined) ∧
    constructed s' = constructed s + (length rl - length l) ∧
    destroyed s' = destroyed s ∧
    rep_at s' rhs rbuf rl rcap.
Proof.
  intros Hq Hne Hrep Hrrep Hapart Hpos Hlt Hcap.
  pose proof Hrep as (Hv & Hle & Hown). pose proof Hrrep as (Hrv & Hrle & Hrown).
  destruct s as [h vm c k d]. cbn [vecs heap calls constructed destroyed] in *.
  destruct buf as [|b o]; [destruct (owns_nullptr _ _ _ Hle Hown) as [-> _]; simpl in *; lia|].
  destruct rbuf as [|rb ro];
    [destruct (owns_nullptr _ _ _ Hrle Hrown) as [-> _]; simpl in *; lia|].
  destruct Hown as (-> & Hnil & Hb). destruct Hrown as (-> & Hrnil & Hrb).
  cbn in Hapart.
  assert (Hbl : b < length h) by eauto using block_of_lt.
  set (m := length rl - length l). set (M := length l `max` m).
  unfold Vector_copy_assign. rewrite bool_decide_true by done.
  go. erewrite load_eq by done. go. erewrite load_eq by done.
  unfold Capacity, Size, GetAddress. cbn [data_ size_ capacity_ buffer_].
  rewrite (proj2 (Nat.ltb_ge _ _)) by lia.
  rewrite (proj2 (Nat.ltb_ge (length rl) (length l))) by lia.
  go. rewrite (ptr_zero rb), (ptr_zero b).
  erewrite (copy_n_at (take (length l) rl) l _ _ _ _ _ rb b 0 0 (length l) []
              ((Obj <$> drop (length l) rl) ++ replicate (rcap - length rl) Raw) []);
    [|done|done|rewrite length_take; lia|done|rewrite length_take; lia| |exact Hb].
  2:{ cbn [app]. by rewrite app_assoc, <- fmap_app, take_drop. }
  rewrite first_throw_quiet by done. cbn [app]. fold m.
  rewrite transfer_n_copy.
  set (B := (Obj <$> take (length l) rl) ++ replicate (cap - length l) Raw).
  assert (HB : length B = cap).
  { unfold B. rewrite length_app, length_fmap, length_take, length_replicate. lia. }
  erewrite (transfer_n_at false (take m rl) _ _ _ _ _ rb b 0 0 m []
              ((Obj <$> drop m rl) ++ replicate (rcap - length rl) Raw) []
              (take m B) (drop m B));
    [|done|done|rewrite length_take; lia|done|rewrite !length_take; lia| |].
  2:{ rewrite block_of_insert_ne by done. cbn [app].
      by rewrite app_assoc, <- fmap_app, take_drop. }
  2:{ rewrite block_of_insert_eq by done. cbn [app]. by rewrite take_drop. }
  cbn [ticking]. rewrite first_throw_quiet by done. rewrite residue_copy. cbn [app].
  rewrite heap_insert_id.
  2:{ rewrite !block_of_insert_ne by done.
      by rewrite app_assoc, <- fmap_app, take_drop. }
  rewrite list_insert_insert_eq. go.
  assert (HF : (Obj <$> take m rl) ++ drop m B =
               (Obj <$> take M rl) ++ replicate (cap - M) Raw).
  { unfold B. destruct (decide (m ≤ length l)).
    - replace M with (length l) by lia.
      rewrite drop_app_le by (rewrite length_fmap, length_take; lia).
      rewrite app_assoc. f_equal. rewrite <- fmap_drop, <- fmap_app. f_equal.
      rewrite <- (take_drop m (take (length l) rl)) at 2. f_equal.
      rewrite take_take. f_equal. lia.
    - replace M with m by lia. f_equal.
      rewrite drop_app_ge by (rewrite length_fmap, length_take; lia).
      rewrite length_fmap, length_take, drop_replicate. f_equal. lia. }
  rewrite HF.
  eexists. split; [reflexivity|]. cbn [vecs heap calls constructed destroyed].
  rewrite lookup_insert_eq. split; [done|].
  assert (HM : M < length rl) by lia.
  assert (Hslot : ∀ i hh, hh = <[b := Some ((Obj <$> take M rl) ++ replicate (cap - M) Raw)]> h →
    slot_at hh (Ptr b 0 +ₚ i) =
    match take M rl !! i with
    | Some x => Some (Obj x)
    | None => if bool_decide (i < cap) then Some Raw else None
    end).
  { intros i hh ->. rewrite (ptr_zero b), ptr_nat_add. cbn [Nat.add].
    apply slots_lookup; [rewrite length_take; lia|].
    rewrite block_of_insert_eq by done. rewrite length_take.
    do 3 f_equal. lia. }
  split; [|split; [|split; [lia|split; [done|]]]].
  - intros i x Hi Hx. erewrite Vector_at_eq by (cbn [vecs]; apply lookup_insert_eq).
    cbn [data_ size_ capacity_ buffer_].
    rewrite (proj2 (Nat.ltb_lt i (length rl))), (proj2 (Nat.ltb_lt i cap)) by lia.
    cbn [andb]. unfold deref. cbn [heap]. erewrite Hslot by done.
    by rewrite lookup_take_lt, Hx by lia.
  - intros i Hi. erewrite Vector_at_eq by (cbn [vecs]; apply lookup_insert_eq).
    cbn [data_ size_ capacity_ buffer_].
    destruct ((i <? length rl) && (i <? cap)); [|done].
    unfold deref. cbn [heap]. erewrite Hslot by done.
    rewrite lookup_take_ge by lia. by case_bool_decide.
  - eapply rep_at_kept; [done|cbn [vecs]; by rewrite lookup_insert_ne|].
    intros ? [= <-]. cbn [heap]. by rewrite block_of_insert_ne.
Qed.

(** X16. Copy assignment and move assignment of a vector to itself, and
    [Swap] of a vector with itself, leave the whole state exactly as it
    is. *)
Theorem self_assignment_and_self_swap s this :
  Vector_copy_assign this this s = Ok () s ∧
  Vector_move_assign this this s = Ok () s ∧
  (is_Some (vecs s !! this) → Swap this this s = Ok () s).
Proof.
  split; [|split].
  - unfold Vector_copy_assign. by rewrite bool_decide_false by (by intros ?).
  - unfold Vector_move_assign. by rewrite bool_decide_false by (by intros ?).
  - intros [v Hv]. destruct s as [h vm c k d]. cbn [vecs] in Hv.
    unfold Swap, Vector_Swap, RawMemory_Swap. go.
    erewrite load_eq by done. go. erewrite load_eq by done. go.
    do 2 f_equal. rewrite insert_insert_eq. destruct v as [[??]?]. cbn.
    by apply insert_id.
Qed.

(** X17. [Swap] exchanges the elements, storage and capacity of two
    vectors without touching the store or any element, leaves every other
    vector alone, and swapping again restores the state exactly. *)
Theorem Swap_exchanges s this other b1 l1 c1 b2 l2 c2 :
  this ≠ other → rep_at s this b1 l1 c1 → rep_at s other b2 l2 c2 →
  ∃ s', Swap this other s = Ok () s' ∧
        rep_at s' this b2 l2 c2 ∧ rep_at s' other b1 l1 c1 ∧
        heap s' = heap s ∧ calls s' = calls s ∧
        constructed s' = constructed s ∧ destroyed s' = destroyed s ∧
        (∀ that, that ≠ this → that ≠ other → vecs s' !! that = vecs s !! that) ∧
        Swap this other s' = Ok () s.
Proof.
  intros Hne Hrep1 Hrep2. pose proof Hrep1 as (Hv1 & _). pose proof Hrep2 as (Hv2 & _).
  destruct s as [h vm c k d]. cbn [vecs] in Hv1, Hv2.
  unfold Swap, Vector_Swap, RawMemory_Swap. go.
  erewrite load_eq by done. go. erewrite load_eq by done.
  cbn [data_ size_ buffer_ capacity_]. go.
  eexists. split; [reflexivity|]. cbn [vecs heap calls constructed destroyed].
  split; [|split; [|split; [done|split; [done|split; [done|split; [done|split]]]]]].
  - eapply rep_at_moved; [exact Hrep2| |done]. cbn [vecs].
    rewrite lookup_insert_ne by done. by rewrite lookup_insert_eq.
  - eapply rep_at_moved; [exact Hrep1| |done]. cbn [vecs].
    by rewrite lookup_insert_eq.
  - intros that H1 H2. by rewrite !lookup_insert_ne.
  - go. erewrite load_eq.
    2:{ rewrite lookup_insert_ne by done. apply lookup_insert_eq. }
    go. erewrite load_eq by apply lookup_insert_eq.
    cbn [data_ size_ buffer_ capacity_]. go. do 2 f_equal.
    apply map_eq. intros i.
    destruct (decide (i = other)) as [->|H2]; [by rewrite lookup_insert_eq|].
    rewrite lookup_insert_ne by done.
    destruct (decide (i = this)) as [->|H1]; [by rewrite lookup_insert_eq|].
    by rewrite !lookup_insert_ne.
Qed.

(** X18. The move constructor and move assignment hand the storage of
    the source, with its elements and capacity, to the receiver and leave
    the source empty without storage; no block and no element is touched,
    constructed or destroyed. *)
Theorem move_transfers_storage s this other buf l cap :
  this ≠ other → rep_at s other buf l cap →
  (∃ s', Vector_ctor_move this other s = Ok () s' ∧
         rep_at s' this buf l cap ∧ rep_at s' other nullptr [] 0 ∧
         heap s' = heap s ∧ calls s' = calls s ∧
         constructed s' = constructed s ∧ destroyed s' = destroyed s) ∧
  (is_Some (vecs s !! this) →
   ∃ s', Vector_move_assign this other s = Ok () s' ∧
         rep_at s' this buf l cap ∧ rep_at s' other nullptr [] 0 ∧
         heap s' = heap s ∧ calls s' = calls s ∧
         constructed s' = constructed s ∧ destroyed s' = destroyed s).
Proof.
  intros Hne Hrep. pose proof Hrep as (Hv & _).
  destruct s as [h vm c k d]. cbn [vecs] in *.
  assert (Hpost : ∀ vm',
    vm' = <[this := mkVector (mkRawMemory buf cap) (length l)]>
            (<[other := mkVector (mkRawMemory nullptr 0) 0]> vm) →
    rep_at (mkState h vm' c k d) this buf l cap ∧
    rep_at (mkState h vm' c k d) other nullptr [] 0).
  { intros vm' ->. split.
    - eapply rep_at_moved; [exact Hrep| |done]. cbn [vecs].
      by rewrite lookup_insert_eq.
    - unfold rep_at. cbn [vecs heap length].
      rewrite lookup_insert_ne by done. by rewrite lookup_insert_eq. }
  split.
  - rewrite (Vector_ctor_move_eq _ _ _ _ _ _ _ _ Hv).
    eexists. split; [reflexivity|]. cbn [heap calls constructed destroyed].
    destruct (Hpost _ eq_refl). done.
  - intros Hthis. rewrite (Vector_move_assign_eq _ _ _ _ _ _ _ _ Hne Hthis Hv).
    eexists. split; [reflexivity|]. cbn [heap calls constructed destroyed].
    destruct (Hpost _ eq_refl). done.
Qed.

(** X19. The destructor of a well-formed vector, followed by that of its
    [data_], destroys each element once and releases the storage: the
    block is no longer allocated, pointers into it dangle, all other
    blocks and all [Vector] objects are untouched, and no element operation
    that may throw is invoked. *)
Theorem Vector_dtor_releases s this buf l cap :
  rep_at s this buf l cap →
  ∃ v s', load this s = Ok v s ∧ Vector_dtor v s = Ok () s' ∧
    (∀ b, buf = Ptr b 0 → block_of (heap s') b = None) ∧
    (∀ b, buf ≠ Ptr b 0 → block_of (heap s') b = block_of (heap s) b) ∧
    (∀ i, deref (buf +ₚ i) s' = Undefined) ∧
    vecs s' = vecs s ∧ calls s' = calls s ∧
    constructed s' = constructed s ∧
    destroyed s' = destroyed s + length l.
Proof. apply Vector_dtor_exact. Qed.

(** X20. Constructing a vector with [Vector(n)], for n with a byte count
    that [size_t] represents, and destroying it, under any pattern of
    throws, never runs into undefined behaviour, and whether the
    constructor completes or throws, every block is as before and there
    are as many destructions as constructions. *)
Theorem sized_lifetime_leaks_nothing s this n :
  representable n →
  match (Vector_ctor_size this n;; v ← load this; Vector_dtor v) s with
  | Ok _ s' | Throw s' =>
      (∀ b, block_of (heap s') b = block_of (heap s) b) ∧
      constructed s' + destroyed s = constructed s + destroyed s'
  | Undefined => False
  end.
Proof.
  intros _. destruct s as [h vm c k d]. cbn [heap constructed destroyed].
  unfold Vector_ctor_size. go.
  destruct (decide (n = 0)) as [->|Hn].
  - unfold Vector_sized. go. unfold RawMemory_ctor, Allocate. cbn [Nat.eqb negb].
    go. cbn [uninitialized_value_construct_n]. go.
    erewrite load_eq by apply lookup_insert_eq.
    rewrite (Vector_dtor_eq _ _ _ _ _ nullptr [] 0); [|done|done].
    cbn [heap constructed destroyed length]. split; [done|lia].
  - rewrite Vector_sized_eq by done.
    destruct (first_throw c n) as [j|]; cbn [heap constructed destroyed].
    + split; [|lia]. intros b. apply heap_released.
    + go. erewrite load_eq by apply lookup_insert_eq.
      pose proof (Vector_dtor_eq (h ++ [Some (replicate n (Obj value_init))])
                    (<[this := mkVector (mkRawMemory (Ptr (length h) 0) n) n]> vm)
                    (c + n) (k + n) d (Ptr (length h) 0) (replicate n value_init) n) as E.
      rewrite length_replicate, Nat.sub_diag, app_nil_r, fmap_replicate in E.
      rewrite E; [|done|].
      2:{ split; [done|]. split; [by destruct n|]. apply block_of_fresh. }
      cbn [heap constructed destroyed]. split; [|lia].
      intros b. apply heap_released.
Qed.

(** X21. A vector that is default constructed, used through any
    sequence of [PushBack] and [PopBack] (no [PopBack] on an empty vector)
    and then destroyed, with element operations that do not throw, leaves
    every block as it was before, the other vectors untouched, and as many
    destructions as constructions. *)
Theorem vector_lifetime_leaks_nothing s this ops l' :
  quiet → survivors [] ops = Some l' →
  ∃ s', (Vector_ctor this;; run this ops;; v ← load this; Vector_dtor v) s = Ok () s' ∧
        (∀ b, block_of (heap s') b = block_of (heap s) b) ∧
        (∀ that, that ≠ this → vecs s' !! that = vecs s !! that) ∧
        constructed s' + destroyed s = constructed s + destroyed s'.
Proof.
  intros Hq Hs. destruct s as [h vm c k d]. unfold Vector_ctor. go.
  set (s0 := mkState h (<[this := Vector_default]> vm) c k d).
  assert (Hrep0 : rep_at s0 this nullptr [] 0).
  { unfold rep_at, s0. cbn [vecs heap length]. by rewrite lookup_insert_eq. }
  destruct (run_exact ops _ _ _ _ _ _ Hq Hrep0 Hs)
    as (s1 & buf1 & cap1 & -> & Hrep1 & (Hv & Hl & Hf & _ & Hn) & Hcnt).
  destruct (Vector_dtor_exact _ _ _ _ _ Hrep1)
    as (v & s2 & E1 & E2 & Hrel & Hkept & _ & Hvs & _ & Hk & Hd).
  go. rewrite E1, E2. exists s2. split; [done|].
  apply survivors_length in Hs as Hlen. cbn [length] in Hcnt, Hlen.
  unfold s0 in *. cbn [vecs heap constructed destroyed] in *.
  split; [|split; [|lia]].
  - intros b. destruct (decide (buf1 = Ptr b 0)) as [E|Hne].
    + rewrite (Hrel b E). destruct Hn as [->|(b' & -> & Hb')]; [done|].
      injection E as <-. by rewrite block_of_ge.
    + rewrite Hkept by done. by apply Hf.
  - intros that Hne. rewrite Hvs, Hv by done. by rewrite lookup_insert_ne.
Qed.

(** X22. A sequence of [PushBack] and [PopBack] on one vector, with all
    the reallocations it causes, leaves any other well-formed vector with
    storage of its own exactly as it was. *)
Theorem other_vectors_untouched s this that buf l cap obuf ol ocap ops l' :
  quiet → that ≠ this → apart buf obuf →
  rep_at s this buf l cap → rep_at s that obuf ol ocap →
  survivors l ops = Some l' →
  ∃ s', run this ops s = Ok () s' ∧ observed s' this l' ∧
        rep_at s' that obuf ol ocap ∧ observed s' that ol.
Proof.
  intros Hq Hne Hapart Hrep Horep Hs.
  destruct (run_exact ops _ _ _ _ _ _ Hq Hrep Hs) as (s' & buf' & cap' & E & Hrep' & Hkept & _).
  destruct (elsewhere_kept_rep_at _ _ _ _ _ _ _ _ _ Hne Hapart Horep Hkept) as [Horep' _].
  exists s'. split; [done|]. split; [by eapply rep_at_observed|].
  split; [done|by eapply rep_at_observed].
Qed.

(** X23. A copy is independent of its source: after copy construction,
    any sequence of [PushBack] and [PopBack] on the copy and then its
    destruction leave the source with its elements, and in the end every
    block is as before the copy was made and nothing has leaked. *)
Theorem copy_is_independent s this other buf l cap ops l' :
  quiet → this ≠ other → rep_at s other buf l cap →
  survivors l ops = Some l' →
  ∃ s1 s2 v s3,
    Vector_ctor_copy this other s = Ok () s1 ∧
    observed s1 this l ∧ observed s1 other l ∧
    run this ops s1 = Ok () s2 ∧
    observed s2 this l' ∧ observed s2 other l ∧
    load this s2 = Ok v s2 ∧ Vector_dtor v s2 = Ok () s3 ∧
    rep_at s3 other buf l cap ∧ observed s3 other l ∧
    (∀ b, block_of (heap s3) b = block_of (heap s) b) ∧
    constructed s3 + destroyed s = constructed s + destroyed s3.
Proof.
  intros Hq Hne Hrep Hs.
  pose proof (Vector_ctor_copy_exact _ _ _ _ _ _ Hne Hrep) as H.
  destruct (Vector_ctor_copy this other s) as [[] s1|s1|]; [| |done].
  2:{ destruct H as ((j & Hj) & _). by rewrite first_throw_quiet in Hj. }
  destruct H as (_ & (buf1 & Hrep1 & Hap1 & Hf1 & Hnew1) & Horep1 & _ & Hl1 & Hk1 & Hd1).
  destruct (run_exact ops _ _ _ _ _ _ Hq Hrep1 Hs)
    as (s2 & buf2 & cap2 & E2 & Hrep2 & Hkept2 & Hcnt2).
  destruct (elsewhere_kept_rep_at _ _ _ _ _ _ _ _ _ (not_eq_sym Hne) Hap1 Horep1 Hkept2)
    as [Horep2 Hap2].
  destruct Hkept2 as (_ & Hl2 & Hf2 & Hr2 & Hn2).
  destruct (Vector_dtor_exact _ _ _ _ _ Hrep2)
    as (v & s3 & E3 & E4 & Hrel & Hkept & _ & Hvs & _ & Hk & Hd).
  assert (Horep3 : rep_at s3 other buf l cap).
  { eapply rep_at_kept; [done|by rewrite Hvs|]. intros b ->. apply Hkept.
    destruct buf2 as [|b' o']; [done|]. cbn in Hap2. congruence. }
  exists s1, s2, v, s3. split; [done|]. split; [by eapply rep_at_observed|].
  split; [by eapply rep_at_observed|]. split; [done|].
  split; [by eapply rep_at_observed|]. split; [by eapply rep_at_observed|].
  split; [done|]. split; [done|]. split; [done|].
  split; [by eapply rep_at_observed|]. split; [|lia].
  intros b. destruct (decide (buf2 = Ptr b 0)) as [E|Hb2].
  - rewrite (Hrel b E). destruct Hn2 as [->|(b' & -> & Hb')].
    + symmetry. by apply Hnew1.
    + injection E as <-. symmetry. apply block_of_ge. lia.
  - rewrite Hkept by done. destruct (decide (buf1 = Ptr b 0)) as [E|Hb1].
    + rewrite (Hr2 b E) by congruence. symmetry. by apply Hnew1.
    + rewrite Hf2 by done. by apply Hf1.
Qed.

(** X24. The member functions declared [noexcept] ([Swap], the move
    constructor, move assignment, [PopBack], [operator[]], [Destroy], and
    [operator+], [operator[]] and [Deallocate] of [RawMemory]) never leave
    by an exception, in any state and for any element type. *)
Theorem noexcept_members_do_not_throw this other i (p : pointer) (r : RawMemory) s s' :
  Swap this other s ≠ Throw s' ∧
  Vector_ctor_move this other s ≠ Throw s' ∧
  Vector_move_assign this other s ≠ Throw s' ∧
  PopBack this s ≠ Throw s' ∧
  Vector_index this i s ≠ Throw s' ∧
  Destroy p s ≠ Throw s' ∧
  RawMemory_plus r i s ≠ Throw s' ∧
  RawMemory_index r i s ≠ Throw s' ∧
  Deallocate p s ≠ Throw s'.
Proof.
  assert (Hload : ∀ that, load that s = Undefined ∨ ∃ v, load that s = Ok v s).
  { intros that. unfold load. destruct (vecs s !! that); eauto. }
  assert (Hdestroy : ∀ q s1 s2, destroy_at q s1 ≠ Throw s2).
  { intros q s1 s2. unfold destroy_at.
    destruct (slot_at (heap s1) q) as [[|?]|]; [done| |done].
    by destruct (poke (heap s1) q Raw). }
  assert (Hplus : ∀ s1, RawMemory_plus r i s1 ≠ Throw s').
  { intros s1. unfold RawMemory_plus, assert. go. by destruct (i <=? capacity_ r). }
  assert (Hidx : ∀ r' s1, RawMemory_index r' i s1 ≠ Throw s').
  { intros r' s1. unfold RawMemory_index, assert. go. by destruct (i <? capacity_ r'). }
  repeat split.
  - unfold Swap. go. destruct (Hload this) as [->|[a ->]]; [done|]. go.
    destruct (Hload other) as [->|[b ->]]; [done|]. done.
  - unfold Vector_ctor_move. go. destruct (Hload other) as [->|[a ->]]; done.
  - unfold Vector_move_assign. case_bool_decide; [|done]. go.
    destruct (Hload this) as [->|[a ->]]; [done|]. go.
    destruct (Hload other) as [->|[b ->]]; done.
  - unfold PopBack. go. destruct (Hload this) as [->|[a ->]]; [done|]. go.
    pose proof (Hdestroy (end_ a -ₚ 1) s s') as Hd.
    destruct (destroy_at (end_ a -ₚ 1) s); [by go|done|done].
  - unfold Vector_index. go. destruct (Hload this) as [->|[a ->]]; [done|]. go.
    unfold assert at 1. destruct (i <? size_ a); [|done]. go. apply Hidx.
  - apply Hdestroy.
  - apply Hplus.
  - apply Hidx.
  - unfold Deallocate, operator_delete. destruct p as [|b o]; [done|].
    case_bool_decide; [|done]. by destruct (block_of (heap s) b).
Qed.

(** X25. [RawMemory(n)], for n with a byte count that [size_t]
    represents, acquires storage for n elements without constructing any:
    for n = 0 nothing is allocated and the buffer is null, for any other n
    the buffer is the start of a new block of n raw slots; no existing
    block changes; no slot of the new storage can be read; [operator+]
    accepts the offset n (one past the end) while [operator[]] rejects the
    index n; and the destructor gives back the store as it was. *)
Theorem RawMemory_acquire_release s n :
  representable n →
  ∃ r s1 s2,
    RawMemory_ctor n s = Ok r s1 ∧ capacity_ r = n ∧
    owns (heap s1) (buffer_ r) (replicate n Raw) ∧
    (n = 0 → buffer_ r = nullptr ∧ s1 = s) ∧
    (n ≠ 0 → buffer_ r = Ptr (length (heap s)) 0 ∧
             length (heap s1) = S (length (heap s))) ∧
    (∀ b, b < length (heap s) → block_of (heap s1) b = block_of (heap s) b) ∧
    (∀ i, deref (buffer_ r +ₚ i) s1 = Undefined) ∧
    RawMemory_plus r n s1 = Ok (buffer_ r +ₚ n) s1 ∧
    RawMemory_index r n s1 = Undefined ∧
    RawMemory_dtor r s1 = Ok () s2 ∧
    (∀ b, block_of (heap s2) b = block_of (heap s) b) ∧
    vecs s2 = vecs s ∧ calls s2 = calls s ∧
    constructed s2 = constructed s ∧ destroyed s2 = destroyed s.
Proof.
  intros _. destruct s as [h vm c k d].
  assert (Hplus : ∀ r s1, capacity_ r = n → RawMemory_plus r n s1 = Ok (buffer_ r +ₚ n) s1).
  { intros r s1 Hr. apply RawMemory_plus_eq. lia. }
  assert (Hidx : ∀ r s1, capacity_ r = n → RawMemory_index r n s1 = Undefined).
  { intros r s1 Hr. unfold RawMemory_index, assert. go. rewrite Hr.
    by rewrite Nat.ltb_irrefl. }
  destruct (decide (n = 0)) as [->|Hn].
  - exists (mkRawMemory nullptr 0), (mkState h vm c k d), (mkState h vm c k d).
    cbn [buffer_ heap vecs calls constructed destroyed].
    split; [done|]. split; [done|]. split; [done|]. split; [done|]. split; [done|].
    split; [done|]. split; [done|].
    split; [by apply Hplus|]. split; [by apply Hidx|]. done.
  - exists (mkRawMemory (Ptr (length h) 0) n),
           (mkState (h ++ [Some (replicate n Raw)]) vm c k d),
           (mkState (h ++ [None]) vm c k d).
    cbn [buffer_ heap vecs calls constructed destroyed].
    split; [by apply RawMemory_ctor_eq|]. split; [done|].
    split; [split; [done|]; split; [by destruct n|apply block_of_fresh]|].
    split; [done|].
    split; [intros _; split; [done|]; rewrite length_app; simpl; lia|].
    split; [by intros; apply block_of_app_l|]. split; [|split; [|split; [|split]]].
    + intros i. rewrite (ptr_zero (length h)), ptr_nat_add. cbn [Nat.add].
      unfold deref. cbn [heap]. erewrite slot_at_nat by apply block_of_fresh.
      destruct (replicate n Raw !! i) as [x|] eqn:Hi; [|done].
      by apply lookup_replicate in Hi as [-> _].
    + by apply Hplus.
    + by apply Hidx.
    + unfold RawMemory_dtor, Deallocate. cbn [buffer_].
      erewrite operator_delete_eq by apply block_of_fresh.
      by rewrite heap_fresh_insert.
    + split; [|done]. intros b. apply block_of_snoc_None.
Qed.

(** X26. [Insert] at position i followed by [Erase] at the iterator it
    returned gives back the original elements in order (in a full vector
    at any position, in a vector with room before the end), for element
    operations that do not throw. *)
Theorem Insert_then_Erase s this buf l cap i v :
  quiet → rep_at s this buf l cap → i ≤ length l →
  length l = cap ∨ i < length l →
  ∃ s1 it s2 buf' cap',
    Insert this (buf +ₚ i) v s = Ok it s1 ∧
    observed s1 this (take i l ++ v :: drop i l) ∧
    Erase this it s1 = Ok it s2 ∧
    rep_at s2 this buf' l cap' ∧ observed s2 this l.
Proof.
  intros Hq Hrep Hi Hcase.
  destruct (Emplace_spec _ _ _ _ _ i (copy_arg v) Hq Hrep Hi Hcase)
    as (s1 & buf' & cap' & E & Hrep1 & _).
  cbn [arg_value] in Hrep1.
  destruct (Erase_spec _ _ _ _ _ _ _ Hq Hrep1) as (s2 & E2 & Hrep2).
  rewrite length_take, Nat.min_l in E2 by done. rewrite take_drop in Hrep2.
  exists s1, (buf' +ₚ i), s2, buf', cap'. unfold Insert.
  split; [done|]. split; [by eapply rep_at_observed|]. split; [done|].
  split; [done|by eapply rep_at_observed].
Qed.

(** X27. [Insert] into a full vector whose elements migrate by copy,
    under any pattern of throws: when the constructor of the new element
    or the copy of an element before the position throws, everything is as
    before the call; when the copy of an element after the position throws,
    the vector and all blocks are as before, but the copies of the elements
    before the position were never destroyed; otherwise the element is
    inserted in storage of the grown capacity. *)
Theorem Insert_at_capacity_by_copy s this buf l1 l2 v :
  migrate_by_move = false →
  rep_at s this buf (l1 ++ l2) (length (l1 ++ l2)) →
  match first_throw (calls s) (S (length l1)) with
  | Some _ =>
      ∃ s', Insert this (buf +ₚ length l1) v s = Throw s' ∧ rolled_back s s'
  | None =>
      match first_throw (calls s + S (length l1)) (length l2) with
      | Some _ =>
          ∃ s', Insert this (buf +ₚ length l1) v s = Throw s' ∧
                vecs s' = vecs s ∧
                (∀ b, block_of (heap s') b = block_of (heap s) b) ∧
                constructed s' + destroyed s = constructed s + destroyed s' + length l1
      | None =>
          ∃ s', Insert this (buf +ₚ length l1) v s
                  = Ok (Ptr (length (heap s)) 0 +ₚ length l1) s' ∧
                rep_at s' this (Ptr (length (heap s)) 0) (l1 ++ v :: l2)
                       (grown (length (l1 ++ l2)))
      end
  end.
Proof.
  intros Hmv (Hv & Hle & Hown). destruct s as [h vm c k d].
  cbn [vecs heap calls constructed destroyed] in *.
  rewrite Nat.sub_diag in Hown. cbn [replicate] in Hown. rewrite app_nil_r in Hown.
  set (n := length (l1 ++ l2)) in *.
  assert (Hn : n = length l1 + length l2) by (unfold n; by rewrite length_app).
  pose proof (grown_gt n) as Hgt.
  assert (Hfresh : length h < length (h ++ [Some (replicate (grown n) (@Raw T))]))
    by (rewrite length_app; simpl; lia).
  unfold Insert, Emplace. go. erewrite load_eq by done.
  unfold begin, end_, Capacity, GetAddress. cbn [data_ size_ buffer_ capacity_].
  rewrite Nat.ltb_irrefl, Nat.eqb_refl. fold (grown n). rewrite Hmv.
  cbn [first_throw].
  destruct buf as [|b o].
  - (* no storage yet *)
    simpl in Hown. destruct l1, l2; try done. subst n. cbn [length app first_throw] in *.
    rewrite !ptr_null_add. cbn [ptr_leb ptr_diff andb assert]. go.
    rewrite RawMemory_ctor_eq by apply grown_pos.
    go. rewrite RawMemory_plus_eq by (cbn [capacity_]; lia). cbn [buffer_].
    change (Z.to_nat 0) with 0.
    rewrite !ptr_zero, !ptr_nat_add. cbn [Nat.add].
    unfold construct. go. rewrite tick_eq.
    destruct (throws c) eqn:Hc; cbn [fmap option_fmap option_map].
    { unfold RawMemory_dtor, Deallocate. cbn [buffer_]. rewrite <- (ptr_zero (length h)).
      erewrite operator_delete_eq by apply block_of_fresh.
      eexists. split; [reflexivity|]. unfold rolled_back.
      cbn [vecs heap constructed destroyed]. split; [done|]. split; [|lia].
      apply heap_released. }
    erewrite begin_lifetime_eq; [|apply block_of_fresh|by rewrite length_replicate].
    rewrite insert_replicate_lt by done. cbn [replicate app Nat.sub].
    unfold try_catch_rethrow.
    cbn [uninitialized_copy_n destroy_n]. go.
    unfold RawMemory_Swap. cbn [buffer_ capacity_]. go.
    unfold RawMemory_dtor, Deallocate, operator_delete. cbn [buffer_]. go.
    erewrite load_eq by apply lookup_insert_eq. go.
    erewrite load_eq by apply lookup_insert_eq. go. cbn [data_ buffer_ size_].
    rewrite ?ptr_nat_add. cbn [Nat.add].
    eexists. split; [reflexivity|]. unfold rep_at. cbn [vecs heap].
    rewrite insert_insert_eq, lookup_insert_eq.
    split; [done|]. split; [cbn [length app] in *; lia|].
    split; [done|]. split; [done|].
    rewrite block_of_insert_eq by done. done.
  - destruct Hown as (-> & Hnil & Hb).
    assert (Hbl : b < length h) by eauto using block_of_lt.
    rewrite !ptr_zero, !ptr_nat_add. cbn [Nat.add].
    rewrite !ptr_leb_nat, ptr_diff_nat, Nat.sub_0_r.
    rewrite !bool_decide_true by lia. cbn [andb assert]. go.
    rewrite RawMemory_ctor_eq by apply grown_pos.
    go. rewrite RawMemory_plus_eq by (cbn [capacity_]; lia). cbn [buffer_].
    rewrite !(ptr_zero (length h)), !ptr_nat_add. cbn [Nat.add].
    set (h1 := h ++ [Some (replicate (grown n) (@Raw T))]).
    assert (Hh1 : length h1 = S (length h)) by (unfold h1; rewrite length_app; simpl; lia).
    assert (Hrel : ∀ x b', block_of (<[length h := None]> (<[length h := x]> h1)) b'
                           = block_of h b').
    { intros x b'. rewrite list_insert_insert_eq. apply heap_released. }
    unfold construct. go. rewrite tick_eq.
    destruct (throws c) eqn:Hc; cbn [fmap option_fmap option_map].
    { unfold RawMemory_dtor, Deallocate. cbn [buffer_]. rewrite <- (ptr_zero (length h)).
      erewrite operator_delete_eq by apply block_of_fresh.
      eexists. split; [reflexivity|]. unfold rolled_back.
      cbn [vecs heap constructed destroyed]. split; [done|]. split; [|lia].
      apply heap_released. }
    erewrite begin_lifetime_eq; [|apply block_of_fresh|rewrite length_replicate; lia].
    rewrite insert_replicate_lt by lia. fold h1.
    set (blk1 := replicate (length l1) Raw ++ Obj v :: replicate (grown n - S (length l1)) Raw).
    unfold try_catch_rethrow. go. rewrite !transfer_n_copy.
    rewrite (transfer_n_at false l1 _ _ _ _ _ b (length h) 0 0 (length l1)
               [] (Obj <$> l2) [] (replicate (length l1) Raw)
               (Obj v :: replicate (grown n - S (length l1)) Raw));
      [|done|done|done|lia|by rewrite length_replicate| |].
    2:{ rewrite block_of_insert_ne by lia. unfold h1. rewrite block_of_app_l by done.
        by rewrite Hb, fmap_app. }
    2:{ apply block_of_insert_eq. lia. }
    cbn [ticking app].
    assert (Hsrc : ∀ j, (Obj <$> (residue false <$> take j l1)) ++ (Obj <$> drop j l1) ++
                        (Obj <$> l2) = Obj <$> l1 ++ l2).
    { intros j. rewrite residue_copy, app_assoc, <- !fmap_app. by rewrite take_drop. }
    destruct (first_throw (S c) (length l1)) as [j|] eqn:Hj;
      cbn [fmap option_fmap option_map].
    { (* the copy of an element before the position throws *)
      apply first_throw_Some in Hj as (Hj & _).
      rewrite Hsrc, list_insert_insert_eq.
      rewrite drop_replicate, app_assoc, <- replicate_add.
      replace (j + (length l1 - j)) with (length l1) by lia. fold blk1.
      cbn [destroy_n]. go.
      erewrite destroy_at_eq.
      2:{ rewrite block_of_insert_ne by lia. apply block_of_insert_eq. lia. }
      2:{ unfold blk1. apply list_lookup_middle. by rewrite length_replicate. }
      go. unfold RawMemory_dtor, Deallocate. cbn [buffer_].
      erewrite operator_delete_eq.
      2:{ apply block_of_insert_eq. rewrite !length_insert. lia. }
      eexists. split; [reflexivity|]. unfold rolled_back.
      cbn [vecs heap constructed destroyed]. split; [done|]. split; [|lia].
      intros b'. rewrite list_insert_insert_eq.
      rewrite (list_insert_insert_ne _ (length h) b) by lia.
      rewrite list_insert_insert_eq.
      by apply heap_restored. }
    rewrite residue_copy, <- fmap_app.
    rewrite list_insert_insert_eq.
    rewrite (transfer_n_at false l2 _ _ _ _ _ b (length h) (length l1) (length l1 + 1)
               (n - length l1) (Obj <$> l1) [] ((Obj <$> l1) ++ [Obj v])
               (replicate (length l2) Raw) (replicate (grown n - S n) Raw));
      [|by rewrite length_fmap|rewrite length_app, length_fmap; simpl; lia|lia|lia
       |by rewrite length_replicate| |].
    2:{ rewrite block_of_insert_eq by (rewrite length_insert; lia).
        by rewrite app_nil_r, fmap_app. }
    2:{ rewrite block_of_insert_ne by lia. rewrite block_of_insert_eq by lia.
        rewrite <- !app_assoc. cbn [app]. do 3 f_equal.
        rewrite <- replicate_add. f_equal. lia. }
    cbn [ticking]. replace (S c + length l1) with (c + S (length l1)) by lia.
    replace (n - length l1) with (length l2) by lia.
    destruct (first_throw (c + S (length l1)) (length l2)) as [j|] eqn:Hj2.
    { (* the copy of an element after the position throws *)
      apply first_throw_Some in Hj2 as (Hj2 & _).
      cbn [destroy_n]. go.
      rewrite heap_insert_shadow, heap_insert_shadow2 by lia.
      rewrite residue_copy, !app_nil_r, <- !fmap_app, take_drop.
      erewrite destroy_at_eq.
      2:{ rewrite block_of_insert_ne by lia. apply block_of_insert_eq. lia. }
      2:{ rewrite <- app_assoc. apply list_lookup_middle. by rewrite length_fmap. }
      go. unfold RawMemory_dtor, Deallocate. cbn [buffer_].
      erewrite operator_delete_eq.
      2:{ apply block_of_insert_eq. rewrite !length_insert. lia. }
      eexists. split; [reflexivity|].
      cbn [vecs heap constructed destroyed]. split; [done|]. split; [|lia].
      intros b'. rewrite list_insert_insert_eq.
      rewrite (list_insert_insert_ne _ (length h) b) by lia.
      rewrite list_insert_insert_eq.
      by apply heap_restored. }
    (* nothing throws *)
    go. rewrite heap_insert_shadow, heap_insert_shadow2 by lia.
    rewrite residue_copy, !app_nil_r, <- !fmap_app.
    erewrite (destroy_n_at (l1 ++ l2) _ _ _ _ _ b 0 n [] []);
      [|done|done|].
    2:{ rewrite block_of_insert_eq; [by rewrite app_nil_r|].
        rewrite !length_insert. lia. }
    go. unfold RawMemory_Swap. cbn [buffer_ capacity_]. go.
    unfold RawMemory_dtor, Deallocate. cbn [buffer_].
    rewrite <- (ptr_zero b).
    erewrite operator_delete_eq.
    2:{ apply block_of_insert_eq. rewrite !length_insert. lia. }
    go. erewrite load_eq by apply lookup_insert_eq. go.
    erewrite load_eq by apply lookup_insert_eq. go. cbn [data_ buffer_ size_].
    rewrite ?ptr_nat_add. cbn [Nat.add].
    eexists. split; [reflexivity|]. unfold rep_at. cbn [vecs heap].
    rewrite insert_insert_eq, lookup_insert_eq.
    split; [rewrite length_app; cbn [length]; do 2 f_equal; lia|].
    split; [rewrite length_app; cbn [length]; lia|].
    split; [done|]. split; [by destruct l1|].
    rewrite !list_insert_insert_eq.
    rewrite block_of_insert_ne by lia.
    rewrite block_of_insert_eq by lia.
    rewrite <- !app_assoc, !fmap_app, <- !app_assoc. cbn [app fmap list_fmap].
    do 4 f_equal. rewrite length_app. cbn [length]. f_equal. lia.
Qed.

(** X28. [Emplace] (so [Insert]) at [end()] of a vector with spare
    capacity has no defined behaviour, for every such vector: on an empty
    one [end() - 1] is not an element, on any other [std::move_backward]
    is given a first iterator after its last. *)
Theorem Emplace_at_end_with_room s this buf l cap args :
  quiet → rep_at s this buf l cap → length l < cap →
  Emplace this (buf +ₚ length l) args s = Undefined.
Proof.
  intros Hq (Hv & Hle & Hown) Hlt. destruct s as [h vm c k d]. cbn [vecs heap] in *.
  destruct buf as [|b o].
  { destruct (owns_nullptr _ _ _ Hle Hown) as [_ ->]. lia. }
  destruct Hown as (-> & Hnil & Hb).
  assert (Hbl : b < length h) by eauto using block_of_lt.
  unfold Emplace. go. erewrite load_eq by done.
  unfold begin, end_, Capacity, GetAddress. cbn [data_ size_ buffer_ capacity_].
  rewrite !ptr_zero, !ptr_nat_add. cbn [Nat.add].
  rewrite !ptr_leb_nat, ptr_diff_nat, Nat.sub_0_r.
  rewrite !bool_decide_true by lia. cbn [andb assert]. go.
  rewrite (proj2 (Nat.ltb_lt _ _)) by done.
  go. rewrite operator_new_eq. go. rewrite (ptr_zero (length h)).
  edestruct (construct_eq (h ++ [Some (replicate 1 Raw)]) vm c k d (length h) 0
               (replicate 1 Raw) args Hq) as [c1 Hc1];
    [apply block_of_fresh|simpl; lia|].
  rewrite Hc1. clear Hc1. cbn [replicate]. cbn [insert list_insert].
  go.
  assert (Hb1 : block_of (<[length h := Some [Obj (arg_value args)]]>
                            (h ++ [Some [Raw]])) b
                = Some ((Obj <$> l) ++ replicate (cap - length l) Raw)).
  { rewrite block_of_insert_ne by lia. by rewrite block_of_app_l. }
  destruct l as [|z l0 _] using rev_ind.
  - (* [end() - 1] is before the block *)
    cbn [length]. unfold move_construct, deref, slot_at, ptr_add. go.
    cbn [heap]. by rewrite bool_decide_false by lia.
  - rewrite length_app in *. cbn [length] in *.
    replace (Ptr b (Z.of_nat (length l0 + 1)) -ₚ 1) with (Ptr b (Z.of_nat (length l0)))
      by (unfold ptr_add; f_equal; lia).
    rewrite fmap_app, <- app_assoc in Hb1. cbn [fmap list_fmap app] in Hb1.
    replace (cap - (length l0 + 1)) with (S (cap - (length l0 + 1) - 1)) in Hb1 by lia.
    cbn [replicate] in Hb1.
    edestruct (move_construct_same _ vm c1 (S k) d b (length l0) (length l0 + 1) _ z Hq Hb1)
      as [c2 Hc2].
    { apply list_lookup_middle. by rewrite length_fmap. }
    { rewrite length_app. simpl. rewrite length_fmap. lia. }
    { lia. }
    rewrite Hc2. clear Hc2. go.
    unfold move_backward, range_length. rewrite ptr_leb_nat.
    by rewrite bool_decide_false by lia.
Qed.

(** X29. [Emplace] into a vector with spare capacity, when the
    constructor of the new element throws: the vector is unchanged and no
    element was constructed or destroyed, but the one-element block
    acquired for the temporary stays allocated. *)
Theorem Emplace_leaks_temporary_storage s this buf l cap i args :
  rep_at s this buf l cap → length l < cap → i ≤ length l →
  arg_ticks args = true → throws (calls s) = true →
  ∃ s', Emplace this (buf +ₚ i) args s = Throw s' ∧
        vecs s' = vecs s ∧ heap s' = heap s ++ [Some [Raw]] ∧
        constructed s' = constructed s ∧ destroyed s' = destroyed s.
Proof.
  intros (Hv & Hle & Hown) Hlt Hi Hticks Hthrows. destruct s as [h vm c k d].
  cbn [vecs heap calls constructed destroyed] in *.
  destruct buf as [|b o].
  { destruct (owns_nullptr _ _ _ Hle Hown) as [_ ->]. lia. }
  destruct Hown as (-> & Hnil & Hb).
  unfold Emplace. go. erewrite load_eq by done.
  unfold begin, end_, Capacity, GetAddress. cbn [data_ size_ buffer_ capacity_].
  rewrite !ptr_zero, !ptr_nat_add. cbn [Nat.add].
  rewrite !ptr_leb_nat, ptr_diff_nat, Nat.sub_0_r.
  rewrite !bool_decide_true by lia. cbn [andb assert]. go.
  rewrite (proj2 (Nat.ltb_lt _ _)) by done.
  go. rewrite operator_new_eq. go. rewrite (ptr_zero (length h)).
  erewrite construct_exact; [|apply block_of_fresh|simpl; lia].
  rewrite Hticks, Hthrows. cbn [andb]. by eexists.
Qed.

End Guarantees.

(** * The further theorems at concrete inputs *)

(** The vectors the theorems are applied to. *)
Lemma rep_at_default_vector :
  rep_at (state_after (Vector_ctor 0) fresh) 0 nullptr [] 0.
Proof.
  unfold rep_at. split; [vm_compute; reflexivity|]. split; [simpl; lia|]. reflexivity.
Defined.

Lemma rep_at_roomy_vector :
  rep_at (state_after (roomy_vector (elt := int_like)) fresh) 0 (Ptr 0 0) [1; 2] 4.
Proof.
  unfold rep_at. split; [vm_compute; reflexivity|]. split; [simpl; lia|].
  split; [reflexivity|]. split; [discriminate|]. vm_compute. reflexivity.
Defined.

Lemma rep_at_two_vectors_a :
  rep_at (state_after (two_vectors (elt := int_like)) fresh) 0 (Ptr 0 0) [1] 4.
Proof.
  unfold rep_at. split; [vm_compute; reflexivity|]. split; [simpl; lia|].
  split; [reflexivity|]. split; [discriminate|]. vm_compute. reflexivity.
Defined.

Lemma rep_at_two_vectors_b :
  rep_at (state_after (two_vectors (elt := int_like)) fresh) 1 (Ptr 3 0) [7; 8; 9] 4.
Proof.
  unfold rep_at. split; [vm_compute; reflexivity|]. split; [simpl; lia|].
  split; [reflexivity|]. split; [discriminate|]. vm_compute. reflexivity.
Defined.

Lemma rep_at_beside_empty_vector :
  rep_at (state_after (beside_empty_vector (elt := int_like)) fresh) 0 (Ptr 1 0) [1; 2] 2.
Proof.
  unfold rep_at. split; [vm_compute; reflexivity|]. split; [simpl; lia|].
  split; [reflexivity|]. split; [discriminate|]. vm_compute. reflexivity.
Defined.

Lemma rep_at_the_empty_vector :
  rep_at (state_after (beside_empty_vector (elt := int_like)) fresh) 5 nullptr [] 0.
Proof.
  unfold rep_at. split; [vm_compute; reflexivity|]. split; [simpl; lia|]. reflexivity.
Defined.

Lemma rep_at_five_in_eight :
  rep_at (state_after (five_in_eight (elt := throwing_copy)) fresh) 0 (Ptr 0 0)
         [1; 2; 3; 4; 5] 8.
Proof.
  unfold rep_at. split; [vm_compute; reflexivity|]. split; [simpl; lia|].
  split; [reflexivity|]. split; [discriminate|]. vm_compute. reflexivity.
Defined.

(** X1 on the vector holding 1, 2, at index 1. *)
Lemma Vector_at_bounds_witness :
  let s := state_after (full_vector (elt := int_like)) fresh in
  Vector_at 0 1 s = match [1; 2] !! 1 with Some x => Ok x s | None => Undefined end.
Proof.
  apply (Vector_at_bounds _ 0 (Ptr 1 0) [1; 2] 2 1). exact rep_at_full_vector.
Defined.

(** X2 on the vector holding 1, 2. *)
Lemma iterator_range_witness :
  let s := state_after (full_vector (elt := int_like)) fresh in
  ∃ v, load 0 s = Ok v s ∧
    begin v = Ptr 1 0 ∧ cbegin v = begin v ∧ cend v = end_ v ∧
    ptr_diff (end_ v) (begin v) = Z.of_nat (length [1; 2]) ∧
    ptr_leb (begin v) (end_ v) = true ∧
    (∀ i x, [1; 2] !! i = Some x → deref (begin v +ₚ i) s = Ok x s) ∧
    (∀ i, deref (end_ v +ₚ i) s = Undefined).
Proof.
  apply (iterator_range _ 0 (Ptr 1 0) [1; 2] 2). exact rep_at_full_vector.
Defined.

(** X3 on the vector holding 1, 2. *)
Lemma PopBack_cases_witness :
  let s := state_after (full_vector (elt := int_like)) fresh in
  ∃ s', PopBack 0 s = Ok () s' ∧ rep_at s' 0 (Ptr 1 0) (removelast [1; 2]) 2 ∧
        length (heap s') = length (heap s) ∧
        calls s' = calls s ∧ constructed s' = constructed s ∧
        destroyed s' = S (destroyed s).
Proof.
  apply (proj2 (PopBack_cases _ 0 (Ptr 1 0) [1; 2] 2 rep_at_full_vector)).
  discriminate.
Defined.

(** X4 on the vector holding 1, 2, at the position [begin() + 3]. *)
Lemma position_asserts_witness :
  let s := state_after (full_vector (elt := int_like)) fresh in
  Emplace (elt := int_like) 0 (Ptr 1 0 +ₚ 3) (copy_arg 9) s = Undefined ∧
  Erase (elt := int_like) 0 (Ptr 1 0 +ₚ 3) s = Undefined.
Proof.
  destruct (position_asserts (elt := int_like) _ 0 (Ptr 1 0) [1; 2] 2 (Ptr 1 0 +ₚ 3)
              (copy_arg 9) rep_at_full_vector) as [H1 H2].
  split; [apply H1|apply H2]; intros i Hi [= E]; simpl in Hi; lia.
Defined.

(** X5 on the full vector holding 1, 2. *)
Lemma EmplaceBack_returns_new_element_witness :
  let s := state_after (full_vector (elt := int_like)) fresh in
  ∃ s' p buf', EmplaceBack (elt := int_like) 0 (copy_arg 9) s = Ok p s' ∧
    rep_at s' 0 buf' ([1; 2] ++ [9]) (if length [1; 2] =? 2 then grown 2 else 2) ∧
    p = buf' +ₚ length [1; 2] ∧
    deref p s' = Ok 9 s' ∧
    (length [1; 2] < 2 → buf' = Ptr 1 0 ∧ length (heap s') = length (heap s)).
Proof.
  apply (EmplaceBack_returns_new_element (elt := int_like) _ 0 (Ptr 1 0) [1; 2] 2
           (copy_arg 9)).
  - exact quiet_int_like.
  - exact rep_at_full_vector.
Defined.

(** X6 on the vector holding 1, 2 with capacity 4. *)
Lemma EmplaceBack_strong_guarantee_witness :
  let s := state_after (roomy_vector (elt := int_like)) fresh in
  match EmplaceBack (elt := int_like) 0 (copy_arg 9) s with
  | Ok p s' =>
      rep s' 0 ([1; 2] ++ [9]) (if length [1; 2] =? 4 then grown 4 else 4) ∧
      deref p s' = Ok 9 s'
  | Throw s' =>
      arg_ticks (elt := int_like) (copy_arg 9) = true ∧
      throws (Element := int_like) (calls s) = true ∧ rolled_back s s'
  | Undefined => False
  end.
Proof.
  apply (EmplaceBack_strong_guarantee (elt := int_like) _ 0 (Ptr 0 0) [1; 2] 4
           (copy_arg 9)).
  - left. simpl. lia.
  - exact rep_at_roomy_vector.
Defined.

(** X7 for three elements appended to a default-constructed vector. *)
Lemma capacity_doubles_witness :
  let s := state_after (Vector_ctor 0) fresh in
  ∃ s' buf e, run (elt := int_like) 0 (push <$> [1; 2; 3]) s = Ok () s' ∧
    rep_at s' 0 buf [1; 2; 3] (2 ^ e) ∧
    2 ^ e < 2 * length [1; 2; 3] ∧
    length (heap s') = length (heap s) + S e.
Proof.
  apply (capacity_doubles (elt := int_like) _ 0 [1; 2; 3]).
  - exact quiet_int_like.
  - exact rep_at_default_vector.
  - discriminate.
Defined.

(** X8 on the full vector holding 1, 2: [Reserve(5)] and [PushBack(9)]. *)
Lemma reallocation_invalidates_witness :
  let s := state_after (full_vector (elt := int_like)) fresh in
  (∃ s', Reserve (elt := int_like) 0 5 s = Ok () s' ∧ observed s' 0 [1; 2] ∧
         block_of (heap s') 1 = None ∧ ∀ i, deref (Ptr 1 0 +ₚ i) s' = Undefined) ∧
  (∃ s', PushBack (elt := int_like) 0 9 s = Ok () s' ∧ observed s' 0 ([1; 2] ++ [9]) ∧
         block_of (heap s') 1 = None ∧ ∀ i, deref (Ptr 1 0 +ₚ i) s' = Undefined).
Proof.
  destruct (reallocation_invalidates (elt := int_like) _ 0 1 [1; 2] 2
              quiet_int_like rep_at_full_vector) as [H1 H2].
  split; [apply (H1 5); [lia|vm_compute; discriminate]|apply (H2 9); reflexivity].
Defined.

(** X9 on the vector holding 1, 2: [Resize(5)]. *)
Lemma Resize_spec_witness :
  let s := state_after (full_vector (elt := int_like)) fresh in
  ∃ s' buf', Resize (elt := int_like) 0 5 s = Ok () s' ∧
    rep_at s' 0 buf'
      (take 5 [1; 2] ++ replicate (5 - length [1; 2]) (value_init (Element := int_like)))
      (5 `max` 2) ∧
    (5 ≤ 2 → buf' = Ptr 1 0 ∧ length (heap s') = length (heap s)) ∧
    constructed s' + destroyed s + length [1; 2] = constructed s + destroyed s' + 5.
Proof.
  apply (Resize_spec (elt := int_like) _ 0 (Ptr 1 0) [1; 2] 2 5).
  - exact quiet_int_like.
  - exact rep_at_full_vector.
  - right. vm_compute. discriminate.
Defined.

(** X10 for the copyable element type whose sixth operation throws, on the
    vector holding 1, 2: [Resize(5)] migrates the two elements and throws
    on the first new one. *)
Lemma Resize_keeps_elements_on_throw_witness :
  let s := state_after (full_vector (elt := throwing_copy)) fresh in
  match Resize (elt := throwing_copy) 0 5 s with
  | Ok _ s' =>
      rep s' 0 (take 5 [1; 2] ++
                replicate (5 - length [1; 2]) (value_init (Element := throwing_copy)))
          (5 `max` 2)
  | Throw s' =>
      length [1; 2] < 5 ∧ (rep s' 0 [1; 2] 2 ∨ rep s' 0 [1; 2] 5) ∧
      constructed s' + destroyed s = constructed s + destroyed s'
  | Undefined => False
  end.
Proof.
  apply (Resize_keeps_elements_on_throw (elt := throwing_copy) _ 0 (Ptr 1 0) [1; 2] 2 5).
  - left. reflexivity.
  - exact rep_at_full_vector_throwing.
  - right. vm_compute. discriminate.
Defined.

(** X11 with the vector holding 1, 2 as the source and address 5 for the
    copy. *)
Lemma Vector_ctor_copy_cases_witness :
  let s := state_after (full_vector (elt := int_like)) fresh in
  match Vector_ctor_copy (elt := int_like) 5 0 s with
  | Ok _ s' =>
      first_throw (elt := int_like) (calls s) (length [1; 2]) = None ∧
      (∃ buf', rep_at s' 5 buf' [1; 2] (length [1; 2]) ∧ apart buf' (Ptr 1 0)) ∧
      rep_at s' 0 (Ptr 1 0) [1; 2] 2 ∧
      constructed s' = constructed s + length [1; 2] ∧ destroyed s' = destroyed s
  | Throw s' =>
      (∃ j, first_throw (elt := int_like) (calls s) (length [1; 2]) = Some j) ∧
      rolled_back s s'
  | Undefined => False
  end.
Proof.
  apply (Vector_ctor_copy_cases (elt := int_like) _ 5 0 (Ptr 1 0) [1; 2] 2).
  - lia.
  - exact rep_at_full_vector.
Defined.

(** X12 with [b] holding 7, 8, 9 as the receiver and [a] holding 1 as the
    source. *)
Lemma copy_assign_spec_witness :
  let s := state_after (two_vectors (elt := int_like)) fresh in
  ∃ s' buf', Vector_copy_assign (elt := int_like) 1 0 s = Ok () s' ∧
    rep_at s' 1 buf' [1] (length [1] `max` 4) ∧
    rep_at s' 0 (Ptr 0 0) [1] 4 ∧
    observed s' 1 [1] ∧
    (length [1] ≤ 4 → buf' = Ptr 3 0) ∧
    constructed s' + destroyed s + length [7; 8; 9]
      = constructed s + destroyed s' + length [1].
Proof.
  apply (copy_assign_spec (elt := int_like) _ 1 0 (Ptr 3 0) [7; 8; 9] 4 (Ptr 0 0) [1] 4).
  - exact quiet_int_like.
  - lia.
  - exact rep_at_two_vectors_b.
  - exact rep_at_two_vectors_a.
  - simpl. lia.
  - right. left. simpl. lia.
Defined.

(** X13 with the empty vector at address 5 as the receiver and the vector
    holding 1, 2 as the source. *)
Lemma copy_assign_strong_guarantee_witness :
  let s := state_after (beside_empty_vector (elt := int_like)) fresh in
  match Vector_copy_assign (elt := int_like) 5 0 s with
  | Ok _ s' =>
      first_throw (elt := int_like) (calls s) (length [1; 2]) = None ∧
      rep s' 5 [1; 2] (length [1; 2] `max` 0) ∧ rep_at s' 0 (Ptr 1 0) [1; 2] 2
  | Throw s' =>
      (∃ j, first_throw (elt := int_like) (calls s) (length [1; 2]) = Some j) ∧
      rolled_back s s'
  | Undefined => False
  end.
Proof.
  apply (copy_assign_strong_guarantee (elt := int_like) _ 5 0 nullptr [] 0 (Ptr 1 0)
           [1; 2] 2).
  - lia.
  - exact rep_at_the_empty_vector.
  - exact rep_at_beside_empty_vector.
  - exact I.
  - left. simpl. lia.
Defined.


(** X15 with [a] holding 1 in capacity 4 as the receiver and [b] holding
    7, 8, 9 as the source. *)
Lemma copy_assign_growing_in_place_witness :
  let s := state_after (two_vectors (elt := int_like)) fresh in
  ∃ s', Vector_copy_assign (elt := int_like) 0 1 s = Ok () s' ∧
    vecs s' !! 0 = Some (mkVector (mkRawMemory (Ptr 0 0) 4) (length [7; 8; 9])) ∧
    (∀ i x, i < length [1] `max` (length [7; 8; 9] - length [1]) →
            [7; 8; 9] !! i = Some x → Vector_at 0 i s' = Ok x s') ∧
    (∀ i, length [1] `max` (length [7; 8; 9] - length [1]) ≤ i →
          Vector_at 0 i s' = Undefined) ∧
    constructed s' = constructed s + (length [7; 8; 9] - length [1]) ∧
    destroyed s' = destroyed s ∧
    rep_at s' 1 (Ptr 3 0) [7; 8; 9] 4.
Proof.
  apply (copy_assign_growing_in_place (elt := int_like) _ 0 1 (Ptr 0 0) [1] 4
           (Ptr 3 0) [7; 8; 9] 4).
  - exact quiet_int_like.
  - lia.
  - exact rep_at_two_vectors_a.
  - exact rep_at_two_vectors_b.
  - simpl. lia.
  - simpl. lia.
  - simpl. lia.
  - simpl. lia.
Defined.

(** X17 on [a] holding 1 and [b] holding 7, 8, 9. *)
Lemma Swap_exchanges_witness :
  let s := state_after (two_vectors (elt := int_like)) fresh in
  ∃ s', Swap 0 1 s = Ok () s' ∧
        rep_at s' 0 (Ptr 3 0) [7; 8; 9] 4 ∧ rep_at s' 1 (Ptr 0 0) [1] 4 ∧
        heap s' = heap s ∧ calls s' = calls s ∧
        constructed s' = constructed s ∧ destroyed s' = destroyed s ∧
        (∀ that, that ≠ 0 → that ≠ 1 → vecs s' !! that = vecs s !! that) ∧
        Swap 0 1 s' = Ok () s.
Proof.
  apply (Swap_exchanges _ 0 1 (Ptr 0 0) [1] 4 (Ptr 3 0) [7; 8; 9] 4).
  - lia.
  - exact rep_at_two_vectors_a.
  - exact rep_at_two_vectors_b.
Defined.

(** X18 with the vector holding 1, 2 as the source and the empty vector at
    address 5 as the receiver. *)
Lemma move_transfers_storage_witness :
  let s := state_after (beside_empty_vector (elt := int_like)) fresh in
  (∃ s', Vector_ctor_move 5 0 s = Ok () s' ∧
         rep_at s' 5 (Ptr 1 0) [1; 2] 2 ∧ rep_at s' 0 nullptr [] 0 ∧
         heap s' = heap s ∧ calls s' = calls s ∧
         constructed s' = constructed s ∧ destroyed s' = destroyed s) ∧
  (∃ s', Vector_move_assign 5 0 s = Ok () s' ∧
         rep_at s' 5 (Ptr 1 0) [1; 2] 2 ∧ rep_at s' 0 nullptr [] 0 ∧
         heap s' = heap s ∧ calls s' = calls s ∧
         constructed s' = constructed s ∧ destroyed s' = destroyed s).
Proof.
  destruct (move_transfers_storage _ 5 0 (Ptr 1 0) [1; 2] 2 ltac:(lia)
              rep_at_beside_empty_vector) as [H1 H2].
  split; [exact H1|]. apply H2. vm_compute. eexists. reflexivity.
Defined.

(** X19 on the vector holding 1, 2. *)
Lemma Vector_dtor_releases_witness :
  let s := state_after (full_vector (elt := int_like)) fresh in
  ∃ v s', load 0 s = Ok v s ∧ Vector_dtor v s = Ok () s' ∧
    (∀ b, Ptr 1 0 = Ptr b 0 → block_of (heap s') b = None) ∧
    (∀ b, Ptr 1 0 ≠ Ptr b 0 → block_of (heap s') b = block_of (heap s) b) ∧
    (∀ i, deref (Ptr 1 0 +ₚ i) s' = Undefined) ∧
    vecs s' = vecs s ∧ calls s' = calls s ∧
    constructed s' = constructed s ∧
    destroyed s' = destroyed s + length [1; 2].
Proof.
  apply (Vector_dtor_releases _ 0 (Ptr 1 0) [1; 2] 2). exact rep_at_full_vector.
Defined.

(** X20 for the copyable element type whose sixth operation throws, beside
    the vector holding 1, 2: [Vector(4)] at address 9 throws on its third
    element. *)
Lemma sized_lifetime_leaks_nothing_witness :
  let s := state_after (full_vector (elt := throwing_copy)) fresh in
  match (Vector_ctor_size (elt := throwing_copy) 9 4;; v ← load 9; Vector_dtor v) s with
  | Ok _ s' | Throw s' =>
      (∀ b, block_of (heap s') b = block_of (heap s) b) ∧
      constructed s' + destroyed s = constructed s + destroyed s'
  | Undefined => False
  end.
Proof.
  apply (sized_lifetime_leaks_nothing (elt := throwing_copy) _ 9 4).
  vm_compute. discriminate.
Defined.

(** X21 for push 1, push 2, pop, push 3 on a vector at address 0. *)
Lemma vector_lifetime_leaks_nothing_witness :
  let ops := [push 1; push 2; pop; push_rvalue 3] in
  ∃ s', (Vector_ctor 0;; run (elt := int_like) 0 ops;; v ← load 0; Vector_dtor v) fresh
          = Ok () s' ∧
        (∀ b, block_of (heap s') b = block_of (heap fresh) b) ∧
        (∀ that, that ≠ 0 → vecs s' !! that = vecs fresh !! that) ∧
        constructed s' + destroyed fresh = constructed fresh + destroyed s'.
Proof.
  apply (vector_lifetime_leaks_nothing (elt := int_like) fresh 0
           [push 1; push 2; pop; push_rvalue 3] [1; 3]).
  - exact quiet_int_like.
  - reflexivity.
Defined.

(** X22 with four elements appended to [a], which reallocates, beside [b]
    holding 7, 8, 9. *)
Lemma other_vectors_untouched_witness :
  let s := state_after (two_vectors (elt := int_like)) fresh in
  let ops := [push 5; push 6; push 7; push 8] in
  ∃ s', run (elt := int_like) 0 ops s = Ok () s' ∧ observed s' 0 [1; 5; 6; 7; 8] ∧
        rep_at s' 1 (Ptr 3 0) [7; 8; 9] 4 ∧ observed s' 1 [7; 8; 9].
Proof.
  apply (other_vectors_untouched (elt := int_like) _ 0 1 (Ptr 0 0) [1] 4 (Ptr 3 0)
           [7; 8; 9] 4 [push 5; push 6; push 7; push 8] [1; 5; 6; 7; 8]).
  - exact quiet_int_like.
  - lia.
  - simpl. lia.
  - exact rep_at_two_vectors_a.
  - exact rep_at_two_vectors_b.
  - reflexivity.
Defined.

(** X23 with the vector holding 1, 2 as the source, a copy at address 5,
    and push 9, pop, pop on the copy. *)
Lemma copy_is_independent_witness :
  let s := state_after (full_vector (elt := int_like)) fresh in
  let ops := [push 9; pop; pop] in
  ∃ s1 s2 v s3,
    Vector_ctor_copy (elt := int_like) 5 0 s = Ok () s1 ∧
    observed s1 5 [1; 2] ∧ observed s1 0 [1; 2] ∧
    run (elt := int_like) 5 ops s1 = Ok () s2 ∧
    observed s2 5 [1] ∧ observed s2 0 [1; 2] ∧
    load 5 s2 = Ok v s2 ∧ Vector_dtor v s2 = Ok () s3 ∧
    rep_at s3 0 (Ptr 1 0) [1; 2] 2 ∧ observed s3 0 [1; 2] ∧
    (∀ b, block_of (heap s3) b = block_of (heap s) b) ∧
    constructed s3 + destroyed s = constructed s + destroyed s3.
Proof.
  apply (copy_is_independent (elt := int_like) _ 5 0 (Ptr 1 0) [1; 2] 2
           [push 9; pop; pop] [1]).
  - exact quiet_int_like.
  - lia.
  - exact rep_at_full_vector.
  - reflexivity.
Defined.

(** X25 beside the vector holding 1, 2: [RawMemory(3)]. *)
Lemma RawMemory_acquire_release_witness :
  let s := state_after (full_vector (elt := int_like)) fresh in
  ∃ r s1 s2,
    RawMemory_ctor 3 s = Ok r s1 ∧ capacity_ r = 3 ∧
    owns (heap s1) (buffer_ r) (replicate 3 Raw) ∧
    (3 = 0 → buffer_ r = nullptr ∧ s1 = s) ∧
    (3 ≠ 0 → buffer_ r = Ptr (length (heap s)) 0 ∧
             length (heap s1) = S (length (heap s))) ∧
    (∀ b, b < length (heap s) → block_of (heap s1) b = block_of (heap s) b) ∧
    (∀ i, deref (buffer_ r +ₚ i) s1 = Undefined) ∧
    RawMemory_plus r 3 s1 = Ok (buffer_ r +ₚ 3) s1 ∧
    RawMemory_index r 3 s1 = Undefined ∧
    RawMemory_dtor r s1 = Ok () s2 ∧
    (∀ b, block_of (heap s2) b = block_of (heap s) b) ∧
    vecs s2 = vecs s ∧ calls s2 = calls s ∧
    constructed s2 = constructed s ∧ destroyed s2 = destroyed s.
Proof.
  apply (RawMemory_acquire_release (elt := int_like) _ 3). vm_compute. discriminate.
Defined.

(** X26 on the full vector holding 1, 2: insert 9 at position 1, erase it. *)
Lemma Insert_then_Erase_witness :
  let s := state_after (full_vector (elt := int_like)) fresh in
  ∃ s1 it s2 buf' cap',
    Insert (elt := int_like) 0 (Ptr 1 0 +ₚ 1) 9 s = Ok it s1 ∧
    observed s1 0 (take 1 [1; 2] ++ 9 :: drop 1 [1; 2]) ∧
    Erase (elt := int_like) 0 it s1 = Ok it s2 ∧
    rep_at s2 0 buf' [1; 2] cap' ∧ observed s2 0 [1; 2].
Proof.
  apply (Insert_then_Erase (elt := int_like) _ 0 (Ptr 1 0) [1; 2] 2 1 9).
  - exact quiet_int_like.
  - exact rep_at_full_vector.
  - simpl. lia.
  - left. reflexivity.
Defined.

(** X27 for the copyable element type whose sixth operation throws, on the
    full vector holding 1, 2, inserting 9 at position 1: the new element
    and the copy of 1 are made, the copy of 2 throws. *)
Lemma Insert_at_capacity_by_copy_witness :
  let s := state_after (full_vector (elt := throwing_copy)) fresh in
  match first_throw (elt := throwing_copy) (calls s) (S (length [1])) with
  | Some _ =>
      ∃ s', Insert (elt := throwing_copy) 0 (Ptr 1 0 +ₚ length [1]) 9 s = Throw s' ∧
            rolled_back s s'
  | None =>
      match first_throw (elt := throwing_copy) (calls s + S (length [1])) (length [2]) with
      | Some _ =>
          ∃ s', Insert (elt := throwing_copy) 0 (Ptr 1 0 +ₚ length [1]) 9 s = Throw s' ∧
                vecs s' = vecs s ∧
                (∀ b, block_of (heap s') b = block_of (heap s) b) ∧
                constructed s' + destroyed s = constructed s + destroyed s' + length [1]
      | None =>
          ∃ s', Insert (elt := throwing_copy) 0 (Ptr 1 0 +ₚ length [1]) 9 s
                  = Ok (Ptr (length (heap s)) 0 +ₚ length [1]) s' ∧
                rep_at s' 0 (Ptr (length (heap s)) 0) ([1] ++ 9 :: [2])
                       (grown (length ([1] ++ [2])))
      end
  end.
Proof.
  apply (Insert_at_capacity_by_copy (elt := throwing_copy) _ 0 (Ptr 1 0) [1] [2] 9).
  - reflexivity.
  - exact rep_at_full_vector_throwing.
Defined.

(** X28 on the vector holding 1, 2 with capacity 4. *)
Lemma Emplace_at_end_with_room_witness :
  let s := state_after (roomy_vector (elt := int_like)) fresh in
  Emplace (elt := int_like) 0 (Ptr 0 0 +ₚ length [1; 2]) (copy_arg 9) s = Undefined.
Proof.
  apply (Emplace_at_end_with_room (elt := int_like) _ 0 (Ptr 0 0) [1; 2] 4 (copy_arg 9)).
  - exact quiet_int_like.
  - exact rep_at_roomy_vector.
  - simpl. lia.
Defined.

(** X29 for the copyable element type whose sixth operation throws, on the
    vector holding 1 to 5 with capacity 8, inserting at position 1. *)
Lemma Emplace_leaks_temporary_storage_witness :
  let s := state_after (five_in_eight (elt := throwing_copy)) fresh in
  ∃ s', Emplace (elt := throwing_copy) 0 (Ptr 0 0 +ₚ 1) (copy_arg 9) s = Throw s' ∧
        vecs s' = vecs s ∧ heap s' = heap s ++ [Some [Raw]] ∧
        constructed s' = constructed s ∧ destroyed s' = destroyed s.
Proof.
  apply (Emplace_leaks_temporary_storage (elt := throwing_copy) _ 0 (Ptr 0 0)
           [1; 2; 3; 4; 5] 8 1 (copy_arg 9)).
  - exact rep_at_five_in_eight.
  - simpl. lia.
  - simpl. lia.
  - reflexivity.
  - reflexivity.
Defined.
